(** * Hawker-centre tool server and its client bridge

    A shallow embedding of the location-aware tool-calling core:

    - [Distance]       services/distance.ts   (ranking by distance)
    - [NearbyHawkers]  tools/nearby-hawkers.ts
    - [Details]        tools/details.ts
    - [Closures]       tools/closures.ts
    - [DataGovSg]      services/data-gov-sg.js (fetch, parse, cache)
    - [Server]         index.ts                (tool dispatch)
    - [MCPClient]      lib/server/mcp/client.ts (request/response bridge)

    Numbers read from JSON are rationals ([Q]); numbers that are computed
    may also be infinite or NaN.  The great-circle distance comes from the
    Turf library and the conversions of values to numbers and strings from
    the language; they are parameters of the development, and they may
    throw. *)

From Stdlib Require Import QArith Qabs Qround Lqa Sorted Permutation.
From stdpp Require Import base tactics option list strings pretty gmap.

Local Open Scope Z_scope.

(** ** A small JavaScript prelude *)

Module Js.

(** Numbers that a computation may yield: a rational, an infinity, or NaN. *)
Inductive Num := NaN | NegInf | Fin (q : Q) | PosInf.

(** [a <= b] on numbers: false as soon as one side is NaN. *)
Definition num_le (a b : Num) : bool :=
  match a, b with
  | NaN, _ => false
  | _, NaN => false
  | NegInf, _ => true
  | Fin _, NegInf => false
  | Fin x, Fin y => Qle_bool x y
  | Fin _, PosInf => true
  | PosInf, PosInf => true
  | PosInf, _ => false
  end.

(** [a - b] *)
Definition num_sub (a b : Num) : Num :=
  match a, b with
  | NaN, _ => NaN
  | _, NaN => NaN
  | Fin x, Fin y => Fin (x - y)
  | PosInf, PosInf => NaN
  | NegInf, NegInf => NaN
  | PosInf, _ => PosInf
  | NegInf, _ => NegInf
  | Fin _, PosInf => NegInf
  | Fin _, NegInf => PosInf
  end.

(** What the sort makes of a comparator's result [v] for [(a, b)]: NaN
    counts as [+0], and [a] stays before [b] unless [v > 0]. *)
Definition keeps_order (v : Num) : bool :=
  match v with
  | NaN => true
  | NegInf => true
  | Fin q => Qle_bool q 0
  | PosInf => false
  end.

(** [Array.prototype.sort(cmp)] is stable.  When the comparator orders the
    elements consistently, every conforming sort computes the array that
    this stable insertion sort computes; when it does not (a NaN among the
    keys), the order is left to the implementation and this is one of the
    orders it may produce. *)
Fixpoint insert_sorted {A} (cmp : A -> A -> Num) (x : A) (l : list A) : list A :=
  match l with
  | [] => [x]
  | y :: l' =>
      if keeps_order (cmp x y) then x :: y :: l' else y :: insert_sorted cmp x l'
  end.

Fixpoint sort {A} (cmp : A -> A -> Num) (l : list A) : list A :=
  match l with
  | [] => []
  | x :: l' => insert_sorted cmp x (sort cmp l')
  end.

(** Truncation of a rational towards zero. *)
Definition truncate (q : Q) : Z := Z.quot (Qnum q) (Zpos (Qden q)).

(** ToIntegerOrInfinity *)
Inductive IntInf := MinusInf | Int (z : Z) | PlusInf.

Definition to_integer (n : Num) : IntInf :=
  match n with
  | NaN => Int 0
  | NegInf => MinusInf
  | Fin q => Int (truncate q)
  | PosInf => PlusInf
  end.

(** [arr.slice(0, end)]: a negative [end] counts from the end of the array. *)
Definition slice0 {A} (l : list A) (end_ : Num) : list A :=
  let len := Z.of_nat (length l) in
  let final :=
    match to_integer end_ with
    | MinusInf => 0
    | Int rel => if rel <? 0 then Z.max (len + rel) 0 else Z.min rel len
    | PlusInf => len
    end in
  take (Z.to_nat (Z.max final 0)) l.

(** [arr.length] as a number. *)
Definition count {A} (l : list A) : Num := Fin (inject_Z (Z.of_nat (length l))).

(** [Math.round]: the nearest integer, halves rounded up. *)
Definition math_round (n : Num) : Num :=
  match n with
  | Fin q => Fin (inject_Z (Qfloor (q + (1 # 2))))
  | _ => n
  end.

(** [String.prototype.includes] *)
Fixpoint includes (s sub : string) : bool :=
  if String.prefix sub s then true
  else match s with
       | EmptyString => false
       | String _ s' => includes s' sub
       end.

(** What [includes] decides: [sub] occurs somewhere inside [s]. *)
Definition contains (s sub : string) : Prop :=
  exists pre post, s = pre +:+ sub +:+ post.

(** [Array.prototype.join] *)
Fixpoint join (sep : string) (l : list string) : string :=
  match l with
  | [] => ""
  | [s] => s
  | s :: l' => s +:+ sep +:+ join sep l'
  end.

(** ASCII case folding, an instance of [String.prototype.toLowerCase]. *)
Definition lower_ascii (c : Ascii.ascii) : Ascii.ascii :=
  let n := Ascii.nat_of_ascii c in
  if ((65 <=? n) && (n <=? 90))%nat then Ascii.ascii_of_nat (n + 32) else c.

Fixpoint ascii_lower (s : string) : string :=
  match s with
  | EmptyString => EmptyString
  | String c s' => String (lower_ascii c) (ascii_lower s')
  end.

Definition dquote : string := String (Ascii.ascii_of_nat 34) EmptyString.
Definition nl : string := String (Ascii.ascii_of_nat 10) EmptyString.

(** Values read from parsed JSON, with [undefined] for absent properties. *)
#[warnings="-register-all"]
Inductive JsValue :=
  | JUndefined
  | JNull
  | JBool (b : bool)
  | JNumber (q : Q)
  | JString (s : string)
  | JArray (items : list JsValue)
  | JObject (props : list (string * JsValue)).

Definition truthy (v : JsValue) : bool :=
  match v with
  | JUndefined | JNull => false
  | JBool b => b
  | JNumber q => negb (Qeq_bool q 0)
  | JString s => negb (String.eqb s "")
  | JArray _ | JObject _ => true
  end.

(** [a || b] *)
Definition or_else (a b : JsValue) : JsValue := if truthy a then a else b.

Fixpoint assoc (k : string) (props : list (string * JsValue)) : option JsValue :=
  match props with
  | [] => None
  | (k', v) :: props' => if String.eqb k k' then Some v else assoc k props'
  end.

(** The error codes of the protocol SDK that the server uses. *)
Inductive ErrorCode := MethodNotFound | InternalError.

(** What can be thrown: a protocol error (with the arguments of its
    constructor), an [Error], or any other value (kept as its string form). *)
Inductive JsError :=
  | McpError (code : ErrorCode) (message : string)
  | Error (message : string)
  | Thrown (repr : string).

Inductive completion (A : Type) :=
  | Returned (a : A)
  | Threw (e : JsError).
Arguments Returned {A} a.
Arguments Threw {A} e.

Definition bind {A B} (c : completion A) (k : A -> completion B) : completion B :=
  match c with
  | Returned a => k a
  | Threw e => Threw e
  end.

Fixpoint mapM {A B} (f : A -> completion B) (l : list A) : completion (list B) :=
  match l with
  | [] => Returned []
  | x :: l' =>
      bind (f x) (fun y => bind (mapM f l') (fun ys => Returned (y :: ys)))
  end.

(** Reading the named property [v.k], for a key that no prototype defines. *)
Definition get (v : JsValue) (k : string) : completion JsValue :=
  match v with
  | JUndefined | JNull =>
      Threw (Error ("Cannot read properties of undefined or null (reading '" +:+ k +:+ "')"))
  | JObject props => Returned (default JUndefined (assoc k props))
  | _ => Returned JUndefined
  end.

(** Reading the element [v[i]]: an array's element, a string's character,
    an object's property of that decimal name. *)
Definition index (v : JsValue) (i : nat) : completion JsValue :=
  match v with
  | JUndefined | JNull =>
      Threw (Error "Cannot read properties of undefined or null")
  | JArray items => Returned (default JUndefined (items !! i))
  | JString s =>
      Returned (match String.get i s with
                | Some c => JString (String c EmptyString)
                | None => JUndefined
                end)
  | JObject props => Returned (default JUndefined (assoc (pretty i) props))
  | _ => Returned JUndefined
  end.

(** Array methods whose callback may throw: [map] with the index, [filter]
    and [find]; the callback runs on the elements in order, and [find]
    stops at the first element it accepts. *)
Fixpoint imapM_from {A B} (f : nat -> A -> completion B) (i : nat) (l : list A)
  : completion (list B) :=
  match l with
  | [] => Returned []
  | x :: l' =>
      bind (f i x) (fun y => bind (imapM_from f (S i) l') (fun ys => Returned (y :: ys)))
  end.

Definition imapM {A B} (f : nat -> A -> completion B) (l : list A)
  : completion (list B) := imapM_from f 0 l.

Fixpoint filterM {A} (p : A -> completion bool) (l : list A) : completion (list A) :=
  match l with
  | [] => Returned []
  | x :: l' =>
      bind (p x) (fun b =>
        bind (filterM p l') (fun r => Returned (if b then x :: r else r)))
  end.

Fixpoint findM {A} (p : A -> completion bool) (l : list A) : completion (option A) :=
  match l with
  | [] => Returned None
  | x :: l' => bind (p x) (fun b => if b then Returned (Some x) else findM p l')
  end.

#[export] Instance completion_bind : MBind completion :=
  fun A B k c => bind c k.

Section WithConversions.

(** ToNumber and ToString of the language, for the values that are not a
    number, respectively not a string, already. *)
Variable ToNumber : JsValue -> completion Num.
Variable ToString : JsValue -> completion string.

Definition to_number (v : JsValue) : completion Num :=
  match v with
  | JNumber q => Returned (Fin q)
  | _ => ToNumber v
  end.

Definition to_string (v : JsValue) : completion string :=
  match v with
  | JString s => Returned s
  | _ => ToString v
  end.

(** The conversions of the values inside a template literal, in order. *)
Fixpoint to_strings (vs : list JsValue) : completion (list string) :=
  match vs with
  | [] => Returned []
  | v :: vs' =>
      bind (to_string v) (fun s =>
        bind (to_strings vs') (fun ss => Returned (s :: ss)))
  end.

End WithConversions.

(** [v.toLowerCase()]: only a string has the method. *)
Definition lower_of (toLowerCase : string -> string) (v : JsValue) : completion string :=
  match v with
  | JString s => Returned (toLowerCase s)
  | JUndefined | JNull =>
      Threw (Error "Cannot read properties of undefined or null (reading 'toLowerCase')")
  | _ => Threw (Error "toLowerCase is not a function")
  end.

End Js.

(** ** Tool results *)

Record ContentBlock := { type : string; text : string }.
Record ToolResult := { content : list ContentBlock }.

Definition text_result (s : string) : ToolResult :=
  {| content := [ {| type := "text"; text := s |} ] |}.

(** ** The entries that the gateway builds *)

Module Hawker.
(** The object literal built from one feature of the feed.  Apart from the
    address, a template string, every field holds whatever the feed held. *)
Record t := {
  name : Js.JsValue;
  address : string;
  postalCode : Js.JsValue;
  latitude : Js.JsValue;
  longitude : Js.JsValue;
  description : Js.JsValue;
  status : Js.JsValue;
  stallCount : Js.JsValue;
  photoUrl : Js.JsValue
}.
End Hawker.

Module ClosureRecord.
(** The object literal built from one record of the closures feed. *)
Record t := {
  name : Js.JsValue;
  quarter : Js.JsValue;
  closureDates : Js.JsValue;
  reason : Js.JsValue
}.
End ClosureRecord.

(** ** services/data-gov-sg.js *)

Module DataGovSg.
Import Js.

(** How a call of [fetch] ends: it rejects, or it yields a response whose
    body may or may not parse. *)
Inductive FetchResult :=
  | Rejects (e : JsError)
  | Response (ok : bool) (statusText : string) (json : completion JsValue).

(** The environment of one call: the clock at the freshness test, the two
    fetches, the clock when the cache is stamped. *)
Record World := {
  now_check : Z;
  poll : FetchResult;
  download : FetchResult;
  now_stamp : Z
}.

Record Cache := {
  cachedHawkers : option (list Hawker.t);
  cacheTimestamp : Z
}.

Definition initial : Cache := {| cachedHawkers := None; cacheTimestamp := 0 |}.

Definition CACHE_DURATION : Z := 24 * 60 * 60 * 1000.

Section WithToString.

(** String conversion inside template literals, for values that are not
    strings already; it may throw. *)
Variable ToString : JsValue -> completion string.

Definition parseFeature (feature : JsValue) : completion Hawker.t :=
  properties ← get feature "properties";
  NAME ← get properties "NAME";
  block ← get properties "ADDRESSBLOCKHOUSENUMBER";
  block_text ← to_string ToString block;
  street ← get properties "ADDRESSSTREETNAME";
  street_text ← to_string ToString street;
  postal ← get properties "ADDRESSPOSTALCODE";
  geometry ← get feature "geometry";
  coordinates ← get geometry "coordinates";
  lat ← index coordinates 1;
  lon ← index coordinates 0;
  DESCRIPTION ← get properties "DESCRIPTION";
  STATUS ← get properties "STATUS";
  stalls ← get properties "NUMBER_OF_COOKED_FOOD_STALLS";
  PHOTOURL ← get properties "PHOTOURL";
  Returned
    {| Hawker.name := NAME;
       Hawker.address := block_text +:+ " " +:+ street_text;
       Hawker.postalCode := or_else postal (JString "");
       Hawker.latitude := lat;
       Hawker.longitude := lon;
       Hawker.description := or_else DESCRIPTION (JString "");
       Hawker.status := or_else STATUS (JString "Unknown");
       Hawker.stallCount := or_else stalls (JNumber 0);
       Hawker.photoUrl := or_else PHOTOURL (JString "") |}.

(** [await fetch(..)], the [ok] test and [await response.json()]. *)
Definition fetch_json (r : FetchResult) (what : string) : completion JsValue :=
  match r with
  | Rejects e => Threw e
  | Response false statusText _ => Threw (Error (what +:+ statusText))
  | Response true _ json => json
  end.

(** The body of the [try] block, up to the parsed collection. *)
Definition fetch_body (w : World) : completion (list Hawker.t) :=
  pollData ← fetch_json (poll w) "Failed to fetch hawker data: ";
  data ← get pollData "data";
  downloadUrl ← get data "url";
  geojson ← fetch_json (download w) "Failed to download hawker data: ";
  features ← get geojson "features";
  match features with
  | JArray items => mapM parseFeature items
  | _ => Threw (Error "geojson.features.map is not a function")
  end.

Definition fetchHawkerCentres (w : World) (c : Cache)
  : completion (list Hawker.t) * Cache :=
  let refresh :=
    match fetch_body w with
    | Returned hawkers =>
        (Returned hawkers,
         {| cachedHawkers := Some hawkers; cacheTimestamp := now_stamp w |})
    | Threw _ =>
        match cachedHawkers c with
        | Some cached =>
            if (0 <? length cached)%nat then (Returned cached, c)
            else (Returned [], c)
        | None => (Returned [], c)
        end
    end in
  match cachedHawkers c with
  | Some cached =>
      if now_check w - cacheTimestamp c <? CACHE_DURATION
      then (Returned cached, c)
      else refresh
  | None => refresh
  end.

End WithToString.

(** A fetch that fails: a transport error or a non-success status. *)
Definition fetch_failed (r : FetchResult) : Prop :=
  match r with
  | Rejects _ => True
  | Response ok _ _ => ok = false
  end.

Definition upstream_failure (w : World) : Prop :=
  fetch_failed (poll w) \/ fetch_failed (download w).

(** A named property is absent from the feature's [properties] object. *)
Definition absent (feature : JsValue) (k : string) : Prop :=
  exists properties,
    get feature "properties" = Returned properties /\
    get properties k = Returned JUndefined.

End DataGovSg.

(** ** services/data-gov-sg.js, the closures feed *)

Module DataGovSgClosures.
Import Js DataGovSg.

(** The environment of one call: the clock at the freshness test, the one
    fetch, the clock when the cache is stamped. *)
Record World := {
  now_check : Z;
  response : FetchResult;
  now_stamp : Z
}.

Record Cache := {
  cachedClosures : option (list ClosureRecord.t);
  closureCacheTimestamp : Z
}.

Definition initial : Cache :=
  {| cachedClosures := None; closureCacheTimestamp := 0 |}.

Definition CLOSURE_CACHE_DURATION : Z := 60 * 60 * 1000.

(** At time [now] the cache is missing or older than its window. *)
Definition expired (now : Z) (c : Cache) : Prop :=
  forall cached, cachedClosures c = Some cached ->
                 CLOSURE_CACHE_DURATION <= now - closureCacheTimestamp c.

Definition parseRecord (record : JsValue) : completion ClosureRecord.t :=
  name ← get record "name";
  quarter ← get record "quarter";
  closure_dates ← get record "closure_dates";
  reason ← get record "reason";
  Returned
    {| ClosureRecord.name := or_else name (JString "");
       ClosureRecord.quarter := or_else quarter (JString "");
       ClosureRecord.closureDates := or_else closure_dates (JString "");
       ClosureRecord.reason := or_else reason (JString "Scheduled closure") |}.

(** The body of the [try] block, up to the parsed records. *)
Definition fetch_body (w : World) : completion (list ClosureRecord.t) :=
  data ← fetch_json (response w) "Failed to fetch closures: ";
  result ← get data "result";
  records ← get result "records";
  match records with
  | JArray items => mapM parseRecord items
  | _ => Threw (Error "data.result.records.map is not a function")
  end.

Definition fetchHawkerClosures (w : World) (c : Cache)
  : completion (list ClosureRecord.t) * Cache :=
  let refresh :=
    match fetch_body w with
    | Returned closures =>
        (Returned closures,
         {| cachedClosures := Some closures; closureCacheTimestamp := now_stamp w |})
    | Threw _ => (Returned [], c)
    end in
  match cachedClosures c with
  | Some cached =>
      if now_check w - closureCacheTimestamp c <? CLOSURE_CACHE_DURATION
      then (Returned cached, c)
      else refresh
  | None => refresh
  end.

End DataGovSgClosures.

(** ** Notions used to state the properties of the gateway *)

Module Gateway.
Import Js DataGovSg.

(** A value that is neither [null] nor [undefined]. *)
Definition defined (v : JsValue) : Prop := v <> JUndefined /\ v <> JNull.

(** The value of [v.k] where reading it does not throw. *)
Definition prop (v : JsValue) (k : string) : JsValue :=
  match get v k with
  | Returned x => x
  | Threw _ => JUndefined
  end.

(** At time [now] the cache is missing or past its freshness window, so a
    call goes to the network. *)
Definition expired (now : Z) (c : Cache) : Prop :=
  forall cached, cachedHawkers c = Some cached ->
                 CACHE_DURATION <= now - cacheTimestamp c.

(** Both requests succeed and the payload holds the array [items] under
    [features]. *)
Definition delivers (w : World) (items : list JsValue) : Prop :=
  exists s1 pollData s2 geojson,
    poll w = Response true s1 (Returned pollData) /\
    defined pollData /\ defined (prop pollData "data") /\
    download w = Response true s2 (Returned geojson) /\
    get geojson "features" = Returned (JArray items).

End Gateway.

(** ** services/distance.ts *)

Module HawkerWithDistance.
(** An entry of the gateway with its distance: [{ ...hawker, distance }]. *)
Record t := {
  name : Js.JsValue;
  address : string;
  postalCode : Js.JsValue;
  latitude : Js.JsValue;
  longitude : Js.JsValue;
  description : Js.JsValue;
  status : Js.JsValue;
  stallCount : Js.JsValue;
  photoUrl : Js.JsValue;
  distance : Js.Num
}.
End HawkerWithDistance.

Module Distance.
Import Js.
Section WithTurf.

(** [calculateDistance(lat1, lon1, lat2, lon2)]: Turf's [point] and
    [distance], times 1000.  [point] throws on a coordinate that is not a
    number, and the distance of two points may be NaN. *)
Variable calculateDistance : JsValue -> JsValue -> JsValue -> JsValue -> completion Num.

(** The object literal [{ ...hawker, distance: d }]. *)
Definition spread_with_distance (hawker : Hawker.t) (d : Num)
  : HawkerWithDistance.t :=
  {| HawkerWithDistance.name := Hawker.name hawker;
     HawkerWithDistance.address := Hawker.address hawker;
     HawkerWithDistance.postalCode := Hawker.postalCode hawker;
     HawkerWithDistance.latitude := Hawker.latitude hawker;
     HawkerWithDistance.longitude := Hawker.longitude hawker;
     HawkerWithDistance.description := Hawker.description hawker;
     HawkerWithDistance.status := Hawker.status hawker;
     HawkerWithDistance.stallCount := Hawker.stallCount hawker;
     HawkerWithDistance.photoUrl := Hawker.photoUrl hawker;
     HawkerWithDistance.distance := d |}.

(** The callback of [map]. *)
Definition with_distance (userLat userLon : JsValue) (hawker : Hawker.t)
  : completion HawkerWithDistance.t :=
  d ← calculateDistance userLat userLon (Hawker.latitude hawker) (Hawker.longitude hawker);
  Returned (spread_with_distance hawker d).

Definition sortByDistance (userLat userLon : JsValue) (hawkers : list Hawker.t)
  : completion (list HawkerWithDistance.t) :=
  ranked ← mapM (with_distance userLat userLon) hawkers;
  Returned
    (sort (fun a b => num_sub (HawkerWithDistance.distance a) (HawkerWithDistance.distance b))
       ranked).

End WithTurf.

(** Reading a ranked candidate back as an entry: every field but the
    distance. *)
Definition source_of (r : HawkerWithDistance.t) : Hawker.t :=
  {| Hawker.name := HawkerWithDistance.name r;
     Hawker.address := HawkerWithDistance.address r;
     Hawker.postalCode := HawkerWithDistance.postalCode r;
     Hawker.latitude := HawkerWithDistance.latitude r;
     Hawker.longitude := HawkerWithDistance.longitude r;
     Hawker.description := HawkerWithDistance.description r;
     Hawker.status := HawkerWithDistance.status r;
     Hawker.stallCount := HawkerWithDistance.stallCount r;
     Hawker.photoUrl := HawkerWithDistance.photoUrl r |}.

Definition by_distance (a b : HawkerWithDistance.t) : Prop :=
  num_le (HawkerWithDistance.distance a) (HawkerWithDistance.distance b) = true.

(** A ranked candidate is its entry with the distance computed for it. *)
Definition computed
    (calculateDistance : JsValue -> JsValue -> JsValue -> JsValue -> completion Num)
    (userLat userLon : JsValue) (r : HawkerWithDistance.t) : Prop :=
  calculateDistance userLat userLon
    (HawkerWithDistance.latitude r) (HawkerWithDistance.longitude r)
  = Returned (HawkerWithDistance.distance r) /\
  r = spread_with_distance (source_of r) (HawkerWithDistance.distance r).

End Distance.

(** ** tools/nearby-hawkers.ts *)

Module NearbyHawkers.
Import Js.

(** The four variables that the tool takes out of its argument. *)
Record Query := {
  latitude : JsValue;
  longitude : JsValue;
  radius : JsValue;
  limit : JsValue
}.

(** A default of a destructuring pattern replaces [undefined] only. *)
Definition or_default (v d : JsValue) : JsValue :=
  match v with
  | JUndefined => d
  | _ => v
  end.

(** [const { latitude, longitude, radius = 2000, limit = 10 } = args] *)
Definition destructure (args : JsValue) : completion Query :=
  latitude ← get args "latitude";
  longitude ← get args "longitude";
  radius ← get args "radius";
  limit ← get args "limit";
  Returned
    {| latitude := latitude; longitude := longitude;
       radius := or_default radius (JNumber 2000);
       limit := or_default limit (JNumber 10) |}.

Section WithTurf.

Variable calculateDistance : JsValue -> JsValue -> JsValue -> JsValue -> completion Num.
Variable ToNumber : JsValue -> completion Num.
Variable ToString : JsValue -> completion string.
(** Number-to-string conversion of a computed number. *)
Variable numToString : Num -> string.

(** [h.distance <= radius], the callback of [filter]. *)
Definition within_radius (radius : JsValue) (h : HawkerWithDistance.t)
  : completion bool :=
  r ← to_number ToNumber radius;
  Returned (num_le (HawkerWithDistance.distance h) r).

(** The candidates the tool keeps: ranked, filtered by radius, truncated. *)
Definition nearby (q : Query) (allHawkers : list Hawker.t)
  : completion (list HawkerWithDistance.t) :=
  ranked ← Distance.sortByDistance calculateDistance (latitude q) (longitude q) allHawkers;
  within ← filterM (within_radius (radius q)) ranked;
  n ← to_number ToNumber (limit q);
  Returned (slice0 within n).

Definition render_entry (i : nat) (h : HawkerWithDistance.t) : completion string :=
  name ← to_string ToString (HawkerWithDistance.name h);
  stalls ← to_string ToString (HawkerWithDistance.stallCount h);
  status ← to_string ToString (HawkerWithDistance.status h);
  Returned
    (numToString (Fin (inject_Z (Z.of_nat i + 1))) +:+ ". " +:+ name +:+ nl +:+
     "   Address: " +:+ HawkerWithDistance.address h +:+ nl +:+
     "   Distance: " +:+ numToString (math_round (HawkerWithDistance.distance h)) +:+
        "m away" +:+ nl +:+
     "   Stalls: " +:+ stalls +:+ " cooked food stalls" +:+ nl +:+
     "   Status: " +:+ status +:+ nl).

Definition none_text (radius : string) : string :=
  "No Hawker centres found within " +:+ radius +:+ "m of your location.".

(** [allHawkers] is what [fetchHawkerCentres] returned.  The first
    conversions are those of the line that is logged. *)
Definition getNearbyHawkersTool (args : JsValue) (allHawkers : list Hawker.t)
  : completion ToolResult :=
  q ← destructure args;
  _ ← to_strings ToString [latitude q; longitude q; radius q];
  found ← nearby q allHawkers;
  if (0 <? length found)%nat
  then
    radius ← to_string ToString (radius q);
    entries ← imapM render_entry found;
    Returned
      (text_result
         ("Found " +:+ numToString (Fin (inject_Z (Z.of_nat (length found)))) +:+
          " Hawker centres within " +:+ radius +:+ "m:" +:+ nl +:+ nl +:+
          join nl entries))
  else
    radius ← to_string ToString (radius q);
    Returned (text_result (none_text radius)).

End WithTurf.
End NearbyHawkers.

(** ** tools/details.ts *)

Module Details.
Import Js.
Section WithStrings.

(** [String.prototype.toLowerCase] *)
Variable toLowerCase : string -> string.
Variable ToString : JsValue -> completion string.

(** [h.name.toLowerCase() === hawkerName.toLowerCase()] *)
Definition exact_match (hawkerName : JsValue) (h : Hawker.t) : completion bool :=
  name ← lower_of toLowerCase (Hawker.name h);
  subject ← lower_of toLowerCase hawkerName;
  Returned (String.eqb name subject).

(** [h.name.toLowerCase().includes(hawkerName.toLowerCase())] *)
Definition partial_match (hawkerName : JsValue) (h : Hawker.t) : completion bool :=
  name ← lower_of toLowerCase (Hawker.name h);
  subject ← lower_of toLowerCase hawkerName;
  Returned (includes name subject).

(** [find(exact) || find(partial)] *)
Definition select (allHawkers : list Hawker.t) (hawkerName : JsValue)
  : completion (option Hawker.t) :=
  exact ← findM (exact_match hawkerName) allHawkers;
  match exact with
  | Some h => Returned (Some h)
  | None => findM (partial_match hawkerName) allHawkers
  end.

Definition not_found_text (hawkerName : string) : string :=
  "Could not find details for " +:+ dquote +:+ hawkerName +:+ dquote +:+
  ". Please check the name and try again.".

Definition details_text (hawker : Hawker.t) : completion string :=
  name ← to_string ToString (Hawker.name hawker);
  postalCode ← to_string ToString (Hawker.postalCode hawker);
  status ← to_string ToString (Hawker.status hawker);
  stallCount ← to_string ToString (Hawker.stallCount hawker);
  latitude ← to_string ToString (Hawker.latitude hawker);
  longitude ← to_string ToString (Hawker.longitude hawker);
  description ←
    (if truthy (Hawker.description hawker)
     then d ← to_string ToString (Hawker.description hawker);
          Returned (nl +:+ "Description: " +:+ d +:+ nl)
     else Returned "");
  photo ←
    (if truthy (Hawker.photoUrl hawker)
     then url ← to_string ToString (Hawker.photoUrl hawker);
          Returned (nl +:+ "![" +:+ name +:+ "](" +:+ url +:+ ")")
     else Returned "");
  Returned
    ("Details for " +:+ name +:+ ":" +:+ nl +:+ nl +:+
     "Address: " +:+ Hawker.address hawker +:+ ", Singapore " +:+ postalCode +:+ nl +:+
     "Status: " +:+ status +:+ nl +:+
     "Number of Stalls: " +:+ stallCount +:+ " cooked food stalls" +:+ nl +:+
     "Coordinates: " +:+ latitude +:+ ", " +:+ longitude +:+ nl +:+
     description +:+ photo).

(** [allHawkers] is what [fetchHawkerCentres] returned.  The conversions
    that only feed the log are kept, since they may throw. *)
Definition getHawkerDetailsTool (args : JsValue) (allHawkers : list Hawker.t)
  : completion ToolResult :=
  hawkerName ← get args "hawkerName";
  _ ← to_string ToString hawkerName;
  selected ← select allHawkers hawkerName;
  match selected with
  | None =>
      subject ← to_string ToString hawkerName;
      Returned (text_result (not_found_text subject))
  | Some hawker =>
      _ ← to_string ToString (Hawker.name hawker);
      text ← details_text hawker;
      Returned (text_result text)
  end.

End WithStrings.
End Details.

(** ** tools/closures.ts *)

Module Closures.
Import Js.
Section WithStrings.

Variable toLowerCase : string -> string.
Variable ToString : JsValue -> completion string.

(** [c.name.toLowerCase().includes(hawkerName.toLowerCase())], the callback
    of [filter]. *)
Definition matches (hawkerName : JsValue) (c : ClosureRecord.t) : completion bool :=
  name ← lower_of toLowerCase (ClosureRecord.name c);
  subject ← lower_of toLowerCase hawkerName;
  Returned (includes name subject).

Definition no_closures_text (hawkerName : string) : string :=
  "No scheduled closures found for " +:+ dquote +:+ hawkerName +:+ dquote +:+
  ". It should be open as per the latest data.".

(** The first characters of each line of the listing, byte for byte as the
    source file holds them. *)
Definition bullet : string :=
  String (Ascii.ascii_of_nat 195) (String (Ascii.ascii_of_nat 162)
  (String (Ascii.ascii_of_nat 226) (String (Ascii.ascii_of_nat 130)
  (String (Ascii.ascii_of_nat 172) (String (Ascii.ascii_of_nat 194)
  (String (Ascii.ascii_of_nat 162) EmptyString)))))).

Definition render_closure (c : ClosureRecord.t) : completion string :=
  quarter ← to_string ToString (ClosureRecord.quarter c);
  closureDates ← to_string ToString (ClosureRecord.closureDates c);
  reason ← to_string ToString (ClosureRecord.reason c);
  Returned
    (bullet +:+ " " +:+ quarter +:+ ": " +:+ closureDates +:+ nl +:+
     "  Reason: " +:+ reason).

Definition listing_text (hawkerName : string) (entries : list string) : string :=
  "Closure information for " +:+ dquote +:+ hawkerName +:+ dquote +:+ ":" +:+
  nl +:+ nl +:+ join (nl +:+ nl) entries.

(** [allClosures] is what [fetchHawkerClosures] returned. *)
Definition getClosuresTool (args : JsValue) (allClosures : list ClosureRecord.t)
  : completion ToolResult :=
  hawkerName ← get args "hawkerName";
  _ ← to_string ToString hawkerName;
  closures ← filterM (matches hawkerName) allClosures;
  subject ← to_string ToString hawkerName;
  if (length closures =? 0)%nat
  then Returned (text_result (no_closures_text subject))
  else
    entries ← mapM render_closure closures;
    Returned (text_result (listing_text subject entries)).

End WithStrings.
End Closures.

(** ** Notions used to state the properties of the lookups *)

Module Lookup.
Import Js.
Section WithStrings.

Variable toLowerCase : string -> string.

(** The value is a string that equals the subject when both are
    lower-cased. *)
Definition same (subject : string) (v : JsValue) : Prop :=
  exists name, v = JString name /\ toLowerCase name = toLowerCase subject.

(** The value is a string whose lower-case form contains the lower-cased
    subject. *)
Definition within (subject : string) (v : JsValue) : Prop :=
  exists name,
    v = JString name /\ contains (toLowerCase name) (toLowerCase subject).

(** The records whose name is such a string, in the order of the feed. *)
Definition matching (subject : string) (allClosures : list ClosureRecord.t)
  : list ClosureRecord.t :=
  List.filter
    (fun c =>
       match ClosureRecord.name c with
       | JString name => includes (toLowerCase name) (toLowerCase subject)
       | _ => false
       end)
    allClosures.

End WithStrings.

Definition is_string (v : JsValue) : Prop := exists s, v = JString s.

End Lookup.

(** ** index.ts *)

Module Server.
Import Js.
Section WithTools.

Variable Args : Type.
Variables getNearbyHawkersTool getClosuresTool getHawkerDetailsTool
  : Args -> completion ToolResult.

Definition known_tools : list string :=
  ["get_nearby_hawkers"; "check_hawker_closures"; "get_hawker_details"].

(** The [switch] inside the [try] block. *)
Definition route (name : string) (args : Args) : completion ToolResult :=
  if String.eqb name "get_nearby_hawkers" then getNearbyHawkersTool args
  else if String.eqb name "check_hawker_closures" then getClosuresTool args
  else if String.eqb name "get_hawker_details" then getHawkerDetailsTool args
  else Threw (McpError MethodNotFound ("Unknown tool: " +:+ name)).

(** The handler of [tools/call], with its [catch] clause. *)
Definition callTool (name : string) (args : Args) : completion ToolResult :=
  match route name args with
  | Returned r => Returned r
  | Threw (McpError code message) => Threw (McpError code message)
  | Threw (Error message) =>
      Threw (McpError InternalError ("Tool execution failed: " +:+ message))
  | Threw (Thrown repr) =>
      Threw (McpError InternalError ("Tool execution failed: " +:+ repr))
  end.

End WithTools.
End Server.

(** ** index.ts, the list of tools *)

Module Registry.

Record Property := {
  type : string;
  description : string;
  default : option Q
}.

Record InputSchema := {
  properties : list (string * Property);
  required : list string
}.

Record Tool := {
  name : string;
  tool_description : string;
  inputSchema : InputSchema
}.

(** The answer of the [tools/list] handler. *)
Definition listTools : list Tool :=
  [ {| name := "get_nearby_hawkers";
       tool_description := "Get Hawker centres near a GPS location, sorted by distance";
       inputSchema :=
         {| properties :=
              [ ("latitude",
                 {| type := "number"; description := "User's latitude coordinate";
                    default := None |});
                ("longitude",
                 {| type := "number"; description := "User's longitude coordinate";
                    default := None |});
                ("radius",
                 {| type := "number";
                    description := "Search radius in meters (default: 2000)";
                    default := Some 2000%Q |});
                ("limit",
                 {| type := "number";
                    description := "Maximum number of results (default: 10)";
                    default := Some 10%Q |}) ];
            required := ["latitude"; "longitude"] |} |};
    {| name := "check_hawker_closures";
       tool_description := "Check if a Hawker centre is closed or has scheduled closures";
       inputSchema :=
         {| properties :=
              [ ("hawkerName",
                 {| type := "string";
                    description := "Name of the Hawker centre to check";
                    default := None |}) ];
            required := ["hawkerName"] |} |};
    {| name := "get_hawker_details";
       tool_description := "Get detailed information about a specific Hawker centre";
       inputSchema :=
         {| properties :=
              [ ("hawkerName",
                 {| type := "string"; description := "Name of the Hawker centre";
                    default := None |}) ];
            required := ["hawkerName"] |} |} ].

End Registry.

(** ** lib/server/mcp/client.ts *)

Module MCPClient.
Import Js.

(** The spawned child, with whether its pipes exist. *)
Record ChildProcess := { pid : nat; stdin : bool; stdout : bool }.

(** A settled promise. *)
Inductive Settled :=
  | Resolved (value : JsValue)
  | Rejected (message : string).

(** The [{ resolve, reject }] pair kept in the map, named by its promise. *)
Record Handle := { promise : Z }.

Record Request := { id : Z; method : string; params : JsValue }.

(** The client object together with what the event loop holds for it:
    the promises handed out (absent while unsettled), the lines written to
    the child, the write callbacks and timers still to run, and the clock
    in milliseconds. *)
Record Client := {
  process : option ChildProcess;
  messageId : Z;
  pendingRequests : gmap Z Handle;
  promises : gmap Z Settled;
  written : list Request;
  writes : list Z;
  timers : list (Z * Z);
  clock : Z
}.

Definition initial : Client :=
  {| process := None; messageId := 0; pendingRequests := ∅; promises := ∅;
     written := []; writes := []; timers := []; clock := 0 |}.

Definition TIMEOUT : Z := 30000.

(** Settling a promise has an effect only the first time. *)
Definition settle (p : Z) (o : Settled) (ps : gmap Z Settled) : gmap Z Settled :=
  match ps !! p with
  | Some _ => ps
  | None => <[p := o]> ps
  end.

(** [reject(new Error(message))] on every handle of a list of map entries. *)
Definition reject_all (message : string) (l : list (Z * Handle))
    (ps : gmap Z Settled) : gmap Z Settled :=
  foldr (fun kh ps => settle (promise (snd kh)) (Rejected message) ps) ps l.

(** The map key a JSON id denotes, if it is an integer. *)
Definition key_of (v : JsValue) : option Z :=
  match v with
  | JNumber q => if Qeq_bool q (inject_Z (Qfloor q)) then Some (Qfloor q) else None
  | _ => None
  end.

Section WithToString.

(** String conversion, as in [new Error(value)]. *)
Variable ToString : JsValue -> string.

(** [start()]; [child] is what [spawn] yields when it is called.  The
    half-second wait at the end is left out. *)
Definition start (child : ChildProcess) (st : Client) : completion unit * Client :=
  match process st with
  | Some _ => (Returned (), st)
  | None =>
      let st' :=
        {| process := Some child; messageId := messageId st;
           pendingRequests := pendingRequests st; promises := promises st;
           written := written st; writes := writes st; timers := timers st;
           clock := clock st |} in
      if negb (stdout child) || negb (stdin child)
      then (Threw (Error "Failed to create stdio streams"), st')
      else (Returned (), st')
  end.

(** [handleMessage(message)].  Reading [message.id] throws when the message
    is [null]; the caller catches that, and nothing has changed by then. *)
Definition handleMessage (message : JsValue) (st : Client) : Client :=
  match get message "id" with
  | Threw _ => st
  | Returned JUndefined => st
  | Returned idv =>
      match k ← key_of idv; h ← pendingRequests st !! k; Some (k, h) with
      | None => st
      | Some (k, pending) =>
          let error := match get message "error" with
                       | Returned v => v | Threw _ => JUndefined end in
          let outcome :=
            if truthy error
            then
              let m := match get error "message" with
                       | Returned v => v | Threw _ => JUndefined end in
              Rejected (ToString (or_else m (JString "MCP error")))
            else
              Resolved (match get message "result" with
                        | Returned v => v | Threw _ => JUndefined end) in
          {| process := process st; messageId := messageId st;
             pendingRequests := delete k (pendingRequests st);
             promises := settle (promise pending) outcome (promises st);
             written := written st; writes := writes st; timers := timers st;
             clock := clock st |}
      end
  end.

(** [sendRequest(method, params)]: it throws, or hands out the promise of
    the new request, named by the request's id. *)
Definition sendRequest (method : string) (params : JsValue) (st : Client)
  : completion Z * Client :=
  match process st with
  | Some child =>
      if stdin child then
        let id := messageId st + 1 in
        (Returned id,
         {| process := process st; messageId := id;
            pendingRequests := <[id := {| promise := id |}]> (pendingRequests st);
            promises := promises st;
            written := {| id := id; method := method; params := params |} :: written st;
            writes := writes st ++ [id];
            timers := timers st ++ [(clock st + TIMEOUT, id)];
            clock := clock st |})
      else (Threw (Error "MCP server not started"), st)
  | None => (Threw (Error "MCP server not started"), st)
  end.

(** The callback of [stdin.write] for request [id]. *)
Definition on_write_done (id : Z) (error : option string) (st : Client) : Client :=
  if bool_decide (id ∈ writes st) then
    let writes' := List.filter (fun k => negb (Z.eqb k id)) (writes st) in
    match error with
    | Some e =>
        {| process := process st; messageId := messageId st;
           pendingRequests := delete id (pendingRequests st);
           promises := settle id (Rejected e) (promises st);
           written := written st; writes := writes'; timers := timers st;
           clock := clock st |}
    | None =>
        {| process := process st; messageId := messageId st;
           pendingRequests := pendingRequests st; promises := promises st;
           written := written st; writes := writes'; timers := timers st;
           clock := clock st |}
    end
  else st.

(** The callback of [setTimeout] for request [id]. *)
Definition on_timeout (st : Client) (id : Z) : Client :=
  match pendingRequests st !! id with
  | Some _ =>
      {| process := process st; messageId := messageId st;
         pendingRequests := delete id (pendingRequests st);
         promises := settle id (Rejected "MCP request timeout") (promises st);
         written := written st; writes := writes st; timers := timers st;
         clock := clock st |}
  | None => st
  end.

(** Time passes: the timers that are due run, oldest first. *)
Definition tick (ms : Z) (st : Client) : Client :=
  let now := clock st + Z.max 0 ms in
  let due := List.filter (fun t => fst t <=? now) (timers st) in
  let rest := List.filter (fun t => negb (fst t <=? now)) (timers st) in
  foldl on_timeout
    {| process := process st; messageId := messageId st;
       pendingRequests := pendingRequests st; promises := promises st;
       written := written st; writes := writes st; timers := rest;
       clock := now |}
    (map snd due).

(** The handler of the child's [exit] event. *)
Definition on_exit (st : Client) : Client :=
  {| process := None; messageId := messageId st;
     pendingRequests := ∅;
     promises :=
       reject_all "MCP server exited" (map_to_list (pendingRequests st)) (promises st);
     written := written st; writes := writes st; timers := timers st;
     clock := clock st |}.

(** [stop()]: the child is killed and forgotten; its exit comes later. *)
Definition stop (st : Client) : Client :=
  match process st with
  | Some _ =>
      {| process := None; messageId := messageId st;
         pendingRequests := pendingRequests st; promises := promises st;
         written := written st; writes := writes st; timers := timers st;
         clock := clock st |}
  | None => st
  end.

(** [callTool(name, args)] *)
Definition callTool (child : ChildProcess) (name : string) (args : JsValue)
    (st : Client) : completion Z * Client :=
  match start child st with
  | (Threw e, st') => (Threw e, st')
  | (Returned _, st') =>
      sendRequest "tools/call"
        (JObject [("name", JString name); ("arguments", args)]) st'
  end.

(** What can happen to the client, one event at a time. *)
Inductive Event :=
  | Start (child : ChildProcess)
  | SendRequest (method : string) (params : JsValue)
  | Message (message : JsValue)
  | WriteDone (id : Z) (error : option string)
  | Tick (ms : Z)
  | Exit
  | Stop.

Definition step (st : Client) (e : Event) : Client :=
  match e with
  | Start child => snd (start child st)
  | SendRequest method params => snd (sendRequest method params st)
  | Message message => handleMessage message st
  | WriteDone id error => on_write_done id error st
  | Tick ms => tick ms st
  | Exit => on_exit st
  | Stop => stop st
  end.

Definition run (events : list Event) (st : Client) : Client :=
  foldl step st events.

End WithToString.

(** A response that answers request [id]. *)
Definition answers (id : Z) (message : JsValue) : Prop :=
  exists idv, get message "id" = Returned idv /\ key_of idv = Some id.

(** Events under which request [id] stays outstanding until its timer:
    no response for it, no exit of the child, no failed write of it. *)
Definition undisturbed (id : Z) (e : Event) : Prop :=
  match e with
  | Message message => ~ answers id message
  | Exit => False
  | WriteDone k (Some _) => k <> id
  | _ => True
  end.

(** Events among which no response answers request [id]. *)
Definition unanswered (id : Z) (e : Event) : Prop :=
  match e with
  | Message message => ~ answers id message
  | _ => True
  end.

(** What holds of the client in every state a run can reach. *)
Record wf (st : Client) : Prop := {
  wf_handle : forall k h, pendingRequests st !! k = Some h -> promise h = k;
  wf_unsettled : forall k h, pendingRequests st !! k = Some h -> promises st !! k = None;
  wf_pending : forall k h, pendingRequests st !! k = Some h -> k <= messageId st;
  wf_promises : forall k o, promises st !! k = Some o -> k <= messageId st;
  wf_writes : forall k, k ∈ writes st -> k <= messageId st
}.

(** Request [id] is outstanding and unsettled. *)
Definition waiting (id : Z) (st : Client) : Prop :=
  pendingRequests st !! id = Some {| promise := id |} /\
  promises st !! id = None.

(** Request [id] has been rejected by its timer and has left the map. *)
Definition timed_out (id : Z) (st : Client) : Prop :=
  promises st !! id = Some (Rejected "MCP request timeout") /\
  pendingRequests st !! id = None.

(** Between the sending of request [id] and its deadline. *)
Definition in_flight (id deadline : Z) (st : Client) : Prop :=
  id <= messageId st /\
  ((clock st < deadline /\ (deadline, id) ∈ timers st /\ waiting id st) \/
   timed_out id st).

End MCPClient.

(** ** lib/server/mcp/client.ts, reading the child's output *)

Module StdoutReader.
Import Js.

(** [s.split('\n')] *)
Fixpoint split_lines (s : string) : list string :=
  match s with
  | EmptyString => [EmptyString]
  | String c s' =>
      if Ascii.eqb c (Ascii.ascii_of_nat 10) then EmptyString :: split_lines s'
      else match split_lines s' with
           | first :: rest => String c first :: rest
           | [] => [String c EmptyString]
           end
  end.

Section WithParser.

(** [Buffer.prototype.toString]: the text that the bytes of one chunk
    decode to, each chunk on its own. *)
Variable decode : list Byte.byte -> string.
(** [JSON.parse], with [None] when it throws. *)
Variable parse : string -> option JsValue.
(** [String.prototype.trim] *)
Variable trim : string -> string.
Variable ToString : JsValue -> string.

(** The body of the loop over the complete lines. *)
Definition handle_line (st : MCPClient.Client) (line : string) : MCPClient.Client :=
  if String.eqb (trim line) "" then st
  else match parse line with
       | Some message => MCPClient.handleMessage ToString message st
       | None => st
       end.

(** The listener of the child's [stdout]: the text received so far is cut
    at line feeds, the part after the last one is kept for the next chunk. *)
Definition on_data (data : list Byte.byte) (s : string * MCPClient.Client)
  : string * MCPClient.Client :=
  let buffer := fst s +:+ decode data in
  let lines := split_lines buffer in
  (List.last lines "", foldl handle_line (snd s) (removelast lines)).

End WithParser.
End StdoutReader.

(** ** lib/server/mcp/client.ts, the helpers of the three tools *)

Module ClientHelpers.
Import Js DataGovSg.

(** A tool result as the object that travels in the response. *)
Definition result_json (r : ToolResult) : JsValue :=
  JObject
    [ ("content",
       JArray
         (map (fun b =>
                 JObject [("type", JString (type b)); ("text", JString (text b))])
              (content r))) ].

(** [response.content[0].text] *)
Definition first_text (response : JsValue) : completion JsValue :=
  content ← get response "content";
  block ← index content 0;
  get block "text".

(** What a helper returns once the promise of its call has settled. *)
Definition helper_result (o : MCPClient.Settled) : completion JsValue :=
  match o with
  | MCPClient.Resolved response => first_text response
  | MCPClient.Rejected message => Threw (Error message)
  end.

End ClientHelpers.

(** ** Notions used to state the properties of the client *)

Module ClientSpec.
Import Js MCPClient.

Section WithToString.
Variable ToString : JsValue -> string.

(** How a response settles the promise it answers. *)
Definition outcome (message : JsValue) : Settled :=
  let error := Gateway.prop message "error" in
  if truthy error
  then Rejected (ToString (or_else (Gateway.prop error "message") (JString "MCP error")))
  else Resolved (Gateway.prop message "result").

End WithToString.

(** The entry of the pending map that a message addresses, if any. *)
Definition target (message : JsValue) (st : Client) : option (Z * Handle) :=
  match get message "id" with
  | Returned idv => k ← key_of idv; h ← pendingRequests st !! k; Some (k, h)
  | Threw _ => None
  end.

(** Every outstanding request has a timer that is still to run and is due
    within the timeout. *)
Definition timed (st : Client) : Prop :=
  forall k h, pendingRequests st !! k = Some h ->
    exists deadline,
      (deadline, k) ∈ timers st /\
      clock st < deadline /\ deadline <= clock st + TIMEOUT.

(** The ids [n, n-1, ..., 1]. *)
Definition ids_down_from (n : Z) : list Z := rev (seqZ 1 n).

End ClientSpec.

(** ** Data used in the examples *)

Module Examples.

(** A stand-in for the great-circle distance: metres along the grid, and,
    like Turf, nothing for a coordinate that is not a number. *)
Definition grid (a b c d : Q) : Q := 111000 * (Qabs (a - c) + Qabs (b - d)).

Definition grid_distance (lat1 lon1 lat2 lon2 : Js.JsValue) : Js.completion Js.Num :=
  match lat1, lon1, lat2, lon2 with
  | Js.JNumber a, Js.JNumber b, Js.JNumber c, Js.JNumber d =>
      Js.Returned (Js.Fin (grid a b c d))
  | _, _, _, _ => Js.Threw (Js.Error "coordinates must contain numbers")
  end.

(** A distance that is NaN for the points on the equator, as the
    great-circle formula is for some pairs of points. *)
Definition patchy_distance (lat1 lon1 lat2 lon2 : Js.JsValue) : Js.completion Js.Num :=
  match lat2 with
  | Js.JNumber c => if Qeq_bool c 0 then Js.Returned Js.NaN
                    else grid_distance lat1 lon1 lat2 lon2
  | _ => grid_distance lat1 lon1 lat2 lon2
  end.

Definition place (name : string) (lat lon : Q) : Hawker.t :=
  {| Hawker.name := Js.JString name;
     Hawker.address := "1 Example Road";
     Hawker.postalCode := Js.JString "000001";
     Hawker.latitude := Js.JNumber lat;
     Hawker.longitude := Js.JNumber lon;
     Hawker.description := Js.JString "";
     Hawker.status := Js.JString "Operational";
     Hawker.stallCount := Js.JNumber 40;
     Hawker.photoUrl := Js.JString "" |}.

Definition place_a : Hawker.t := place "Place A" (12834 # 10000) (1038607 # 10000).
Definition place_b : Hawker.t := place "Place B" (12803 # 10000) (1038504 # 10000).
Definition place_c : Hawker.t := place "Place C" (13000 # 10000) (1038000 # 10000).

Definition places : list Hawker.t := [place_b; place_a; place_c].

(** A far place, a place on the equator and a near place, in this order. *)
Definition far_equator_near : list Hawker.t :=
  [place_c; place "Equator" 0 (1038000 # 10000); place_b].

(** The three places as candidates of a search at Place A. *)
Definition from_a (h : Hawker.t) (lat lon : Q) : HawkerWithDistance.t :=
  Distance.spread_with_distance h
    (Js.Fin (grid (12834 # 10000) (1038607 # 10000) lat lon)).

Definition ranked_a : HawkerWithDistance.t :=
  from_a place_a (12834 # 10000) (1038607 # 10000).
Definition ranked_b : HawkerWithDistance.t :=
  from_a place_b (12803 # 10000) (1038504 # 10000).
Definition ranked_c : HawkerWithDistance.t :=
  from_a place_c (13000 # 10000) (1038000 # 10000).

(** Two places at the same distance from Place A, with a farther one
    between them. *)
Definition east : Hawker.t := place "East" (12834 # 10000) (1038707 # 10000).
Definition west : Hawker.t := place "West" (12834 # 10000) (1038507 # 10000).
Definition twins : list Hawker.t := [east; place_c; west].

(** The arguments of a nearby search at Place A. *)
Definition here (more : list (string * Js.JsValue)) : Js.JsValue :=
  Js.JObject
    ([ ("latitude", Js.JNumber (12834 # 10000));
       ("longitude", Js.JNumber (1038607 # 10000)) ] ++ more).

Definition query (radius limit : Q) : NearbyHawkers.Query :=
  {| NearbyHawkers.latitude := Js.JNumber (12834 # 10000);
     NearbyHawkers.longitude := Js.JNumber (1038607 # 10000);
     NearbyHawkers.radius := Js.JNumber radius;
     NearbyHawkers.limit := Js.JNumber limit |}.

Definition named (hawkerName : string) : Js.JsValue :=
  Js.JObject [("hawkerName", Js.JString hawkerName)].

Definition show_number (q : Q) : string := pretty (Qfloor q).

(** Stand-ins for the conversions of the language. *)
Definition show_num (n : Js.Num) : string :=
  match n with
  | Js.NaN => "NaN"
  | Js.NegInf => "-Infinity"
  | Js.Fin q => show_number q
  | Js.PosInf => "Infinity"
  end.

Definition to_string (v : Js.JsValue) : string :=
  match v with
  | Js.JUndefined => "undefined"
  | Js.JNull => "null"
  | Js.JBool true => "true"
  | Js.JBool false => "false"
  | Js.JNumber q => show_number q
  | Js.JString s => s
  | Js.JArray _ => ""
  | Js.JObject _ => "[object Object]"
  end.

Definition convert (v : Js.JsValue) : Js.completion string :=
  Js.Returned (to_string v).

Definition to_number (v : Js.JsValue) : Js.completion Js.Num :=
  match v with
  | Js.JNumber q => Js.Returned (Js.Fin q)
  | Js.JNull | Js.JBool false => Js.Returned (Js.Fin 0)
  | Js.JBool true => Js.Returned (Js.Fin 1)
  | _ => Js.Returned Js.NaN
  end.

Definition closure_entry : ClosureRecord.t :=
  {| ClosureRecord.name := Js.JString "Place B";
     ClosureRecord.quarter := Js.JString "Q1";
     ClosureRecord.closureDates := Js.JString "1 Jan to 3 Jan";
     ClosureRecord.reason := Js.JString "Scheduled closure" |}.

Definition closures : list ClosureRecord.t := [closure_entry].

(** The three tools over fixed data, as handlers of the server. *)
Definition nearby_handler (args : Js.JsValue) : Js.completion ToolResult :=
  NearbyHawkers.getNearbyHawkersTool grid_distance to_number convert show_num args places.

Definition closures_handler (args : Js.JsValue) : Js.completion ToolResult :=
  Closures.getClosuresTool Js.ascii_lower convert args closures.

Definition details_handler (args : Js.JsValue) : Js.completion ToolResult :=
  Details.getHawkerDetailsTool Js.ascii_lower convert args places.

Definition callTool : string -> Js.JsValue -> Js.completion ToolResult :=
  Server.callTool Js.JsValue nearby_handler closures_handler details_handler.

(** A feature that names and places a centre and says nothing else. *)
Definition bare_feature : Js.JsValue :=
  Js.JObject
    [ ("type", Js.JString "Feature");
      ("properties",
        Js.JObject
          [ ("NAME", Js.JString "Place A");
            ("ADDRESSBLOCKHOUSENUMBER", Js.JString "1");
            ("ADDRESSSTREETNAME", Js.JString "Example Road") ]);
      ("geometry",
        Js.JObject
          [ ("type", Js.JString "Point");
            ("coordinates",
              Js.JArray [Js.JNumber (1038607 # 10000); Js.JNumber (12834 # 10000)]) ]) ].

Definition bare_entry : Hawker.t :=
  {| Hawker.name := Js.JString "Place A";
     Hawker.address := "1 Example Road";
     Hawker.postalCode := Js.JString "";
     Hawker.latitude := Js.JNumber (12834 # 10000);
     Hawker.longitude := Js.JNumber (1038607 # 10000);
     Hawker.description := Js.JString "";
     Hawker.status := Js.JString "Unknown";
     Hawker.stallCount := Js.JNumber 0;
     Hawker.photoUrl := Js.JString "" |}.

(** A feature without a name, and a closures record whose name is a
    number, with what the gateway makes of them. *)
Definition nameless_feature : Js.JsValue :=
  Js.JObject
    [ ("properties", Js.JObject [("STATUS", Js.JString "Operational")]);
      ("geometry",
        Js.JObject
          [("coordinates",
            Js.JArray [Js.JNumber (1038607 # 10000); Js.JNumber (12834 # 10000)])]) ].

Definition nameless_entry : Hawker.t :=
  {| Hawker.name := Js.JUndefined;
     Hawker.address := "undefined undefined";
     Hawker.postalCode := Js.JString "";
     Hawker.latitude := Js.JNumber (12834 # 10000);
     Hawker.longitude := Js.JNumber (1038607 # 10000);
     Hawker.description := Js.JString "";
     Hawker.status := Js.JString "Operational";
     Hawker.stallCount := Js.JNumber 0;
     Hawker.photoUrl := Js.JString "" |}.

Definition numbered_record : Js.JsValue :=
  Js.JObject [("name", Js.JNumber 5); ("quarter", Js.JString "Q2")].

Definition numbered_entry : ClosureRecord.t :=
  {| ClosureRecord.name := Js.JNumber 5;
     ClosureRecord.quarter := Js.JString "Q2";
     ClosureRecord.closureDates := Js.JString "";
     ClosureRecord.reason := Js.JString "Scheduled closure" |}.

(** A day on which both fetches succeed, and a later one, past the
    freshness window, on which the first fetch is refused. *)
Definition good_day : DataGovSg.World :=
  {| DataGovSg.now_check := 1000;
     DataGovSg.poll :=
       DataGovSg.Response true "OK"
         (Js.Returned
            (Js.JObject
               [("data", Js.JObject [("url", Js.JString "https://example.org/feed")])]));
     DataGovSg.download :=
       DataGovSg.Response true "OK"
         (Js.Returned (Js.JObject [("features", Js.JArray [bare_feature])]));
     DataGovSg.now_stamp := 1200 |}.

Definition bad_day : DataGovSg.World :=
  {| DataGovSg.now_check := 1200 + 2 * DataGovSg.CACHE_DURATION;
     DataGovSg.poll :=
       DataGovSg.Response false "Service Unavailable" (Js.Returned Js.JNull);
     DataGovSg.download := DataGovSg.Rejects (Js.Error "fetch failed");
     DataGovSg.now_stamp := 1300 + 2 * DataGovSg.CACHE_DURATION |}.

Definition filled_cache : DataGovSg.Cache :=
  snd (DataGovSg.fetchHawkerCentres convert good_day DataGovSg.initial).

Definition child : MCPClient.ChildProcess :=
  {| MCPClient.pid := 4242; MCPClient.stdin := true; MCPClient.stdout := true |}.

Definition list_tools : MCPClient.Event :=
  MCPClient.SendRequest "tools/list" (Js.JObject []).

Definition response (id : Z) (text : string) : Js.JsValue :=
  Js.JObject
    [ ("jsonrpc", Js.JString "2.0");
      ("id", Js.JNumber (inject_Z id));
      ("result", Js.JString text) ].

(** A payload in which the second feature is [null], a call within the
    day after [good_day], and the closures feed on a good and a bad hour. *)
Definition broken_day : DataGovSg.World :=
  {| DataGovSg.now_check := 1200 + 2 * DataGovSg.CACHE_DURATION;
     DataGovSg.poll := DataGovSg.poll good_day;
     DataGovSg.download :=
       DataGovSg.Response true "OK"
         (Js.Returned (Js.JObject [("features", Js.JArray [bare_feature; Js.JNull])]));
     DataGovSg.now_stamp := 1300 + 2 * DataGovSg.CACHE_DURATION |}.

Definition same_day : DataGovSg.World :=
  {| DataGovSg.now_check := 1200 + DataGovSg.CACHE_DURATION - 1;
     DataGovSg.poll := DataGovSg.Rejects (Js.Error "fetch failed");
     DataGovSg.download := DataGovSg.Rejects (Js.Error "fetch failed");
     DataGovSg.now_stamp := 1200 + DataGovSg.CACHE_DURATION |}.

Definition closure_record : Js.JsValue :=
  Js.JObject
    [ ("name", Js.JString "Place B");
      ("quarter", Js.JString "Q1");
      ("closure_dates", Js.JString "1 Jan to 3 Jan") ].

Definition good_hour : DataGovSgClosures.World :=
  {| DataGovSgClosures.now_check := 1000;
     DataGovSgClosures.response :=
       DataGovSg.Response true "OK"
         (Js.Returned
            (Js.JObject
               [("result", Js.JObject [("records", Js.JArray [closure_record])])]));
     DataGovSgClosures.now_stamp := 1200 |}.

Definition bad_hour (now : Z) : DataGovSgClosures.World :=
  {| DataGovSgClosures.now_check := now;
     DataGovSgClosures.response :=
       DataGovSg.Response false "Too Many Requests" (Js.Returned Js.JNull);
     DataGovSgClosures.now_stamp := now + 100 |}.

Definition filled_closures : DataGovSgClosures.Cache :=
  snd (DataGovSgClosures.fetchHawkerClosures good_hour DataGovSgClosures.initial).

(** A child without a pipe for its input, and a stand-in for [JSON.parse]
    that knows one line. *)
Definition deaf_child : MCPClient.ChildProcess :=
  {| MCPClient.pid := 4243; MCPClient.stdin := false; MCPClient.stdout := true |}.

Definition parse_line (line : string) : option Js.JsValue :=
  if String.eqb line "{id:1}" then Some (response 1 "tools") else None.

Definition no_trim (line : string) : string := line.

Definition two_requests : list MCPClient.Event :=
  [ MCPClient.Start child; list_tools; list_tools ].

(** A stand-in for the decoding of a chunk: one character per byte. *)
Definition one_per_byte (data : list Byte.byte) : string :=
  String.string_of_list_byte data.

Definition bytes (s : string) : list Byte.byte := String.list_byte_of_string s.

End Examples.

(** * Properties *)

(** ** Numbers, sorting, filtering and slicing *)

Section NumFacts.
Import Js.

Lemma num_le_not_nan (a b : Num) : num_le a b = true -> a <> NaN /\ b <> NaN.
Proof. by destruct a, b. Qed.

Lemma num_le_trans (a b c : Num) :
  num_le a b = true -> num_le b c = true -> num_le a c = true.
Proof.
  destruct a as [| |x|], b as [| |y|], c as [| |z|]; simpl; try done.
  rewrite !Qle_bool_iff. apply Qle_trans.
Qed.

Lemma num_le_total (a b : Num) :
  a <> NaN -> b <> NaN -> num_le a b = false -> num_le b a = true.
Proof.
  destruct a as [| |x|], b as [| |y|]; simpl; try done.
  intros _ _ H. apply Qle_bool_iff.
  destruct (Qlt_le_dec y x) as [Hlt|Hle]; [lra|].
  apply Qle_bool_iff in Hle. congruence.
Qed.

Lemma num_le_refl (a : Num) : a <> NaN -> num_le a a = true.
Proof. destruct a; simpl; try done. intros _. apply Qle_bool_iff. lra. Qed.

Lemma keeps_order_le (a b : Num) :
  a <> NaN -> b <> NaN -> keeps_order (num_sub a b) = num_le a b.
Proof.
  destruct a as [| |x|], b as [| |y|]; simpl; try done.
  intros _ _.
  destruct (Qle_bool (x - y) 0) eqn:E1, (Qle_bool x y) eqn:E2; try done.
  - apply Qle_bool_iff in E1.
    assert (Qle_bool x y = true) as H by (apply Qle_bool_iff; lra). congruence.
  - apply Qle_bool_iff in E2.
    assert (Qle_bool (x - y) 0 = true) as H by (apply Qle_bool_iff; lra). congruence.
Qed.

End NumFacts.

Section SortFacts.
Import Js.

Context {A : Type} (key : A -> Num).

Let cmp (a b : A) : Num := num_sub (key a) (key b).
Let le (a b : A) : Prop := num_le (key a) (key b) = true.
Let real (a : A) : Prop := key a <> NaN.

Lemma insert_sorted_perm (x : A) (l : list A) :
  Permutation (insert_sorted cmp x l) (x :: l).
Proof.
  induction l as [|y l IH]; simpl; [reflexivity|].
  destruct (keeps_order (cmp x y)); [reflexivity|].
  rewrite IH. apply perm_swap.
Qed.

Lemma sort_perm (l : list A) : Permutation (sort cmp l) l.
Proof.
  induction l as [|x l IH]; simpl; [reflexivity|].
  rewrite insert_sorted_perm. by constructor.
Qed.

Lemma insert_sorted_sorted (x : A) (l : list A) :
  real x -> Forall real l ->
  StronglySorted le l -> StronglySorted le (insert_sorted cmp x l).
Proof.
  intros Hx Hl Hs. induction Hs as [|y l Hs IH Hall]; simpl.
  - constructor; constructor.
  - apply Forall_cons in Hl as [Hy Hl].
    unfold cmp at 1. rewrite keeps_order_le by done.
    destruct (num_le (key x) (key y)) eqn:E.
    + constructor.
      * by constructor.
      * constructor; [exact E|].
        eapply Forall_impl; [exact Hall|].
        intros z Hz. by eapply num_le_trans.
    + apply num_le_total in E; [|done|done]. constructor; [by apply IH|].
      eapply Permutation_Forall; [symmetry; apply insert_sorted_perm|].
      by constructor.
Qed.

(** Without a NaN among the keys the result is in non-decreasing order. *)
Lemma sort_sorted (l : list A) :
  Forall real l -> StronglySorted le (sort cmp l).
Proof.
  induction 1 as [|x l Hx Hl IH]; simpl; [constructor|].
  apply insert_sorted_sorted; [done| |done].
  eapply Permutation_Forall; [symmetry; apply sort_perm|done].
Qed.

(** Two keys are the same number. *)
Let same (k : Num) (a : A) : bool := num_le (key a) k && num_le k (key a).

Lemma insert_sorted_stable (k : Num) (x : A) (l : list A) :
  real x -> Forall real l ->
  List.filter (same k) (insert_sorted cmp x l) = List.filter (same k) (x :: l).
Proof.
  intros Hx Hl. induction Hl as [|y l Hy Hl IH]; [done|]. cbn [insert_sorted].
  unfold cmp at 1. rewrite keeps_order_le by done.
  destruct (num_le (key x) (key y)) eqn:E; [done|].
  cbn [List.filter] in *. rewrite IH.
  destruct (same k x) eqn:Ex; [|done].
  destruct (same k y) eqn:Ey; [|done].
  unfold same in Ex, Ey.
  apply andb_true_iff in Ex as [Ex1 Ex2]. apply andb_true_iff in Ey as [Ey1 Ey2].
  pose proof (num_le_trans _ _ _ Ex1 Ey2). congruence.
Qed.

(** Without a NaN among the keys the sort is stable: the elements of one
    key keep the order of the input. *)
Lemma sort_stable (k : Num) (l : list A) :
  Forall real l ->
  List.filter (same k) (sort cmp l) = List.filter (same k) l.
Proof.
  induction 1 as [|x l Hx Hl IH]; [done|]. cbn [sort].
  rewrite insert_sorted_stable; [|done|].
  - cbn [List.filter]. by rewrite IH.
  - eapply Permutation_Forall; [symmetry; apply sort_perm|done].
Qed.

Lemma filter_sorted (p : A -> bool) (l : list A) :
  StronglySorted le l -> StronglySorted le (List.filter p l).
Proof.
  induction 1 as [|y l Hs IH Hall]; simpl; [constructor|].
  destruct (p y); [|exact IH].
  constructor; [exact IH|].
  apply List.Forall_forall. intros z Hz.
  apply List.filter_In in Hz as [Hz _].
  eapply List.Forall_forall in Hall; eauto.
Qed.

Lemma take_sorted (n : nat) (l : list A) :
  StronglySorted le l -> StronglySorted le (take n l).
Proof.
  intros H. revert n.
  induction H as [|y l Hs IH Hall]; intros [|n]; simpl; try constructor.
  - apply IH.
  - by apply Forall_take.
Qed.

Lemma sorted_app_le (l1 l2 : list A) (x y : A) :
  StronglySorted le (l1 ++ l2) -> In x l1 -> In y l2 -> le x y.
Proof.
  induction l1 as [|z l1 IH]; simpl; [done|].
  intros Hs [->|Hx] Hy.
  - apply StronglySorted_inv in Hs as [_ Hall].
    eapply List.Forall_forall in Hall; [exact Hall|].
    apply in_or_app. by right.
  - apply StronglySorted_inv in Hs as [Hs _]. by apply IH.
Qed.

End SortFacts.

Section SliceFacts.
Import Js.

Context {A : Type}.

Lemma slice0_take (l : list A) (end_ : Num) :
  exists n, slice0 l end_ = take n l.
Proof. unfold slice0. eauto. Qed.

Lemma truncate_le (q : Q) : (0 <= q)%Q -> (inject_Z (truncate q) <= q)%Q.
Proof.
  destruct q as [n d]. unfold truncate, Qle; simpl. intros H.
  rewrite Z.mul_1_r in *.
  rewrite Z.mul_comm. apply Z.mul_quot_le; lia.
Qed.

Lemma truncate_nonneg (q : Q) : (0 <= q)%Q -> 0 <= truncate q.
Proof.
  destruct q as [n d]. unfold truncate, Qle; simpl. intros H.
  apply Z.quot_pos; lia.
Qed.

Lemma truncate_ge (n : Z) (q : Q) :
  0 <= n -> (inject_Z n <= q)%Q -> n <= truncate q.
Proof.
  destruct q as [a d]. unfold truncate, Qle; simpl. intros Hn H.
  apply Z.quot_le_lower_bound; lia.
Qed.

Lemma slice0_length (l : list A) (end_ : Num) :
  num_le (Fin 0) end_ = true -> num_le (count (slice0 l end_)) end_ = true.
Proof.
  unfold count. destruct end_ as [| |q|]; simpl; try done.
  intros H. apply Qle_bool_iff in H. apply Qle_bool_iff.
  eapply Qle_trans; [|by apply truncate_le].
  pose proof (truncate_nonneg _ H) as Hn.
  unfold slice0. simpl. rewrite length_take.
  destruct (Z.ltb_spec (truncate q) 0); [lia|].
  rewrite <- Zle_Qle. lia.
Qed.

Lemma slice0_all (l : list A) (end_ : Num) :
  num_le (count l) end_ = true -> slice0 l end_ = l.
Proof.
  unfold count, slice0. destruct end_ as [| |q|]; simpl; try done.
  - intros H. apply Qle_bool_iff in H. apply truncate_ge in H; [|lia].
    destruct (Z.ltb_spec (truncate q) 0); [lia|].
    apply take_ge. lia.
  - intros _. apply take_ge. lia.
Qed.

End SliceFacts.

(** ** Calls that may throw *)

Section Completions.
Import Js.

Lemma bind_returned {A B} (c : completion A) (k : A -> completion B) (b : B) :
  (c ≫= k) = Returned b -> exists a, c = Returned a /\ k a = Returned b.
Proof. destruct c as [a|e]; [eauto|done]. Qed.

Lemma mapM_returned {A B} (f : A -> completion B) (l : list A) (l' : list B) :
  mapM f l = Returned l' -> Forall2 (fun x y => f x = Returned y) l l'.
Proof.
  revert l'. induction l as [|x l IH]; intros l'; simpl.
  - intros [= <-]. constructor.
  - destruct (f x) as [y|e] eqn:Hx; simpl; [|done].
    destruct (mapM f l) as [ys|e] eqn:Hl; simpl; [|done].
    intros [= <-]. constructor; [done|]. by apply IH.
Qed.

Lemma mapM_all {A B} (f : A -> completion B) (l : list A) :
  Forall (fun x => exists y, f x = Returned y) l ->
  exists l', mapM f l = Returned l'.
Proof.
  induction 1 as [|x l [y Hy] Hl [l' IH]]; simpl; [eauto|].
  rewrite Hy, IH. simpl. eauto.
Qed.

Lemma mapM_threw {A B} (f : A -> completion B) (l : list A) (x : A) (e : JsError) :
  In x l -> f x = Threw e -> exists e', mapM f l = Threw e'.
Proof.
  induction l as [|y l IH]; simpl; [done|].
  intros [->|Hin] Hx.
  - rewrite Hx. simpl. eauto.
  - destruct (f y); simpl; [|eauto].
    destruct (IH Hin Hx) as [e' ->]. simpl. eauto.
Qed.

Lemma mapM_pure {A B} (f : A -> completion B) (g : A -> B) (l : list A) :
  Forall (fun x => f x = Returned (g x)) l -> mapM f l = Returned (map g l).
Proof.
  induction 1 as [|x l Hx Hl IH]; simpl; [done|]. by rewrite Hx, IH.
Qed.

(** A callback that returns on every element filters like its values. *)
Lemma filterM_pure {A} (p : A -> completion bool) (g : A -> bool) (l : list A) :
  Forall (fun x => p x = Returned (g x)) l ->
  filterM p l = Returned (List.filter g l).
Proof.
  induction 1 as [|x l Hx Hl IH]; simpl; [done|].
  rewrite Hx, IH. simpl. by destruct (g x).
Qed.

Lemma filterM_returned {A} (p : A -> completion bool) (l l' : list A) :
  filterM p l = Returned l' ->
  Forall (fun x => exists b, p x = Returned b) l /\
  l' = List.filter (fun y => match p y with Returned c => c | Threw _ => false end) l.
Proof.
  revert l'. induction l as [|x l IH]; intros l'; simpl.
  - by intros [= <-].
  - intros H. apply bind_returned in H as (b & Hb & H).
    apply bind_returned in H as (r & Hr & H). injection H as <-.
    destruct (IH r Hr) as (Hall & ->).
    split; [constructor; eauto|]. by rewrite Hb.
Qed.

Lemma find_some {A} (p : A -> completion bool) (l : list A) (x : A) :
  findM p l = Returned (Some x) ->
  exists before after,
    l = before ++ x :: after /\ p x = Returned true /\
    Forall (fun y => p y = Returned false) before.
Proof.
  induction l as [|y l IH]; simpl; [done|].
  intros H. apply bind_returned in H as (b & Hb & H). destruct b.
  - injection H as <-. by exists [], l.
  - destruct (IH H) as (before & after & -> & Hx & Hbefore).
    exists (y :: before), after. by repeat split; [|constructor].
Qed.

Lemma find_none {A} (p : A -> completion bool) (l : list A) :
  findM p l = Returned None -> Forall (fun y => p y = Returned false) l.
Proof.
  induction l as [|y l IH]; simpl; [constructor|].
  intros H. apply bind_returned in H as (b & Hb & H). destruct b; [done|].
  constructor; auto.
Qed.

Lemma find_first {A} (p : A -> completion bool) (before after : list A) (x : A) :
  Forall (fun y => p y = Returned false) before -> p x = Returned true ->
  findM p (before ++ x :: after) = Returned (Some x).
Proof.
  induction 1 as [|y l Hy Hl IH]; simpl; intros Hx; [by rewrite Hx|].
  rewrite Hy. simpl. by apply IH.
Qed.

Lemma find_nowhere {A} (p : A -> completion bool) (l : list A) :
  Forall (fun y => p y = Returned false) l -> findM p l = Returned None.
Proof. induction 1 as [|y l Hy Hl IH]; simpl; [done|]. by rewrite Hy. Qed.

End Completions.

(** ** Ranking by distance *)

Section Ranking.
Import Js.

Variable calculateDistance : JsValue -> JsValue -> JsValue -> JsValue -> completion Num.
Variable ToNumber : JsValue -> completion Num.

Lemma source_of_spread (hawker : Hawker.t) (d : Num) :
  Distance.source_of (Distance.spread_with_distance hawker d) = hawker.
Proof. by destruct hawker. Qed.

Lemma with_distance_returned userLat userLon hawker r :
  Distance.with_distance calculateDistance userLat userLon hawker = Returned r ->
  Distance.source_of r = hawker /\ Distance.computed calculateDistance userLat userLon r.
Proof.
  unfold Distance.with_distance. intros H.
  apply bind_returned in H as (d & Hd & H). injection H as <-.
  rewrite source_of_spread. split; [done|]. split; [done|].
  by rewrite source_of_spread.
Qed.

Lemma sortByDistance_returned userLat userLon hawkers ranked :
  Distance.sortByDistance calculateDistance userLat userLon hawkers = Returned ranked ->
  exists unsorted,
    mapM (Distance.with_distance calculateDistance userLat userLon) hawkers
    = Returned unsorted /\
    map Distance.source_of unsorted = hawkers /\
    Forall (Distance.computed calculateDistance userLat userLon) unsorted /\
    ranked = sort (fun a b => num_sub (HawkerWithDistance.distance a)
                                (HawkerWithDistance.distance b)) unsorted.
Proof.
  unfold Distance.sortByDistance. intros H.
  apply bind_returned in H as (unsorted & Hm & H). injection H as <-.
  exists unsorted. split; [done|].
  apply mapM_returned in Hm.
  split; [|split; [|done]].
  - induction Hm as [|h r hs rs Hr Hrs IH]; simpl; [done|].
    apply with_distance_returned in Hr as [-> _]. by rewrite IH.
  - induction Hm as [|h r hs rs Hr Hrs IH]; constructor; [|done].
    by apply with_distance_returned in Hr as [_ Hr].
Qed.

Lemma sortByDistance_perm userLat userLon hawkers ranked :
  Distance.sortByDistance calculateDistance userLat userLon hawkers = Returned ranked ->
  Permutation (map Distance.source_of ranked) hawkers /\
  Forall (Distance.computed calculateDistance userLat userLon) ranked.
Proof.
  intros H. apply sortByDistance_returned in H as (unsorted & _ & Hsrc & Hall & ->).
  pose proof (sort_perm HawkerWithDistance.distance unsorted) as Hperm.
  split.
  - rewrite <- Hsrc. by apply Permutation_map.
  - eapply Permutation_Forall; [symmetry; exact Hperm|done].
Qed.

Lemma sortByDistance_returns_iff userLat userLon hawkers :
  (exists ranked,
      Distance.sortByDistance calculateDistance userLat userLon hawkers = Returned ranked)
  <->
  Forall
    (fun h => exists d,
       calculateDistance userLat userLon (Hawker.latitude h) (Hawker.longitude h)
       = Returned d)
    hawkers.
Proof.
  split.
  - intros [ranked H]. apply sortByDistance_returned in H as (unsorted & Hm & _).
    apply mapM_returned in Hm.
    induction Hm as [|h r hs rs Hr Hrs IH]; constructor; [|done].
    unfold Distance.with_distance in Hr.
    apply bind_returned in Hr as (d & Hd & _). eauto.
  - intros Hall. unfold Distance.sortByDistance.
    destruct (mapM_all (Distance.with_distance calculateDistance userLat userLon) hawkers)
      as [unsorted ->]; [|simpl; eauto].
    eapply Forall_impl; [exact Hall|]. intros h [d Hd].
    unfold Distance.with_distance. rewrite Hd. simpl. eauto.
Qed.


Lemma nearby_returned (q : NearbyHawkers.Query) (allHawkers : list Hawker.t) found :
  NearbyHawkers.nearby calculateDistance ToNumber q allHawkers = Returned found ->
  exists ranked n,
    Distance.sortByDistance calculateDistance
      (NearbyHawkers.latitude q) (NearbyHawkers.longitude q) allHawkers = Returned ranked /\
    Forall (fun h => exists b,
              NearbyHawkers.within_radius ToNumber (NearbyHawkers.radius q) h = Returned b)
      ranked /\
    to_number ToNumber (NearbyHawkers.limit q) = Returned n /\
    found =
    slice0
      (List.filter
         (fun h => match NearbyHawkers.within_radius ToNumber (NearbyHawkers.radius q) h with
                   | Returned c => c
                   | Threw _ => false
                   end) ranked) n.
Proof.
  unfold NearbyHawkers.nearby. intros H.
  apply bind_returned in H as (ranked & Hr & H).
  apply bind_returned in H as (within & Hw & H).
  apply bind_returned in H as (n & Hn & H). injection H as <-.
  apply filterM_returned in Hw as [Hall ->]. by exists ranked, n.
Qed.

Lemma within_radius_true radius h :
  NearbyHawkers.within_radius ToNumber radius h = Returned true ->
  exists r, to_number ToNumber radius = Returned r /\
            num_le (HawkerWithDistance.distance h) r = true.
Proof.
  unfold NearbyHawkers.within_radius. intros H.
  apply bind_returned in H as (r & Hr & H). injection H as H. eauto.
Qed.

(** C1, as the code has it. Whenever the nearby search returns candidates:
    when the limit (as a number) is not negative there are at most [limit]
    of them; every candidate has the distance computed from the query
    point to it, and that distance is at most the radius (as a number);
    and when no distance computed over the collection is NaN, the
    candidates are in non-decreasing order of distance. *)
Theorem nearby_ranked
    (q : NearbyHawkers.Query) (allHawkers : list Hawker.t)
    (found : list HawkerWithDistance.t) :
  NearbyHawkers.nearby calculateDistance ToNumber q allHawkers = Returned found ->
  (exists limit,
      to_number ToNumber (NearbyHawkers.limit q) = Returned limit /\
      (num_le (Fin 0) limit = true -> num_le (count found) limit = true)) /\
  Forall
    (fun h =>
       calculateDistance (NearbyHawkers.latitude q) (NearbyHawkers.longitude q)
         (HawkerWithDistance.latitude h) (HawkerWithDistance.longitude h)
       = Returned (HawkerWithDistance.distance h) /\
       exists radius,
         to_number ToNumber (NearbyHawkers.radius q) = Returned radius /\
         num_le (HawkerWithDistance.distance h) radius = true)
    found /\
  (Forall
     (fun h =>
        calculateDistance (NearbyHawkers.latitude q) (NearbyHawkers.longitude q)
          (Hawker.latitude h) (Hawker.longitude h) <> Returned NaN)
     allHawkers ->
   StronglySorted Distance.by_distance found).
Proof.
  intros H. apply nearby_returned in H as (ranked & n & Hr & Hb & Hn & ->).
  pose proof (sortByDistance_perm _ _ _ _ Hr) as [Hperm Hcomp].
  set (within := List.filter _ ranked).
  destruct (slice0_take within n) as [k Hk].
  split; [|split].
  - exists n. split; [done|]. apply slice0_length.
  - rewrite Hk. apply Forall_take. apply List.Forall_forall. intros h Hh.
    apply List.filter_In in Hh as [Hin Hh].
    eapply List.Forall_forall in Hcomp; [|exact Hin].
    split; [apply Hcomp|].
    apply within_radius_true.
    destruct (NearbyHawkers.within_radius ToNumber (NearbyHawkers.radius q) h) as [c|e];
      [by subst|done].
  - intros Hreal. rewrite Hk.
    apply (take_sorted HawkerWithDistance.distance).
    apply (filter_sorted HawkerWithDistance.distance).
    apply sortByDistance_returned in Hr as (unsorted & _ & Hsrc & Hall & ->).
    apply (sort_sorted HawkerWithDistance.distance).
    apply List.Forall_forall. intros r Hin Hnan.
    eapply List.Forall_forall in Hall; [|exact Hin]. destruct Hall as [Hd Hspread].
    eapply (List.Forall_forall) in Hreal.
    + apply Hreal. rewrite <- Hnan.
      replace (Hawker.latitude (Distance.source_of r))
        with (HawkerWithDistance.latitude r) by done.
      replace (Hawker.longitude (Distance.source_of r))
        with (HawkerWithDistance.longitude r) by done.
      exact Hd.
    + rewrite <- Hsrc. by apply in_map.
Qed.

End Ranking.

Example nearby_places :
  Js.bind
    (NearbyHawkers.nearby Examples.grid_distance Examples.to_number
       (Examples.query 2000 10) Examples.places)
    (fun found => Js.Returned (map HawkerWithDistance.name found))
  = Js.Returned [Js.JString "Place A"; Js.JString "Place B"].
Proof. reflexivity. Qed.

Lemma nearby_ranked_witness :
  exists found,
    NearbyHawkers.nearby Examples.grid_distance Examples.to_number
      (Examples.query 10000 2) Examples.places = Js.Returned found /\
    map HawkerWithDistance.name found = [Js.JString "Place A"; Js.JString "Place B"] /\
    Js.num_le (Js.count found) (Js.Fin 2) = true /\
    StronglySorted Distance.by_distance found.
Proof.
  destruct (NearbyHawkers.nearby Examples.grid_distance Examples.to_number
              (Examples.query 10000 2) Examples.places) as [found|e] eqn:H;
    [|by vm_compute in H].
  exists found. split; [done|].
  split; [vm_compute in H; by injection H as <-|].
  destruct (nearby_ranked _ _ _ _ _ H) as [(n & Hn & Hlen) [_ Hsorted]].
  split.
  - injection Hn as <-. by apply Hlen.
  - apply Hsorted. repeat constructor; discriminate.
Defined.

(** C1, as the claim words it, fails for a negative limit: [slice(0, -1)]
    drops the last candidate only, so two of three candidates are returned
    under a limit of -1. *)
Lemma nearby_negative_limit :
  exists found,
    NearbyHawkers.nearby Examples.grid_distance Examples.to_number
      (Examples.query 10000 (-1)) Examples.places = Js.Returned found /\
    map HawkerWithDistance.name found = [Js.JString "Place A"; Js.JString "Place B"] /\
    Js.num_le (Js.count found) (Js.Fin (-1)) = false.
Proof.
  destruct (NearbyHawkers.nearby Examples.grid_distance Examples.to_number
              (Examples.query 10000 (-1)) Examples.places) as [found|e] eqn:H;
    [|by vm_compute in H].
  exists found. split; [done|].
  vm_compute in H. injection H as <-. by split.
Qed.

(** A distance that is NaN upsets the comparator [a.distance - b.distance]:
    the order of the other candidates is then left to the sort.  Here the
    far place stays in front of the near one, and the place whose distance
    is NaN is not within any radius. *)
Example nearby_nan_order :
  exists found,
    NearbyHawkers.nearby Examples.patchy_distance Examples.to_number
      (Examples.query 100000 10) Examples.far_equator_near = Js.Returned found /\
    map HawkerWithDistance.name found = [Js.JString "Place C"; Js.JString "Place B"] /\
    ~ StronglySorted Distance.by_distance found.
Proof.
  destruct (NearbyHawkers.nearby Examples.patchy_distance Examples.to_number
              (Examples.query 100000 10) Examples.far_equator_near) as [found|e] eqn:H;
    [|by vm_compute in H].
  exists found. split; [done|].
  vm_compute in H. injection H as <-. split; [done|].
  intros Hs. inversion Hs as [|a l _ Hall]; subst.
  inversion Hall as [|b l' Hab _]; subst. by vm_compute in Hab.
Qed.

(** ** Strings and searching *)

Lemma prefix_spec (sub s : string) :
  String.prefix sub s = true <-> exists post, s = sub +:+ post.
Proof.
  revert s. induction sub as [|c sub IH]; intros s.
  - split; [intros _; by exists s|by destruct s].
  - destruct s as [|d s]; simpl.
    + split; [done|]. intros [post H]. discriminate.
    + destruct (Ascii.ascii_dec c d) as [->|Hne].
      * rewrite IH. split; intros [post H]; exists post.
        -- by rewrite H.
        -- by injection H.
      * split; [done|]. intros [post H]. by injection H.
Qed.

Lemma includes_spec (s sub : string) :
  Js.includes s sub = true <-> Js.contains s sub.
Proof.
  unfold Js.contains. induction s as [|c s IH]; cbn [Js.includes].
  - destruct (String.prefix sub "") eqn:E.
    + split; [|done]. intros _. apply prefix_spec in E as [post E].
      by exists "", post.
    + split; [done|]. intros (pre & post & H).
      destruct pre; [|discriminate]. simpl in H.
      assert (String.prefix sub "" = true) as Ht; [|congruence].
      apply prefix_spec. eauto.
  - destruct (String.prefix sub (String c s)) eqn:E.
    + split; [|done]. intros _. apply prefix_spec in E as [post E].
      by exists "", post.
    + rewrite IH. split.
      * intros (pre & post & ->). by exists (String c pre), post.
      * intros (pre & post & H). destruct pre as [|d pre]; simpl in H.
        -- assert (String.prefix sub (String c s) = true) as Ht; [|congruence].
           apply prefix_spec. eauto.
        -- injection H as -> ->. eauto.
Qed.

Lemma includes_false (s sub : string) :
  Js.includes s sub = false <-> ~ Js.contains s sub.
Proof.
  rewrite <- includes_spec. destruct (Js.includes s sub); split; congruence.
Qed.

(** ** Tool dispatch *)

(** C3. A [tools/call] request that names a tool outside
    [get_nearby_hawkers], [check_hawker_closures] and [get_hawker_details]
    ends in the protocol error MethodNotFound with the message
    "Unknown tool: <name>", whatever the handlers do; so it never ends in a
    content-block result. *)
Theorem callTool_unknown_tool
    (Args : Type) (nearby closures details : Args -> Js.completion ToolResult)
    (name : string) (args : Args) :
  name ∉ Server.known_tools ->
  Server.callTool Args nearby closures details name args
  = Js.Threw (Js.McpError Js.MethodNotFound ("Unknown tool: " +:+ name)).
Proof.
  intros Hname. unfold Server.callTool, Server.route.
  destruct (String.eqb_spec name "get_nearby_hawkers") as [->|_].
  { exfalso. apply Hname. unfold Server.known_tools. set_solver. }
  destruct (String.eqb_spec name "check_hawker_closures") as [->|_].
  { exfalso. apply Hname. unfold Server.known_tools. set_solver. }
  destruct (String.eqb_spec name "get_hawker_details") as [->|_].
  { exfalso. apply Hname. unfold Server.known_tools. set_solver. }
  reflexivity.
Qed.

Lemma callTool_unknown_tool_witness :
  Examples.callTool "get_weather" (Examples.named "Place A")
  = Js.Threw (Js.McpError Js.MethodNotFound "Unknown tool: get_weather").
Proof.
  apply (callTool_unknown_tool Js.JsValue).
  unfold Server.known_tools. intros H.
  repeat (apply elem_of_cons in H as [H|H]; [discriminate H|]).
  by apply elem_of_nil in H.
Defined.

Example callTool_known :
  Examples.callTool "check_hawker_closures" (Examples.named "place b")
  = Js.Returned (text_result
      ("Closure information for " +:+ Js.dquote +:+ "place b" +:+ Js.dquote +:+ ":"
       +:+ Js.nl +:+ Js.nl +:+ Closures.bullet +:+ " Q1: 1 Jan to 3 Jan" +:+ Js.nl
       +:+ "  Reason: Scheduled closure")).
Proof. reflexivity. Qed.

(** ** Looking up details and closures *)

Section Lookup.
Import Js.

Variable toLowerCase : string -> string.
Variable ToString : JsValue -> completion string.

Lemma exact_match_string (subject name : string) (h : Hawker.t) :
  Hawker.name h = JString name ->
  Details.exact_match toLowerCase (JString subject) h
  = Returned (String.eqb (toLowerCase name) (toLowerCase subject)).
Proof. unfold Details.exact_match. by intros ->. Qed.

Lemma partial_match_string (subject name : string) (h : Hawker.t) :
  Hawker.name h = JString name ->
  Details.partial_match toLowerCase (JString subject) h
  = Returned (includes (toLowerCase name) (toLowerCase subject)).
Proof. unfold Details.partial_match. by intros ->. Qed.

Lemma exact_match_true (subject : string) (h : Hawker.t) :
  Details.exact_match toLowerCase (JString subject) h = Returned true ->
  Lookup.same toLowerCase subject (Hawker.name h).
Proof.
  unfold Details.exact_match, Lookup.same.
  destruct (Hawker.name h) as [| |b|q|name|items|props]; try done.
  simpl. intros [= H]. apply String.eqb_eq in H. eauto.
Qed.

Lemma exact_match_false (subject : string) (h : Hawker.t) :
  Details.exact_match toLowerCase (JString subject) h = Returned false ->
  ~ Lookup.same toLowerCase subject (Hawker.name h).
Proof.
  unfold Details.exact_match, Lookup.same.
  destruct (Hawker.name h) as [| |b|q|name|items|props]; try done.
  simpl. intros [= H] (name' & [= <-] & Heq). by apply String.eqb_neq in H.
Qed.

Lemma partial_match_true (subject : string) (h : Hawker.t) :
  Details.partial_match toLowerCase (JString subject) h = Returned true ->
  Lookup.within toLowerCase subject (Hawker.name h).
Proof.
  unfold Details.partial_match, Lookup.within.
  destruct (Hawker.name h) as [| |b|q|name|items|props]; try done.
  simpl. intros [= H]. apply includes_spec in H. eauto.
Qed.

Lemma partial_match_false (subject : string) (h : Hawker.t) :
  Details.partial_match toLowerCase (JString subject) h = Returned false ->
  ~ Lookup.within toLowerCase subject (Hawker.name h).
Proof.
  unfold Details.partial_match, Lookup.within.
  destruct (Hawker.name h) as [| |b|q|name|items|props]; try done.
  simpl. intros [= H] (name' & [= <-] & Hin). by apply includes_false in H.
Qed.

(** On entries with string names the two searches cannot throw. *)
Lemma find_strings (p : Hawker.t -> completion bool) (allHawkers : list Hawker.t) :
  Forall (fun h => exists b, p h = Returned b) allHawkers ->
  exists found, findM p allHawkers = Returned found.
Proof.
  induction 1 as [|h l [b Hb] Hl [found IH]]; simpl; [eauto|].
  rewrite Hb. simpl. destruct b; eauto.
Qed.

(** The entry that the two searches select, on entries with string names. *)
Lemma select_cases (subject : string) (allHawkers : list Hawker.t) :
  Forall (fun h => Lookup.is_string (Hawker.name h)) allHawkers ->
  let same h := Lookup.same toLowerCase subject (Hawker.name h) in
  let within h := Lookup.within toLowerCase subject (Hawker.name h) in
  let selected := Details.select toLowerCase allHawkers (JString subject) in
  (exists before h after,
      allHawkers = before ++ h :: after /\
      same h /\ Forall (fun x => ~ same x) before /\
      selected = Returned (Some h))
  \/
  (Forall (fun x => ~ same x) allHawkers /\
   exists before h after,
      allHawkers = before ++ h :: after /\
      within h /\ Forall (fun x => ~ within x) before /\
      selected = Returned (Some h))
  \/
  (Forall (fun x => ~ same x) allHawkers /\
   Forall (fun x => ~ within x) allHawkers /\
   selected = Returned None).
Proof.
  intros Hnames same within selected. unfold selected, Details.select.
  destruct (find_strings (Details.exact_match toLowerCase (JString subject)) allHawkers)
    as [exact Hexact].
  { eapply Forall_impl; [exact Hnames|]. intros h [name Hname].
    rewrite (exact_match_string _ _ _ Hname). eauto. }
  destruct (find_strings (Details.partial_match toLowerCase (JString subject)) allHawkers)
    as [partial Hpartial].
  { eapply Forall_impl; [exact Hnames|]. intros h [name Hname].
    rewrite (partial_match_string _ _ _ Hname). eauto. }
  rewrite Hexact. simpl. destruct exact as [h|].
  - left. apply find_some in Hexact as (before & after & -> & Hh & Hb).
    exists before, h, after. split; [done|].
    split; [by apply exact_match_true|]. split; [|done].
    eapply Forall_impl; [exact Hb|]. intros x. apply exact_match_false.
  - right. apply find_none in Hexact.
    assert (Forall (fun x => ~ same x) allHawkers) as Hnone.
    { eapply Forall_impl; [exact Hexact|]. intros x. apply exact_match_false. }
    rewrite Hpartial. destruct partial as [h|].
    + left. split; [exact Hnone|].
      apply find_some in Hpartial as (before & after & -> & Hh & Hb).
      exists before, h, after. split; [done|].
      split; [by apply partial_match_true|]. split; [|done].
      eapply Forall_impl; [exact Hb|]. intros x. apply partial_match_false.
    + right. split; [exact Hnone|]. split; [|done].
      apply find_none in Hpartial.
      eapply Forall_impl; [exact Hpartial|]. intros x. apply partial_match_false.
Qed.

(** The answer of the tool, from the entry selected. *)
Lemma getHawkerDetailsTool_found
    (args : JsValue) (subject : string) (allHawkers : list Hawker.t) (h : Hawker.t) :
  get args "hawkerName" = Returned (JString subject) ->
  Details.select toLowerCase allHawkers (JString subject) = Returned (Some h) ->
  Lookup.is_string (Hawker.name h) ->
  Details.getHawkerDetailsTool toLowerCase ToString args allHawkers
  = (text ← Details.details_text ToString h; Returned (text_result text)).
Proof.
  intros Hargs Hsel [name Hname]. unfold Details.getHawkerDetailsTool.
  rewrite Hargs. simpl. rewrite Hsel. simpl. by rewrite Hname.
Qed.

Lemma getHawkerDetailsTool_missing
    (args : JsValue) (subject : string) (allHawkers : list Hawker.t) :
  get args "hawkerName" = Returned (JString subject) ->
  Details.select toLowerCase allHawkers (JString subject) = Returned None ->
  Details.getHawkerDetailsTool toLowerCase ToString args allHawkers
  = Returned (text_result (Details.not_found_text subject)).
Proof.
  intros Hargs Hsel. unfold Details.getHawkerDetailsTool.
  rewrite Hargs. simpl. by rewrite Hsel.
Qed.

Lemma same_is_string (subject : string) (v : JsValue) :
  Lookup.same toLowerCase subject v -> Lookup.is_string v.
Proof. intros (name & -> & _). by exists name. Qed.

Lemma within_is_string (subject : string) (v : JsValue) :
  Lookup.within toLowerCase subject v -> Lookup.is_string v.
Proof. intros (name & -> & _). by exists name. Qed.

(** C5, as the code has it. For a subject that is a string and a
    collection whose entries all have a string as their name,
    [getHawkerDetailsTool] answers with the details of the first entry
    whose name equals the subject once both are lower-cased; when no entry
    does, with the details of the first entry whose lower-cased name
    contains the lower-cased subject; and when no entry does either, it
    returns (it does not throw) the one text block "Could not find details
    for ...". *)
Theorem getHawkerDetailsTool_selects
    (args : JsValue) (subject : string) (allHawkers : list Hawker.t) :
  get args "hawkerName" = Returned (JString subject) ->
  Forall (fun h => Lookup.is_string (Hawker.name h)) allHawkers ->
  let same h := Lookup.same toLowerCase subject (Hawker.name h) in
  let within h := Lookup.within toLowerCase subject (Hawker.name h) in
  let answer := Details.getHawkerDetailsTool toLowerCase ToString args allHawkers in
  let details h :=
    text ← Details.details_text ToString h; Returned (text_result text) in
  (exists before h after,
      allHawkers = before ++ h :: after /\
      same h /\ Forall (fun x => ~ same x) before /\
      answer = details h)
  \/
  (Forall (fun x => ~ same x) allHawkers /\
   exists before h after,
      allHawkers = before ++ h :: after /\
      within h /\ Forall (fun x => ~ within x) before /\
      answer = details h)
  \/
  (Forall (fun x => ~ same x) allHawkers /\
   Forall (fun x => ~ within x) allHawkers /\
   answer = Returned (text_result (Details.not_found_text subject))).
Proof.
  intros Hargs Hnames same within answer details.
  destruct (select_cases subject allHawkers Hnames)
    as [(before & h & after & Hl & Hh & Hb & Hsel)
       |[(Hnone & before & h & after & Hl & Hh & Hb & Hsel)
        |(Hnone & Hnone' & Hsel)]].
  - left. exists before, h, after. repeat (split; [done|]).
    apply (getHawkerDetailsTool_found _ _ _ _ Hargs Hsel).
    by eapply same_is_string.
  - right. left. split; [done|]. exists before, h, after. repeat (split; [done|]).
    apply (getHawkerDetailsTool_found _ _ _ _ Hargs Hsel).
    by eapply within_is_string.
  - right. right. repeat (split; [done|]).
    by apply getHawkerDetailsTool_missing.
Qed.

Lemma matches_string (subject name : string) (c : ClosureRecord.t) :
  ClosureRecord.name c = JString name ->
  Closures.matches toLowerCase (JString subject) c
  = Returned (includes (toLowerCase name) (toLowerCase subject)).
Proof. unfold Closures.matches. by intros ->. Qed.

Lemma filter_strings (subject : string) (allClosures : list ClosureRecord.t) :
  Forall (fun c => Lookup.is_string (ClosureRecord.name c)) allClosures ->
  filterM (Closures.matches toLowerCase (JString subject)) allClosures
  = Returned (Lookup.matching toLowerCase subject allClosures).
Proof.
  unfold Lookup.matching.
  induction 1 as [|c l [name Hname] Hl IH]; simpl; [done|].
  rewrite (matches_string _ _ _ Hname), IH, Hname. done.
Qed.

Lemma matching_spec (subject : string) (allClosures : list ClosureRecord.t)
    (c : ClosureRecord.t) :
  In c (Lookup.matching toLowerCase subject allClosures) <->
  In c allClosures /\ Lookup.within toLowerCase subject (ClosureRecord.name c).
Proof.
  unfold Lookup.matching, Lookup.within. rewrite List.filter_In.
  split; intros [Hin H]; (split; [done|]).
  - destruct (ClosureRecord.name c) as [| |b|q|name|items|props]; try done.
    apply includes_spec in H. eauto.
  - destruct H as (name & -> & H). by apply includes_spec.
Qed.

Lemma matching_dropped (subject : string) (allClosures : list ClosureRecord.t) :
  exists dropped,
    Permutation allClosures (Lookup.matching toLowerCase subject allClosures ++ dropped) /\
    Forall (fun c => ~ Lookup.within toLowerCase subject (ClosureRecord.name c)) dropped.
Proof.
  induction allClosures as [|c l (dropped & Hperm & Hdropped)]; [by exists []|].
  unfold Lookup.matching in *. simpl.
  destruct (ClosureRecord.name c) as [| |b|q|name|items|props] eqn:Hname;
    try (exists (c :: dropped); split;
         [rewrite <- Permutation_middle; by constructor|];
         constructor; [|done]; rewrite Hname; by intros (name' & [=] & _)).
  destruct (includes (toLowerCase name) (toLowerCase subject)) eqn:Hin.
  - exists dropped. split; [simpl; by constructor|done].
  - exists (c :: dropped). split; [rewrite <- Permutation_middle; by constructor|].
    constructor; [|done]. rewrite Hname. intros (name' & [= <-] & H).
    by apply includes_false in Hin.
Qed.

(** C6, as the code has it. For a subject that is a string and a
    collection whose records all have a string as their name, the records
    that [getClosuresTool] reports are exactly those whose lower-cased name
    contains the lower-cased subject, in feed order: when there is none,
    the tool returns (it does not throw) the one text block "No scheduled
    closures found for ...", and otherwise its answer is the listing of
    exactly these records. *)
Theorem getClosuresTool_matching
    (args : JsValue) (subject : string) (allClosures : list ClosureRecord.t) :
  get args "hawkerName" = Returned (JString subject) ->
  Forall (fun c => Lookup.is_string (ClosureRecord.name c)) allClosures ->
  let within c := Lookup.within toLowerCase subject (ClosureRecord.name c) in
  let closures := Lookup.matching toLowerCase subject allClosures in
  let answer := Closures.getClosuresTool toLowerCase ToString args allClosures in
  (forall c, In c closures <-> In c allClosures /\ within c) /\
  (exists dropped,
      Permutation allClosures (closures ++ dropped) /\
      Forall (fun c => ~ within c) dropped) /\
  (Forall (fun c => ~ within c) allClosures ->
   answer = Returned (text_result (Closures.no_closures_text subject))) /\
  (closures = [] ->
   answer = Returned (text_result (Closures.no_closures_text subject))) /\
  (closures <> [] ->
   answer =
   entries ← mapM (Closures.render_closure ToString) closures;
   Returned (text_result (Closures.listing_text subject entries))).
Proof.
  intros Hargs Hnames within closures answer.
  assert (closures = [] ->
          answer = Returned (text_result (Closures.no_closures_text subject))) as Hnone.
  { intros Hempty. unfold answer, Closures.getClosuresTool.
    rewrite Hargs. simpl. rewrite (filter_strings _ _ Hnames).
    fold closures. by rewrite Hempty. }
  split; [apply matching_spec|]. split; [apply matching_dropped|].
  split; [|split; [exact Hnone|]].
  - intros Hall. apply Hnone.
    destruct closures as [|c l] eqn:E; [done|].
    assert (In c closures) as Hc by (rewrite E; by left).
    apply matching_spec in Hc as [Hin Hc].
    eapply List.Forall_forall in Hall; [|exact Hin]. done.
  - intros Hsome. unfold answer, Closures.getClosuresTool.
    rewrite Hargs. simpl. rewrite (filter_strings _ _ Hnames).
    fold closures. by destruct closures.
Qed.

End Lookup.

Lemma getHawkerDetailsTool_selects_witness :
  Details.getHawkerDetailsTool Js.ascii_lower Examples.convert
    (Examples.named "Newton") Examples.places
  = Js.Returned (text_result (Details.not_found_text "Newton")).
Proof.
  destruct (getHawkerDetailsTool_selects Js.ascii_lower Examples.convert
              (Examples.named "Newton") "Newton" Examples.places)
    as [(before & h & after & Hl & Hh & _)
       |[(_ & before & h & after & Hl & Hh & _)|(_ & _ & H)]].
  - reflexivity.
  - repeat constructor; unfold Lookup.is_string; simpl; eauto.
  - exfalso. assert (In h Examples.places) as Hin by (rewrite Hl; apply in_elt).
    destruct Hh as (name & Hname & Heq).
    repeat (destruct Hin as [<-|Hin]; [by injection Hname as <-|]). done.
  - exfalso. assert (In h Examples.places) as Hin by (rewrite Hl; apply in_elt).
    destruct Hh as (name & Hname & Hc). apply includes_spec in Hc.
    repeat (destruct Hin as [<-|Hin]; [by injection Hname as <-|]). done.
  - exact H.
Defined.

(** C5, as the claim words it, fails on a collection that holds an entry
    without a name, which is what the gateway makes of a feature without
    NAME: no entry's name equals or contains the subject, yet the tool
    throws instead of returning the "Could not find" sentence. *)
Lemma details_nameless_entry :
  DataGovSg.parseFeature Examples.convert Examples.nameless_feature
  = Js.Returned Examples.nameless_entry /\
  ~ Lookup.same Js.ascii_lower "Newton" (Hawker.name Examples.nameless_entry) /\
  ~ Lookup.within Js.ascii_lower "Newton" (Hawker.name Examples.nameless_entry) /\
  Details.getHawkerDetailsTool Js.ascii_lower Examples.convert
    (Examples.named "Newton") [Examples.nameless_entry]
  = Js.Threw
      (Js.Error "Cannot read properties of undefined or null (reading 'toLowerCase')").
Proof.
  split; [reflexivity|].
  split; [by intros (name & H & _)|].
  split; [by intros (name & H & _)|reflexivity].
Qed.

Lemma getClosuresTool_matching_witness :
  Closures.getClosuresTool Js.ascii_lower Examples.convert
    (Examples.named "Place Z") Examples.closures
  = Js.Returned (text_result (Closures.no_closures_text "Place Z")) /\
  Closures.getClosuresTool Js.ascii_lower Examples.convert
    (Examples.named "place") Examples.closures
  = Js.Returned (text_result
      (Closures.listing_text "place"
         [Closures.bullet +:+ " Q1: 1 Jan to 3 Jan" +:+ Js.nl +:+
          "  Reason: Scheduled closure"])).
Proof.
  split.
  - apply (getClosuresTool_matching Js.ascii_lower Examples.convert
             (Examples.named "Place Z") "Place Z" Examples.closures).
    + reflexivity.
    + repeat constructor; unfold Lookup.is_string; simpl; eauto.
    + reflexivity.
  - rewrite (proj2 (proj2 (proj2 (proj2
      (getClosuresTool_matching Js.ascii_lower Examples.convert
         (Examples.named "place") "place" Examples.closures
         eq_refl
         ltac:(repeat constructor; unfold Lookup.is_string; simpl; eauto)))))).
    + reflexivity.
    + discriminate.
Defined.

(** C6, as the claim words it, fails on a collection that holds a record
    whose name is not a string, which the gateway keeps as it comes: no
    record matches the subject, yet the tool throws instead of returning the
    "No scheduled closures" sentence. *)
Lemma closures_numbered_record :
  DataGovSgClosures.parseRecord Examples.numbered_record
  = Js.Returned Examples.numbered_entry /\
  ~ Lookup.within Js.ascii_lower "Place B"
      (ClosureRecord.name Examples.numbered_entry) /\
  Closures.getClosuresTool Js.ascii_lower Examples.convert
    (Examples.named "Place B") [Examples.numbered_entry]
  = Js.Threw (Js.Error "toLowerCase is not a function").
Proof.
  split; [reflexivity|]. split; [by intros (name & H & _)|reflexivity].
Qed.

Example details_exact_first :
  Details.select Js.ascii_lower
    (Examples.place "Place Alpha" 1 2 :: Examples.places) (Js.JString "PLACE A")
  = Js.Returned (Some Examples.place_a).
Proof. reflexivity. Qed.

Example details_partial :
  Details.select Js.ascii_lower Examples.places (Js.JString "ace c")
  = Js.Returned (Some Examples.place_c).
Proof. reflexivity. Qed.

Example details_not_found :
  Details.getHawkerDetailsTool Js.ascii_lower Examples.convert
    (Examples.named "Newton") Examples.places
  = Js.Returned (text_result
      ("Could not find details for " +:+ Js.dquote +:+ "Newton" +:+ Js.dquote +:+
       ". Please check the name and try again.")).
Proof. reflexivity. Qed.

(** ** The open-data gateway *)

Section Gateway.
Import Js DataGovSg.

Variable ToString : JsValue -> completion string.

Lemma or_else_undefined (v : JsValue) : or_else JUndefined v = v.
Proof. reflexivity. Qed.

Ltac step_bind H :=
  let a := fresh "v" in
  let Ha := fresh "Hv" in
  apply bind_returned in H as (a & Ha & H).

(** What [parseFeature] reads, when it returns. *)
Lemma parseFeature_fields (feature : JsValue) (h : Hawker.t) :
  parseFeature ToString feature = Returned h ->
  exists properties,
    get feature "properties" = Returned properties /\
    (forall v, get properties "ADDRESSPOSTALCODE" = Returned v ->
               Hawker.postalCode h = or_else v (JString "")) /\
    (forall v, get properties "DESCRIPTION" = Returned v ->
               Hawker.description h = or_else v (JString "")) /\
    (forall v, get properties "STATUS" = Returned v ->
               Hawker.status h = or_else v (JString "Unknown")) /\
    (forall v, get properties "NUMBER_OF_COOKED_FOOD_STALLS" = Returned v ->
               Hawker.stallCount h = or_else v (JNumber 0)) /\
    (forall v, get properties "PHOTOURL" = Returned v ->
               Hawker.photoUrl h = or_else v (JString "")).
Proof.
  unfold parseFeature. intros H.
  do 15 step_bind H.
  injection H as <-. simpl.
  exists v. split; [done|].
  repeat split; intros x Hx; congruence.
Qed.

(** C4, as the code has it. When [parseFeature] builds an entry from a
    feature, a stall count that is absent from the feature's properties
    becomes 0, an absent postal code, description or photo URL becomes the
    empty string, and an absent status becomes the string "Unknown". *)
Theorem parseFeature_defaults (feature : JsValue) (h : Hawker.t) :
  parseFeature ToString feature = Returned h ->
  (absent feature "NUMBER_OF_COOKED_FOOD_STALLS" -> Hawker.stallCount h = JNumber 0) /\
  (absent feature "ADDRESSPOSTALCODE" -> Hawker.postalCode h = JString "") /\
  (absent feature "DESCRIPTION" -> Hawker.description h = JString "") /\
  (absent feature "PHOTOURL" -> Hawker.photoUrl h = JString "") /\
  (absent feature "STATUS" -> Hawker.status h = JString "Unknown").
Proof.
  intros H.
  destruct (parseFeature_fields _ _ H) as (props & Hp & Hpost & Hdesc & Hstat & Hcnt & Hphoto).
  repeat split; intros (props' & Hp' & Habs);
    rewrite Hp in Hp'; injection Hp' as <-.
  - by rewrite (Hcnt _ Habs).
  - by rewrite (Hpost _ Habs).
  - by rewrite (Hdesc _ Habs).
  - by rewrite (Hphoto _ Habs).
  - by rewrite (Hstat _ Habs).
Qed.

Lemma fetch_json_failed (r : FetchResult) (what : string) :
  fetch_failed r -> exists e, fetch_json r what = Threw e.
Proof.
  destruct r as [e|ok statusText json]; simpl; [eauto|].
  intros ->. eauto.
Qed.

Lemma fetch_body_failure (w : World) :
  upstream_failure w -> exists e, fetch_body ToString w = Threw e.
Proof.
  unfold fetch_body. intros [Hpoll|Hdown].
  - destruct (fetch_json_failed _ "Failed to fetch hawker data: " Hpoll) as [e ->].
    simpl. eauto.
  - destruct (fetch_json_failed _ "Failed to download hawker data: " Hdown) as [e He].
    destruct (fetch_json (poll w) _) as [pollData|e1]; simpl; [|eauto].
    destruct (get pollData "data") as [data|e2]; simpl; [|eauto].
    destruct (get data "url") as [url|e3]; simpl; [|eauto].
    rewrite He. simpl. eauto.
Qed.

(** Whatever the upstream does, the call returns a collection. *)
Lemma fetchHawkerCentres_returns (w : World) (c : Cache) :
  exists hawkers c', fetchHawkerCentres ToString w c = (Returned hawkers, c').
Proof.
  unfold fetchHawkerCentres.
  destruct (cachedHawkers c) as [cached|];
    [destruct (_ <? CACHE_DURATION); [eauto|]|];
    destruct (fetch_body ToString w); eauto;
    destruct (0 <? length cached)%nat; eauto.
Qed.

(** Whenever the [try] block throws, the cache is handed back as it is. *)
Lemma fetchHawkerCentres_caught (w : World) (c : Cache) (e : JsError) :
  fetch_body ToString w = Threw e ->
  fetchHawkerCentres ToString w c = (Returned (default [] (cachedHawkers c)), c).
Proof.
  unfold fetchHawkerCentres. intros ->.
  destruct (cachedHawkers c) as [cached|]; simpl; [|done].
  destruct (_ <? CACHE_DURATION); [done|].
  by destruct cached.
Qed.

(** C2. When a fetch of the feed fails, by a transport error or a
    non-success status, [fetchHawkerCentres] does not throw: with a cache
    from an earlier successful fetch, however old, it returns that
    collection and leaves the cache as it was; without a cache it returns
    the empty collection. *)
Theorem fetchHawkerCentres_failure (w : World) (c : Cache) :
  upstream_failure w ->
  (forall cached, cachedHawkers c = Some cached ->
     fetchHawkerCentres ToString w c = (Returned cached, c)) /\
  (cachedHawkers c = None ->
     fetchHawkerCentres ToString w c = (Returned [], c)).
Proof.
  intros Hfail. destruct (fetch_body_failure w Hfail) as [e He].
  pose proof (fetchHawkerCentres_caught w c e He) as H.
  split.
  - intros cached Hc. by rewrite H, Hc.
  - intros Hc. by rewrite H, Hc.
Qed.

End Gateway.

Example parse_bare_feature :
  DataGovSg.parseFeature Examples.convert Examples.bare_feature
  = Js.Returned Examples.bare_entry.
Proof. reflexivity. Qed.

Lemma bare_feature_absent (k : string) :
  Js.assoc k
    [ ("NAME", Js.JString "Place A");
      ("ADDRESSBLOCKHOUSENUMBER", Js.JString "1");
      ("ADDRESSSTREETNAME", Js.JString "Example Road") ] = None ->
  DataGovSg.absent Examples.bare_feature k.
Proof.
  intros H.
  exists (Js.JObject
            [ ("NAME", Js.JString "Place A");
              ("ADDRESSBLOCKHOUSENUMBER", Js.JString "1");
              ("ADDRESSSTREETNAME", Js.JString "Example Road") ]).
  split; [reflexivity|]. unfold Js.get. by rewrite H.
Qed.

Lemma parseFeature_defaults_witness :
  Hawker.stallCount Examples.bare_entry = Js.JNumber 0 /\
  Hawker.postalCode Examples.bare_entry = Js.JString "" /\
  Hawker.description Examples.bare_entry = Js.JString "" /\
  Hawker.photoUrl Examples.bare_entry = Js.JString "" /\
  Hawker.status Examples.bare_entry = Js.JString "Unknown".
Proof.
  destruct (parseFeature_defaults Examples.convert
              Examples.bare_feature Examples.bare_entry eq_refl)
    as (H1 & H2 & H3 & H4 & H5).
  split; [apply H1; by apply bare_feature_absent|].
  split; [apply H2; by apply bare_feature_absent|].
  split; [apply H3; by apply bare_feature_absent|].
  split; [apply H4; by apply bare_feature_absent|].
  apply H5; by apply bare_feature_absent.
Defined.

(** C4, as the claim words it, fails for the status: a feature without a
    STATUS property is parsed into an entry whose status is "Unknown", not
    the empty string. *)
Lemma parse_absent_status_not_empty :
  exists h,
    DataGovSg.parseFeature Examples.convert Examples.bare_feature = Js.Returned h /\
    DataGovSg.absent Examples.bare_feature "STATUS" /\
    Hawker.status h = Js.JString "Unknown" /\
    Hawker.status h <> Js.JString "".
Proof.
  exists Examples.bare_entry. split; [reflexivity|].
  split; [by apply bare_feature_absent|].
  split; [reflexivity|discriminate].
Qed.

Example filled_cache_value :
  Examples.filled_cache
  = {| DataGovSg.cachedHawkers := Some [Examples.bare_entry];
       DataGovSg.cacheTimestamp := 1200 |}.
Proof. reflexivity. Qed.

Lemma fetchHawkerCentres_failure_witness :
  DataGovSg.fetchHawkerCentres Examples.convert Examples.bad_day Examples.filled_cache
  = (Js.Returned [Examples.bare_entry], Examples.filled_cache) /\
  DataGovSg.fetchHawkerCentres Examples.convert Examples.bad_day DataGovSg.initial
  = (Js.Returned [], DataGovSg.initial).
Proof.
  assert (DataGovSg.upstream_failure Examples.bad_day) as Hfail.
  { left. reflexivity. }
  split.
  - apply (fetchHawkerCentres_failure Examples.convert
             Examples.bad_day Examples.filled_cache Hfail).
    reflexivity.
  - apply (fetchHawkerCentres_failure Examples.convert
             Examples.bad_day DataGovSg.initial Hfail).
    reflexivity.
Defined.

(** ** The client bridge *)

Section Bridge.
Import Js MCPClient.

Variable ToString : JsValue -> string.

Lemma settle_lookup (p k : Z) (o : Settled) (ps : gmap Z Settled) :
  settle p o ps !! k =
  match ps !! k with
  | Some o' => Some o'
  | None => if decide (p = k) then Some o else None
  end.
Proof.
  unfold settle. destruct (ps !! p) as [o'|] eqn:Hp.
  - destruct (ps !! k) eqn:Hk; [done|].
    case_decide; [congruence|done].
  - rewrite lookup_insert. case_decide.
    + subst. by rewrite Hp.
    + by destruct (ps !! k).
Qed.

Lemma settle_keeps (p k : Z) (o o' : Settled) (ps : gmap Z Settled) :
  ps !! k = Some o' -> settle p o ps !! k = Some o'.
Proof. intros H. by rewrite settle_lookup, H. Qed.

Lemma settle_other (p k : Z) (o : Settled) (ps : gmap Z Settled) :
  p <> k -> settle p o ps !! k = ps !! k.
Proof.
  intros H. rewrite settle_lookup. destruct (ps !! k); [done|].
  by case_decide.
Qed.

Lemma settle_fresh (p : Z) (o : Settled) (ps : gmap Z Settled) :
  ps !! p = None -> settle p o ps !! p = Some o.
Proof. intros H. rewrite settle_lookup, H. by case_decide. Qed.

Lemma reject_all_keeps message l ps k o :
  ps !! k = Some o -> reject_all message l ps !! k = Some o.
Proof.
  intros H. induction l as [|kh l IH]; simpl; [done|].
  by apply settle_keeps.
Qed.

Lemma reject_all_cases message l ps k :
  reject_all message l ps !! k = ps !! k \/
  (ps !! k = None /\ reject_all message l ps !! k = Some (Rejected message)).
Proof.
  induction l as [|kh l IH]; simpl; [by left|].
  rewrite settle_lookup.
  destruct IH as [IH|[Hnone IH]]; rewrite IH.
  - destruct (ps !! k) eqn:E; [by left|].
    case_decide; [by right|by left].
  - by right.
Qed.

Lemma reject_all_hits message l ps kh :
  kh ∈ l -> ps !! promise (snd kh) = None ->
  reject_all message l ps !! promise (snd kh) = Some (Rejected message).
Proof.
  intros Hin Hnone. induction l as [|kh' l IH]; simpl.
  - by apply elem_of_nil in Hin.
  - apply elem_of_cons in Hin as [->|Hin].
    + rewrite settle_lookup.
      destruct (reject_all_cases message l ps (promise (snd kh'))) as [H|[_ H]];
        rewrite H; [|done].
      rewrite Hnone. by case_decide.
    + apply settle_keeps. by apply IH.
Qed.

Lemma reject_all_inv message l ps k o :
  reject_all message l ps !! k = Some o ->
  ps !! k = Some o \/ exists kh, kh ∈ l /\ promise (snd kh) = k.
Proof.
  induction l as [|kh l IH]; simpl; [by left|].
  rewrite settle_lookup.
  destruct (reject_all message l ps !! k) as [o'|] eqn:E.
  - intros [= ->]. destruct (IH eq_refl) as [?|(x & Hx & Hp)]; [by left|].
    right. exists x. split; [by right|done].
  - case_decide; [|done]. intros _. right. exists kh. split; [by left|done].
Qed.

(** What each operation does to the fields the invariants read. *)

Lemma handleMessage_cases (message : JsValue) (st : Client) :
  handleMessage ToString message st = st \/
  exists k h o,
    answers k message /\ pendingRequests st !! k = Some h /\
    handleMessage ToString message st =
    {| process := process st; messageId := messageId st;
       pendingRequests := delete k (pendingRequests st);
       promises := settle (promise h) o (promises st);
       written := written st; writes := writes st; timers := timers st;
       clock := clock st |}.
Proof.
  unfold handleMessage.
  destruct (get message "id") as [idv|e] eqn:Hid; [|by left].
  destruct (key_of idv) as [k|] eqn:Hk; simpl.
  - destruct (pendingRequests st !! k) as [h|] eqn:Hp; simpl.
    + destruct idv; try discriminate Hk.
      right. eexists k, h, _. split; [by exists (JNumber q)|]. split; [done|].
      reflexivity.
    + left. by destruct idv.
  - left. by destruct idv.
Qed.

Lemma handleMessage_unknown (id : Z) (message : JsValue) (st : Client) :
  answers id message -> pendingRequests st !! id = None ->
  handleMessage ToString message st = st.
Proof.
  intros (idv & Hid & Hk) Hnone. unfold handleMessage.
  rewrite Hid, Hk. simpl. rewrite Hnone. simpl. by destruct idv.
Qed.

Lemma sendRequest_cases (method : string) (params : JsValue) (st : Client) :
  (exists e, sendRequest method params st = (Threw e, st)) \/
  sendRequest method params st =
  (Returned (messageId st + 1),
   {| process := process st; messageId := messageId st + 1;
      pendingRequests :=
        <[messageId st + 1 := {| promise := messageId st + 1 |}]> (pendingRequests st);
      promises := promises st;
      written := {| id := messageId st + 1; method := method; params := params |}
                 :: written st;
      writes := writes st ++ [messageId st + 1];
      timers := timers st ++ [(clock st + TIMEOUT, messageId st + 1)];
      clock := clock st |}).
Proof.
  unfold sendRequest. destruct (process st) as [child|]; [|left; eauto].
  destruct (stdin child); [by right|left; eauto].
Qed.

Lemma wf_initial : wf initial.
Proof.
  split; simpl; intros k; try (intros ?; by rewrite lookup_empty).
  intros Hk. by apply elem_of_nil in Hk.
Qed.

Lemma wf_start child st : wf st -> wf (snd (start child st)).
Proof.
  intros [H1 H2 H3 H4 H5]. unfold start.
  destruct (process st); [by split|].
  destruct (negb (stdout child) || negb (stdin child)); by split.
Qed.

Lemma wf_stop st : wf st -> wf (stop st).
Proof.
  intros [H1 H2 H3 H4 H5]. unfold stop. destruct (process st); by split.
Qed.

Lemma wf_sendRequest method params st :
  wf st -> wf (snd (sendRequest method params st)).
Proof.
  intros Hwf. destruct (sendRequest_cases method params st) as [[e ->]| ->]; [done|].
  destruct Hwf as [H1 H2 H3 H4 H5]. split; simpl.
  - intros k h. rewrite lookup_insert. case_decide.
    + intros [= <-]. by subst.
    + apply H1.
  - intros k h. rewrite lookup_insert. case_decide.
    + intros _. subst. destruct (promises st !! (messageId st + 1)) as [o|] eqn:E; [|done].
      apply H4 in E. lia.
    + apply H2.
  - intros k h. rewrite lookup_insert. case_decide.
    + intros _. lia.
    + intros Hk. apply H3 in Hk. lia.
  - intros k o Hk. apply H4 in Hk. lia.
  - intros k Hk. apply elem_of_app in Hk as [Hk|Hk].
    + apply H5 in Hk. lia.
    + apply list_elem_of_singleton in Hk. lia.
Qed.

Lemma wf_remove (k : Z) (o : Settled) (st st' : Client) :
  wf st -> k <= messageId st ->
  messageId st' = messageId st ->
  pendingRequests st' = delete k (pendingRequests st) ->
  promises st' = settle k o (promises st) ->
  (forall x, x ∈ writes st' -> x ∈ writes st) ->
  wf st'.
Proof.
  intros [H1 H2 H3 H4 H5] Hk Hm Hp Hs Hw. split.
  - intros x h. rewrite Hp, lookup_delete. case_decide; [done|]. apply H1.
  - intros x h. rewrite Hp, Hs, lookup_delete. case_decide; [done|].
    intros Hx. rewrite settle_other by done. by eapply H2.
  - intros x h. rewrite Hp, Hm, lookup_delete. case_decide; [done|]. apply H3.
  - intros x o'. rewrite Hs, Hm, settle_lookup.
    destruct (promises st !! x) as [o''|] eqn:E.
    + intros _. by eapply H4.
    + case_decide; [|done]. intros _. by subst.
  - intros x Hx. rewrite Hm. by apply H5, Hw.
Qed.

Lemma wf_handleMessage message st : wf st -> wf (handleMessage ToString message st).
Proof.
  intros Hwf.
  destruct (handleMessage_cases message st) as [->|(k & h & o & _ & Hp & ->)]; [done|].
  pose proof (wf_handle _ Hwf _ _ Hp) as Hh.
  eapply (wf_remove k o st); simpl; eauto.
  - by eapply wf_pending.
  - by rewrite Hh.
Qed.

Lemma wf_on_write_done id error st : wf st -> wf (on_write_done id error st).
Proof.
  intros Hwf. unfold on_write_done. case_bool_decide as Hin; [|done].
  assert (forall x, x ∈ List.filter (fun k => negb (k =? id)) (writes st) ->
                    x ∈ writes st) as Hsub.
  { intros x Hx. apply list_elem_of_In in Hx. apply List.filter_In in Hx as [Hx _].
    by apply list_elem_of_In. }
  destruct error as [e|].
  - eapply (wf_remove id (Rejected e) st); simpl; eauto.
    by eapply wf_writes.
  - destruct Hwf as [H1 H2 H3 H4 H5]. split; simpl; auto.
Qed.

Lemma wf_on_timeout st id : wf st -> wf (on_timeout st id).
Proof.
  intros Hwf. unfold on_timeout.
  destruct (pendingRequests st !! id) as [h|] eqn:Hp; [|done].
  eapply (wf_remove id _ st); simpl; eauto.
  by eapply wf_pending.
Qed.

Lemma wf_timeouts ids st : wf st -> wf (foldl on_timeout st ids).
Proof.
  revert st. induction ids as [|id ids IH]; intros st Hwf; simpl; [done|].
  by apply IH, wf_on_timeout.
Qed.

Lemma wf_tick ms st : wf st -> wf (tick ms st).
Proof.
  intros [H1 H2 H3 H4 H5]. unfold tick. apply wf_timeouts. by split.
Qed.

Lemma wf_on_exit st : wf st -> wf (on_exit st).
Proof.
  intros [H1 H2 H3 H4 H5]. split; simpl; try done.
  intros k o Hk. apply reject_all_inv in Hk as [Hk|((x & h) & Hin & Hp)].
  - by eapply H4.
  - apply elem_of_map_to_list in Hin. simpl in Hp.
    rewrite <- Hp, (H1 _ _ Hin). by eapply H3.
Qed.

Lemma wf_step st e : wf st -> wf (step ToString st e).
Proof.
  destruct e; simpl.
  - apply wf_start.
  - apply wf_sendRequest.
  - apply wf_handleMessage.
  - apply wf_on_write_done.
  - apply wf_tick.
  - apply wf_on_exit.
  - apply wf_stop.
Qed.

Lemma wf_run events st : wf st -> wf (run ToString events st).
Proof.
  revert st. induction events as [|e events IH]; intros st Hwf; simpl; [done|].
  by apply IH, wf_step.
Qed.

(** Timer callbacks touch the map and the promises only. *)

Lemma timeouts_fields ids st :
  messageId (foldl on_timeout st ids) = messageId st /\
  clock (foldl on_timeout st ids) = clock st /\
  timers (foldl on_timeout st ids) = timers st.
Proof.
  revert st. induction ids as [|k ids IH]; intros st; simpl; [done|].
  destruct (IH (on_timeout st k)) as (-> & -> & ->).
  unfold on_timeout. by destruct (pendingRequests st !! k).
Qed.

Lemma on_timeout_fires id st : waiting id st -> timed_out id (on_timeout st id).
Proof.
  intros [Hp Hs]. unfold on_timeout, timed_out. rewrite Hp. simpl.
  split; [by apply settle_fresh|apply lookup_delete_eq].
Qed.

Lemma on_timeout_timed_out id k st : timed_out id st -> timed_out id (on_timeout st k).
Proof.
  intros [Hs Hp]. unfold on_timeout, timed_out.
  destruct (pendingRequests st !! k); [|done]. simpl.
  split; [by apply settle_keeps|].
  rewrite lookup_delete. by case_decide.
Qed.

Lemma on_timeout_other id k st :
  k <> id -> waiting id st -> waiting id (on_timeout st k).
Proof.
  intros Hne [Hp Hs]. unfold on_timeout, waiting.
  destruct (pendingRequests st !! k); [|done]. simpl.
  by rewrite lookup_delete_ne, settle_other.
Qed.

Lemma timeouts_timed_out id ids st :
  timed_out id st -> timed_out id (foldl on_timeout st ids).
Proof.
  revert st. induction ids as [|k ids IH]; intros st H; simpl; [done|].
  by apply IH, on_timeout_timed_out.
Qed.

Lemma timeouts_waiting id ids st :
  waiting id st ->
  (id ∈ ids -> timed_out id (foldl on_timeout st ids)) /\
  (waiting id (foldl on_timeout st ids) \/ timed_out id (foldl on_timeout st ids)).
Proof.
  revert st. induction ids as [|k ids IH]; intros st H; simpl.
  - split; [|by left]. intros Hin. by apply elem_of_nil in Hin.
  - destruct (decide (k = id)) as [->|Hne].
    + pose proof (timeouts_timed_out id ids _ (on_timeout_fires id st H)) as Hdone.
      split; [done|by right].
    + destruct (IH _ (on_timeout_other id k st Hne H)) as [Hin Hor].
      split; [|done]. intros Hk. apply elem_of_cons in Hk as [Hk|Hk]; [congruence|auto].
Qed.

(** Once the timer has rejected a request, nothing brings it back. *)
Lemma timed_out_step id st e :
  id <= messageId st -> timed_out id st ->
  id <= messageId (step ToString st e) /\ timed_out id (step ToString st e).
Proof.
  intros Hid [Hs Hp]. destruct e as [child|method params|message|k error|ms| |]; simpl.
  - unfold start. destruct (process st); [done|].
    by destruct (negb (stdout child) || negb (stdin child)).
  - destruct (sendRequest_cases method params st) as [[e ->]| ->]; [done|].
    unfold timed_out. simpl. split; [lia|]. split; [done|].
    rewrite lookup_insert_ne by lia. done.
  - destruct (handleMessage_cases message st) as [->|(k & h & o & _ & _ & ->)]; [done|].
    unfold timed_out. simpl. split; [done|]. split; [by apply settle_keeps|].
    rewrite lookup_delete. by case_decide.
  - unfold on_write_done. case_bool_decide; [|done].
    destruct error; unfold timed_out; simpl; [|done].
    split; [done|]. split; [by apply settle_keeps|].
    rewrite lookup_delete. by case_decide.
  - unfold tick.
    destruct (timeouts_fields
      (map snd (List.filter (fun t => fst t <=? clock st + Z.max 0 ms) (timers st)))
      {| process := process st; messageId := messageId st;
         pendingRequests := pendingRequests st; promises := promises st;
         written := written st; writes := writes st;
         timers := List.filter (fun t => negb (fst t <=? clock st + Z.max 0 ms)) (timers st);
         clock := clock st + Z.max 0 ms |}) as (-> & _ & _).
    split; [done|]. by apply timeouts_timed_out.
  - unfold timed_out. simpl. split; [done|]. split; [by apply reject_all_keeps|].
    apply lookup_empty.
  - unfold stop. by destruct (process st).
Qed.

Lemma timed_out_run id events st :
  id <= messageId st -> timed_out id st ->
  id <= messageId (run ToString events st) /\ timed_out id (run ToString events st).
Proof.
  revert st. induction events as [|e events IH]; intros st Hid H; simpl; [done|].
  destruct (timed_out_step id st e Hid H) as [Hid' H']. by apply IH.
Qed.

(** Until its deadline an undisturbed request stays outstanding, and the
    tick that reaches the deadline rejects it. *)
Lemma in_flight_step id deadline st e :
  wf st -> in_flight id deadline st -> undisturbed id e ->
  in_flight id deadline (step ToString st e).
Proof.
  intros Hwf [Hid [(Hclock & Htimer & Hwait)|Hdone]] Hquiet.
  2: { destruct (timed_out_step id st e Hid Hdone) as [Hid' H']. split; [done|by right]. }
  pose proof Hwait as [Hp Hs].
  destruct e as [child|method params|message|k error|ms| |]; simpl.
  - unfold start. destruct (process st); [by split; [|left]|].
    by destruct (negb (stdout child) || negb (stdin child)); (split; [|left]).
  - destruct (sendRequest_cases method params st) as [[e ->]| ->];
      [by split; [|left]|].
    split; simpl; [lia|]. left. split; [done|]. split.
    + apply elem_of_app. by left.
    + unfold waiting. simpl. by rewrite lookup_insert_ne by lia.
  - destruct (handleMessage_cases message st) as [->|(k & h & o & Hans & Hk & ->)];
      [by split; [|left]|].
    assert (k <> id) as Hne by (intros ->; by apply Hquiet).
    split; [done|]. left. split; [done|]. split; [done|].
    unfold waiting. simpl. rewrite lookup_delete_ne by done.
    rewrite (wf_handle _ Hwf _ _ Hk). by rewrite settle_other.
  - unfold on_write_done. case_bool_decide; [|by split; [|left]].
    destruct error as [e|]; [|by split; [|left]].
    simpl in Hquiet. split; [done|]. left. split; [done|]. split; [done|].
    unfold waiting. simpl. by rewrite lookup_delete_ne, settle_other.
  - unfold tick.
    set (now := clock st + Z.max 0 ms).
    set (due := List.filter (fun t => fst t <=? now) (timers st)).
    set (st0 := {| process := process st; messageId := messageId st;
                   pendingRequests := pendingRequests st; promises := promises st;
                   written := written st; writes := writes st;
                   timers := List.filter (fun t => negb (fst t <=? now)) (timers st);
                   clock := now |}).
    destruct (timeouts_fields (map snd due) st0) as (Hm & Hc & Ht).
    destruct (timeouts_waiting id (map snd due) st0 Hwait) as [Hfire Hor].
    split; [by rewrite Hm|].
    destruct (Z.leb_spec deadline now) as [Hle|Hlt].
    + right. apply Hfire. apply list_elem_of_fmap. exists (deadline, id).
      split; [done|]. apply list_elem_of_In, List.filter_In.
      split; [by apply list_elem_of_In|]. simpl. by apply Z.leb_le.
    + destruct Hor as [Hw|Hd]; [|by right].
      left. rewrite Hc, Ht. split; [done|]. split; [|done].
      apply list_elem_of_In, List.filter_In.
      split; [by apply list_elem_of_In|]. simpl.
      apply negb_true_iff, Z.leb_gt. done.
  - done.
  - unfold stop. by destruct (process st); (split; [|left]).
Qed.

Lemma in_flight_run id deadline events st :
  wf st -> in_flight id deadline st -> Forall (undisturbed id) events ->
  in_flight id deadline (run ToString events st).
Proof.
  revert st. induction events as [|e events IH]; intros st Hwf H Hq; simpl; [done|].
  inversion Hq as [|? ? He Hq']; subst.
  apply IH; [by apply wf_step|by apply in_flight_step|done].
Qed.

Lemma sendRequest_in_flight method params st id st1 :
  wf st -> sendRequest method params st = (Returned id, st1) ->
  pendingRequests st1 !! id = Some {| promise := id |} /\
  in_flight id (clock st1 + TIMEOUT) st1.
Proof.
  intros Hwf Hsend.
  destruct (sendRequest_cases method params st) as [[e He]|Hok]; [congruence|].
  rewrite Hok in Hsend. injection Hsend as <- <-. simpl.
  split; [apply lookup_insert_eq|].
  split; simpl; [lia|]. left. unfold TIMEOUT. split; [lia|]. split.
  - apply elem_of_app. right. by apply list_elem_of_singleton.
  - split; simpl; [apply lookup_insert_eq|].
    destruct (promises st !! (messageId st + 1)) as [o|] eqn:E; [|done].
    apply (wf_promises _ Hwf) in E. lia.
Qed.

(** C8, as the code has it. A request is sent from any state the client
    can reach, and its id is in the pending map.  If, until 30 seconds have
    passed, no response carries that id, the child does not exit and the
    write of the request does not fail, then the request's promise is
    rejected with "MCP request timeout" and its entry has left the pending
    map; and from then on, whatever happens, a response that carries this
    id changes nothing: [handleMessage] returns the state it was given. *)
Theorem request_times_out
    (before : list Event) (method : string) (params : JsValue)
    (id : Z) (st1 : Client) (events : list Event) :
  sendRequest method params (run ToString before initial) = (Returned id, st1) ->
  Forall (undisturbed id) events ->
  clock st1 + TIMEOUT <= clock (run ToString events st1) ->
  let st2 := run ToString events st1 in
  pendingRequests st1 !! id = Some {| promise := id |} /\
  promises st2 !! id = Some (Rejected "MCP request timeout") /\
  pendingRequests st2 !! id = None /\
  forall (later : list Event) (message : JsValue),
    answers id message ->
    handleMessage ToString message (run ToString later st2) = run ToString later st2 /\
    promises (run ToString later st2) !! id = Some (Rejected "MCP request timeout").
Proof.
  intros Hsend Hquiet Hclock st2.
  pose proof (wf_run before initial wf_initial) as Hwf.
  destruct (sendRequest_in_flight _ _ _ _ _ Hwf Hsend) as [Hp Hflight].
  assert (wf st1) as Hwf1.
  { pose proof (wf_sendRequest method params _ Hwf) as H. by rewrite Hsend in H. }
  pose proof (in_flight_run id _ events st1 Hwf1 Hflight Hquiet) as [Hid Hor].
  fold st2 in Hid, Hor, Hclock.
  destruct Hor as [(Hlt & _)|Hdone]; [lia|].
  split; [done|]. destruct Hdone as [Hs Hnone]. split; [done|]. split; [done|].
  intros later message Hans.
  destruct (timed_out_run id later st2 Hid (conj Hs Hnone)) as [_ [Hs' Hp']].
  split; [|done]. by eapply handleMessage_unknown.
Qed.

(** C9. When the child's exit event arrives, in whatever state the client
    is, the process handle becomes null, the pending map becomes empty,
    and every promise that had an entry in the map is rejected with
    "MCP server exited", while promises settled earlier keep their
    outcome; after that [start] spawns a fresh child, and the next
    [callTool] sends its request to it. *)
Theorem exit_rejects_pending (events : list Event) :
  let st := run ToString events initial in
  let st' := on_exit st in
  process st' = None /\
  pendingRequests st' = ∅ /\
  (forall k h, pendingRequests st !! k = Some h ->
     promises st !! k = None /\
     promises st' !! k = Some (Rejected "MCP server exited")) /\
  (forall k o, promises st !! k = Some o -> promises st' !! k = Some o) /\
  (forall child, process (snd (start child st')) = Some child) /\
  (forall pid name args,
     let child := {| pid := pid; stdin := true; stdout := true |} in
     exists st'',
       callTool child name args st' = (Returned (messageId st + 1), st'') /\
       process st'' = Some child /\
       dom (pendingRequests st'') = {[ messageId st + 1 ]}).
Proof.
  intros st st'.
  pose proof (wf_run events initial wf_initial) as Hwf. fold st in Hwf.
  split; [done|]. split; [done|]. split; [|split; [|split]].
  - intros k h Hk. split; [by eapply wf_unsettled|].
    unfold st'. simpl.
    pose proof (wf_handle _ Hwf _ _ Hk) as Hh.
    rewrite <- Hh.
    apply (reject_all_hits _ _ _ (k, h)).
    + by apply elem_of_map_to_list.
    + simpl. rewrite Hh. by eapply wf_unsettled.
  - intros k o Hk. by apply reject_all_keeps.
  - intros child. unfold start. simpl.
    by destruct (negb (stdout child) || negb (stdin child)).
  - intros pid name args child. eexists. split; [reflexivity|]. simpl.
    split; [done|]. by rewrite insert_empty, dom_singleton_L.
Qed.

End Bridge.

Lemma response_answers (id : Z) (text : string) :
  MCPClient.answers id (Examples.response id text).
Proof.
  exists (Js.JNumber (inject_Z id)). split; [reflexivity|].
  unfold MCPClient.key_of, Qfloor, inject_Z. rewrite Z.div_1_r.
  by rewrite Qeq_bool_refl.
Qed.

Lemma response_other (id k : Z) (text : string) :
  k <> id -> ~ MCPClient.answers id (Examples.response k text).
Proof.
  intros Hne (idv & Hid & Hk). injection Hid as <-.
  unfold MCPClient.key_of, Qfloor, inject_Z in Hk. rewrite Z.div_1_r in Hk.
  rewrite Qeq_bool_refl in Hk. congruence.
Qed.

Lemma request_times_out_witness :
  let st1 :=
    snd (MCPClient.sendRequest "tools/list" (Js.JObject [])
           (MCPClient.run Examples.to_string [MCPClient.Start Examples.child]
              MCPClient.initial)) in
  let st2 :=
    MCPClient.run Examples.to_string
      [ MCPClient.Tick 12000; Examples.list_tools;
        MCPClient.Message (Examples.response 2 "tools");
        MCPClient.WriteDone 1 None; MCPClient.Tick 18000 ] st1 in
  MCPClient.promises st2 !! 1 = Some (MCPClient.Rejected "MCP request timeout") /\
  MCPClient.pendingRequests st2 !! 1 = None /\
  MCPClient.handleMessage Examples.to_string (Examples.response 1 "late")
    (MCPClient.run Examples.to_string [Examples.list_tools] st2)
  = MCPClient.run Examples.to_string [Examples.list_tools] st2.
Proof.
  intros st1 st2.
  assert (Forall (MCPClient.undisturbed 1)
            [ MCPClient.Tick 12000; Examples.list_tools;
              MCPClient.Message (Examples.response 2 "tools");
              MCPClient.WriteDone 1 None; MCPClient.Tick 18000 ]) as Hquiet.
  { repeat constructor. by apply response_other. }
  destruct (request_times_out Examples.to_string
              [MCPClient.Start Examples.child] "tools/list" (Js.JObject [])
              1 st1 _ eq_refl Hquiet)
    as (_ & Hs & Hp & Hlater).
  { vm_compute. discriminate. }
  split; [exact Hs|]. split; [exact Hp|].
  apply (Hlater [Examples.list_tools]). apply response_answers.
Defined.

(** C8, as the claim words it, fails when the child exits during the wait:
    no response ever carries the id and 30 seconds pass, yet the promise
    has been rejected with "MCP server exited", not with a timeout. *)
Lemma exit_preempts_timeout :
  let st1 :=
    snd (MCPClient.sendRequest "tools/list" (Js.JObject [])
           (MCPClient.run Examples.to_string [MCPClient.Start Examples.child]
              MCPClient.initial)) in
  let events := [ MCPClient.Tick 1000; MCPClient.Exit; MCPClient.Tick 29000 ] in
  let st2 := MCPClient.run Examples.to_string events st1 in
  MCPClient.pendingRequests st1 !! 1 = Some {| MCPClient.promise := 1 |} /\
  Forall (MCPClient.unanswered 1) events /\
  MCPClient.clock st1 + MCPClient.TIMEOUT <= MCPClient.clock st2 /\
  MCPClient.promises st2 !! 1 = Some (MCPClient.Rejected "MCP server exited") /\
  MCPClient.promises st2 !! 1 <> Some (MCPClient.Rejected "MCP request timeout").
Proof.
  intros st1 events st2.
  assert (MCPClient.promises st2 !! 1 = Some (MCPClient.Rejected "MCP server exited"))
    as Hs by (vm_compute; reflexivity).
  split; [vm_compute; reflexivity|].
  split; [repeat constructor|].
  split; [vm_compute; discriminate|].
  split; [exact Hs|]. rewrite Hs. discriminate.
Qed.

Lemma exit_rejects_pending_witness :
  let st :=
    MCPClient.run Examples.to_string
      [ MCPClient.Start Examples.child; Examples.list_tools; Examples.list_tools;
        MCPClient.Message (Examples.response 1 "tools") ]
      MCPClient.initial in
  MCPClient.promises (MCPClient.on_exit st) !! 2
  = Some (MCPClient.Rejected "MCP server exited") /\
  MCPClient.promises (MCPClient.on_exit st) !! 1
  = Some (MCPClient.Resolved (Js.JString "tools")).
Proof.
  intros st.
  destruct (exit_rejects_pending Examples.to_string
              [ MCPClient.Start Examples.child; Examples.list_tools; Examples.list_tools;
                MCPClient.Message (Examples.response 1 "tools") ])
    as (_ & _ & Hpending & Hsettled & _).
  split.
  - apply (Hpending 2 {| MCPClient.promise := 2 |}). vm_compute. reflexivity.
  - apply Hsettled. vm_compute. reflexivity.
Defined.


(** * Further properties *)

(** ** The point-of-interest gateway beyond failures *)

Section GatewayRuns.
Import Js DataGovSg Gateway.

Variable ToString : JsValue -> completion string.

Lemma get_defined (v : JsValue) (k : string) :
  defined v -> get v k = Returned (prop v k).
Proof.
  intros [H1 H2]. unfold prop. by destruct v.
Qed.

Lemma get_returns_defined (v x : JsValue) (k : string) :
  get v k = Returned x -> defined v /\ x = prop v k.
Proof.
  intros H. unfold prop. rewrite H. split; [|done].
  by destruct v; split.
Qed.

Lemma index_returns_defined (v x : JsValue) (i : nat) :
  index v i = Returned x -> defined v.
Proof. intros H. by destruct v; split. Qed.

Lemma index_defined (v : JsValue) (i : nat) :
  defined v -> exists x, index v i = Returned x.
Proof. intros [H1 H2]. destruct v; simpl; eauto; done. Qed.

Lemma fetch_body_delivers (w : World) (items : list JsValue) :
  delivers w items -> fetch_body ToString w = mapM (parseFeature ToString) items.
Proof.
  intros (s1 & pollData & s2 & geojson & Hpoll & Hd1 & Hd2 & Hdown & Hfeat).
  unfold fetch_body. rewrite Hpoll, Hdown. simpl.
  rewrite (get_defined _ _ Hd1). simpl.
  rewrite (get_defined _ _ Hd2). simpl.
  by rewrite Hfeat.
Qed.

(** X1. When the cache is missing or expired and both requests succeed
    with features that all parse, the call returns one entry per feature,
    in feed order, each the parse of its feature, and the cache becomes
    exactly that collection, stamped with the time of the refresh. *)
Theorem fetchHawkerCentres_refresh (w : World) (c : Cache) (items : list JsValue) :
  expired (now_check w) c ->
  delivers w items ->
  Forall (fun item => exists h, parseFeature ToString item = Returned h) items ->
  exists hawkers,
    fetchHawkerCentres ToString w c
    = (Returned hawkers,
       {| cachedHawkers := Some hawkers; cacheTimestamp := now_stamp w |}) /\
    Forall2 (fun item h => parseFeature ToString item = Returned h) items hawkers /\
    length hawkers = length items.
Proof.
  intros Hexp Hdel Hall.
  destruct (mapM_all _ _ Hall) as [hawkers Hm].
  exists hawkers.
  pose proof (mapM_returned _ _ _ Hm) as H2.
  split; [|split; [done|symmetry; by eapply Forall2_length]].
  unfold fetchHawkerCentres. rewrite (fetch_body_delivers w items Hdel), Hm.
  destruct (cachedHawkers c) as [cached|] eqn:Hc; [|done].
  specialize (Hexp cached Hc).
  destruct (Z.ltb_spec (now_check w - cacheTimestamp c) CACHE_DURATION); [lia|done].
Qed.

(** X2. After a refresh that succeeded, every call made less than 24 hours
    after the stamp returns the same collection and leaves the cache as it
    is, whatever the network would answer. *)
Theorem fetchHawkerCentres_cache_hit
    (w1 w2 : World) (c : Cache) (hawkers : list Hawker.t) :
  expired (now_check w1) c ->
  fetch_body ToString w1 = Returned hawkers ->
  now_check w2 - now_stamp w1 < CACHE_DURATION ->
  let c1 := snd (fetchHawkerCentres ToString w1 c) in
  fetchHawkerCentres ToString w2 c1 = (Returned hawkers, c1).
Proof.
  intros Hexp Hbody Hfresh c1.
  assert (c1 = {| cachedHawkers := Some hawkers; cacheTimestamp := now_stamp w1 |})
    as ->.
  { unfold c1, fetchHawkerCentres. rewrite Hbody.
    destruct (cachedHawkers c) as [cached|] eqn:Hc; [|done].
    specialize (Hexp cached Hc).
    destruct (Z.ltb_spec (now_check w1 - cacheTimestamp c) CACHE_DURATION); [lia|done]. }
  unfold fetchHawkerCentres. simpl.
  destruct (Z.ltb_spec (now_check w2 - now_stamp w1) CACHE_DURATION); [done|lia].
Qed.

(** X3. A refresh is all or nothing: if a single feature of the payload
    cannot be parsed, no entry of that payload is used; the call returns
    the cached collection, or the empty one without a cache, and the cache
    stays as it was. *)
Theorem fetchHawkerCentres_bad_feature
    (w : World) (c : Cache) (s : string) (geojson : JsValue)
    (items : list JsValue) (item : JsValue) (e : JsError) :
  download w = Response true s (Returned geojson) ->
  get geojson "features" = Returned (JArray items) ->
  In item items ->
  parseFeature ToString item = Threw e ->
  fetchHawkerCentres ToString w c = (Returned (default [] (cachedHawkers c)), c).
Proof.
  intros Hdown Hfeat Hin Hbad.
  assert (exists e', fetch_body ToString w = Threw e') as [e' He'].
  { unfold fetch_body.
    destruct (fetch_json (poll w) _) as [pollData|e1]; simpl; [|eauto].
    destruct (get pollData "data") as [data|e2]; simpl; [|eauto].
    destruct (get data "url") as [url|e3]; simpl; [|eauto].
    rewrite Hdown. simpl. rewrite Hfeat. simpl.
    by eapply mapM_threw. }
  unfold fetchHawkerCentres. rewrite He'.
  destruct (cachedHawkers c) as [cached|]; simpl; [|done].
  destruct (_ <? CACHE_DURATION); [done|]. by destruct cached.
Qed.

(** X4. [parseFeature] returns exactly when the feature, its [properties],
    its [geometry] and the geometry's [coordinates] are neither [null] nor
    [undefined], and the block number and the street name, which the
    address is made of, can be converted to strings; every other property
    may be missing. *)
Theorem parseFeature_returns_iff (feature : JsValue) :
  (exists h, parseFeature ToString feature = Returned h) <->
  defined feature /\
  defined (prop feature "properties") /\
  (exists block,
      to_string ToString (prop (prop feature "properties") "ADDRESSBLOCKHOUSENUMBER")
      = Returned block) /\
  (exists street,
      to_string ToString (prop (prop feature "properties") "ADDRESSSTREETNAME")
      = Returned street) /\
  defined (prop feature "geometry") /\
  defined (prop (prop feature "geometry") "coordinates").
Proof.
  split.
  - intros [h H]. unfold parseFeature in H.
    apply bind_returned in H as (properties & Hp & H).
    apply bind_returned in H as (NAME & Hn & H).
    apply bind_returned in H as (block & Hb & H).
    apply bind_returned in H as (block_text & Hbt & H).
    apply bind_returned in H as (street & Hs & H).
    apply bind_returned in H as (street_text & Hst & H).
    apply bind_returned in H as (postal & _ & H).
    apply bind_returned in H as (geometry & Hg & H).
    apply bind_returned in H as (coordinates & Hc & H).
    apply bind_returned in H as (lat & Hlat & H).
    apply get_returns_defined in Hp as [Hf ->].
    apply get_returns_defined in Hn as [Hpd _].
    apply get_returns_defined in Hb as [_ ->].
    apply get_returns_defined in Hs as [_ ->].
    apply get_returns_defined in Hg as [_ ->].
    apply get_returns_defined in Hc as [Hgd ->].
    apply index_returns_defined in Hlat.
    eauto 10.
  - intros (Hf & Hp & [block Hb] & [street Hs] & Hg & Hc). unfold parseFeature.
    rewrite (get_defined _ "properties" Hf). simpl.
    rewrite (get_defined _ "NAME" Hp). simpl.
    rewrite (get_defined _ "ADDRESSBLOCKHOUSENUMBER" Hp). simpl.
    rewrite Hb. simpl.
    rewrite (get_defined _ "ADDRESSSTREETNAME" Hp). simpl.
    rewrite Hs. simpl.
    rewrite (get_defined _ "ADDRESSPOSTALCODE" Hp). simpl.
    rewrite (get_defined _ "geometry" Hf). simpl.
    rewrite (get_defined _ _ Hg). simpl.
    destruct (index_defined _ 1 Hc) as [lat ->]. simpl.
    destruct (index_defined _ 0 Hc) as [lon ->]. simpl.
    do 4 (rewrite (get_defined _ _ Hp); simpl).
    eauto.
Qed.

End GatewayRuns.

(** ** The closures gateway *)

Section ClosuresGateway.
Import Js DataGovSg DataGovSgClosures.

(** X7. When the closures fetch fails and the cache is missing or older
    than an hour, the call returns the empty collection even if older
    records are cached: stale closures are never served.  The cache itself
    is left as it was. *)
Theorem fetchHawkerClosures_failure (w : World) (c : Cache) :
  expired (now_check w) c ->
  fetch_failed (response w) ->
  fetchHawkerClosures w c = (Returned [], c).
Proof.
  intros Hexp Hfail.
  destruct (fetch_json_failed _ "Failed to fetch closures: " Hfail) as [e He].
  unfold fetchHawkerClosures, fetch_body. rewrite He. simpl.
  destruct (cachedClosures c) as [cached|] eqn:Hc; [|done].
  specialize (Hexp cached Hc).
  destruct (Z.ltb_spec (now_check w - closureCacheTimestamp c) CLOSURE_CACHE_DURATION);
    [lia|done].
Qed.

(** X8. After a refresh of the closures that succeeded, every call made
    less than one hour after the stamp returns the same records and leaves
    the cache as it is, whatever the network would answer. *)
Theorem fetchHawkerClosures_cache_hit
    (w1 w2 : World) (c : Cache) (closures : list ClosureRecord.t) :
  expired (now_check w1) c ->
  fetch_body w1 = Returned closures ->
  now_check w2 - now_stamp w1 < CLOSURE_CACHE_DURATION ->
  let c1 := snd (fetchHawkerClosures w1 c) in
  fetchHawkerClosures w2 c1 = (Returned closures, c1).
Proof.
  intros Hexp Hbody Hfresh c1.
  assert (c1 = {| cachedClosures := Some closures;
                  closureCacheTimestamp := now_stamp w1 |}) as ->.
  { unfold c1, fetchHawkerClosures. rewrite Hbody.
    destruct (cachedClosures c) as [cached|] eqn:Hc; [|done].
    specialize (Hexp cached Hc).
    destruct (Z.ltb_spec (now_check w1 - closureCacheTimestamp c) CLOSURE_CACHE_DURATION);
      [lia|done]. }
  unfold fetchHawkerClosures. simpl.
  destruct (Z.ltb_spec (now_check w2 - now_stamp w1) CLOSURE_CACHE_DURATION); [done|lia].
Qed.

Lemma or_else_defined (v d : JsValue) : Gateway.defined d -> Gateway.defined (or_else v d).
Proof.
  intros Hd. unfold or_else. destruct (truthy v) eqn:E; [|done].
  by destruct v; split.
Qed.

(** X9. A record of the closures feed is parsed exactly when it is neither
    [null] nor [undefined], and no field of a parsed record is [null] or
    [undefined]: a missing or falsy name, quarter or date becomes the empty
    string and a missing or falsy reason becomes "Scheduled closure". *)
Theorem parseRecord_defined (record : JsValue) :
  ((exists r, parseRecord record = Returned r) <-> Gateway.defined record) /\
  (forall r, parseRecord record = Returned r ->
     Gateway.defined (ClosureRecord.name r) /\
     Gateway.defined (ClosureRecord.quarter r) /\
     Gateway.defined (ClosureRecord.closureDates r) /\
     Gateway.defined (ClosureRecord.reason r) /\
     (truthy (Gateway.prop record "name") = false ->
        ClosureRecord.name r = JString "") /\
     (truthy (Gateway.prop record "reason") = false ->
        ClosureRecord.reason r = JString "Scheduled closure")).
Proof.
  split; [split|].
  - intros [r H]. unfold parseRecord in H.
    apply bind_returned in H as (n & Hn & _).
    by apply get_returns_defined in Hn as [Hd _].
  - intros Hd. unfold parseRecord.
    do 4 (rewrite (get_defined _ _ Hd); simpl). eauto.
  - intros r H. unfold parseRecord in H.
    apply bind_returned in H as (n & Hn & H).
    apply bind_returned in H as (q & Hq & H).
    apply bind_returned in H as (d & Hd & H).
    apply bind_returned in H as (x & Hx & H).
    apply get_returns_defined in Hn as [_ ->].
    apply get_returns_defined in Hx as [_ ->].
    injection H as <-. simpl.
    repeat split; try (apply or_else_defined; by split);
      intros Hf; unfold or_else; by rewrite Hf.
Qed.

End ClosuresGateway.

(** ** Ranking beyond the bounds *)

Section RankingMore.
Import Js.

Variable calculateDistance : JsValue -> JsValue -> JsValue -> JsValue -> completion Num.
Variable ToNumber : JsValue -> completion Num.
Variable ToString : JsValue -> completion string.
Variable numToString : Num -> string.

Lemma filterM_all {A} (p : A -> completion bool) (l : list A) :
  Forall (fun x => p x = Returned true) l -> filterM p l = Returned l.
Proof.
  induction 1 as [|x l Hx Hl IH]; simpl; [done|]. by rewrite Hx, IH.
Qed.

Lemma filterM_none {A} (p : A -> completion bool) (l : list A) :
  Forall (fun x => p x = Returned false) l -> filterM p l = Returned [].
Proof.
  induction 1 as [|x l Hx Hl IH]; simpl; [done|]. by rewrite Hx, IH.
Qed.

(** The distance of a ranked candidate is the one computed for its entry. *)
Lemma ranked_distance userLat userLon hawkers ranked r :
  Distance.sortByDistance calculateDistance userLat userLon hawkers = Returned ranked ->
  In r ranked ->
  In (Distance.source_of r) hawkers /\
  calculateDistance userLat userLon
    (Hawker.latitude (Distance.source_of r)) (Hawker.longitude (Distance.source_of r))
  = Returned (HawkerWithDistance.distance r).
Proof.
  intros H Hin. apply sortByDistance_perm in H as [Hperm Hall].
  split.
  - eapply Permutation_in; [exact Hperm|]. by apply in_map.
  - eapply List.Forall_forall in Hall; [|exact Hin]. apply Hall.
Qed.

(** Without a NaN among the computed distances the ranking is in
    non-decreasing order of distance. *)
Lemma sortByDistance_sorted userLat userLon hawkers ranked :
  Forall
    (fun h =>
       calculateDistance userLat userLon (Hawker.latitude h) (Hawker.longitude h)
       <> Returned NaN)
    hawkers ->
  Distance.sortByDistance calculateDistance userLat userLon hawkers = Returned ranked ->
  StronglySorted Distance.by_distance ranked.
Proof.
  intros Hreal Hranked.
  apply sortByDistance_returned in Hranked as (unsorted & _ & Hsrc & Hall & ->).
  apply (sort_sorted HawkerWithDistance.distance).
  apply List.Forall_forall. intros y Hy Hnan.
  eapply List.Forall_forall in Hall; [|exact Hy]. destruct Hall as [Hd _].
  apply (proj1 (List.Forall_forall _ _) Hreal (Distance.source_of y)).
  - rewrite <- Hsrc. by apply in_map.
  - rewrite <- Hnan. exact Hd.
Qed.

(** X10. When the distance of every entry of the collection can be computed
    and is at most the radius, and the limit is at least the size of the
    collection, the nearby search returns all of them: as many candidates
    as entries, and, forgetting the distances, a permutation of the
    collection. *)
Theorem nearby_returns_all
    (q : NearbyHawkers.Query) (allHawkers : list Hawker.t) (radius limit : Num) :
  to_number ToNumber (NearbyHawkers.radius q) = Returned radius ->
  to_number ToNumber (NearbyHawkers.limit q) = Returned limit ->
  Forall
    (fun h => exists d,
       calculateDistance (NearbyHawkers.latitude q) (NearbyHawkers.longitude q)
         (Hawker.latitude h) (Hawker.longitude h) = Returned d /\
       num_le d radius = true)
    allHawkers ->
  num_le (count allHawkers) limit = true ->
  exists found,
    NearbyHawkers.nearby calculateDistance ToNumber q allHawkers = Returned found /\
    length found = length allHawkers /\
    Permutation (map Distance.source_of found) allHawkers.
Proof.
  intros Hradius Hlimit Hall Hcount.
  destruct (proj2 (sortByDistance_returns_iff calculateDistance
              (NearbyHawkers.latitude q) (NearbyHawkers.longitude q) allHawkers))
    as [ranked Hranked].
  { eapply Forall_impl; [exact Hall|]. intros h (d & Hd & _). eauto. }
  pose proof (sortByDistance_perm _ _ _ _ _ Hranked) as [Hperm _].
  assert (length ranked = length allHawkers) as Hlen.
  { rewrite <- (length_map Distance.source_of). by apply Permutation_length. }
  exists ranked. split; [|by split].
  unfold NearbyHawkers.nearby. rewrite Hranked. simpl.
  rewrite filterM_all.
  - simpl. rewrite Hlimit. simpl. f_equal. apply slice0_all.
    unfold count in *. by rewrite Hlen.
  - apply List.Forall_forall. intros r Hr.
    destruct (ranked_distance _ _ _ _ _ Hranked Hr) as [Hin Hd].
    eapply List.Forall_forall in Hall; [|exact Hin].
    destruct Hall as (d & Hd' & Hle). rewrite Hd in Hd'. injection Hd' as <-.
    unfold NearbyHawkers.within_radius. rewrite Hradius. simpl. by rewrite Hle.
Qed.

(** X11. When no computed distance is NaN, the candidates returned are the
    nearest ones: a ranked entry that lies within the radius but is not
    returned is at least as far from the query point as every candidate
    that is returned. *)
Theorem nearby_keeps_nearest
    (q : NearbyHawkers.Query) (allHawkers : list Hawker.t)
    (ranked found : list HawkerWithDistance.t) (radius : Num)
    (r x : HawkerWithDistance.t) :
  Forall
    (fun h =>
       calculateDistance (NearbyHawkers.latitude q) (NearbyHawkers.longitude q)
         (Hawker.latitude h) (Hawker.longitude h) <> Returned NaN)
    allHawkers ->
  Distance.sortByDistance calculateDistance
    (NearbyHawkers.latitude q) (NearbyHawkers.longitude q) allHawkers = Returned ranked ->
  NearbyHawkers.nearby calculateDistance ToNumber q allHawkers = Returned found ->
  to_number ToNumber (NearbyHawkers.radius q) = Returned radius ->
  In r ranked ->
  num_le (HawkerWithDistance.distance r) radius = true ->
  ~ In r found ->
  In x found ->
  num_le (HawkerWithDistance.distance x) (HawkerWithDistance.distance r) = true.
Proof.
  intros Hreal Hranked Hfound Hradius Hr Hrad Hout Hx.
  apply nearby_returned in Hfound as (ranked' & n & Hranked' & Hb & Hn & ->).
  rewrite Hranked in Hranked'. injection Hranked' as <-.
  set (within := List.filter _ ranked) in *.
  destruct (slice0_take within n) as [k Hk].
  rewrite Hk in Hout, Hx.
  assert (In r within) as Hin.
  { apply List.filter_In. split; [done|].
    unfold NearbyHawkers.within_radius. rewrite Hradius. simpl. exact Hrad. }
  assert (StronglySorted Distance.by_distance (take k within ++ drop k within)) as Hs.
  { rewrite take_drop. apply (filter_sorted HawkerWithDistance.distance).
    by eapply sortByDistance_sorted. }
  rewrite <- (take_drop k within) in Hin.
  apply in_app_or in Hin as [Hin|Hin]; [done|].
  exact (sorted_app_le HawkerWithDistance.distance _ _ _ _ Hs Hx Hin).
Qed.

(** X12. For arguments that are an object, coordinates and a radius that can
    be written into the log line, and a limit that is a number: when the
    distance of every entry of the collection can be computed and none is
    at most the radius (an empty collection included), the tool returns
    the one sentence "No Hawker centres found within <radius>m of your
    location."; and the radius is 2000 when the arguments leave it out. *)
Theorem getNearbyHawkersTool_none
    (args : JsValue) (q : NearbyHawkers.Query) (allHawkers : list Hawker.t)
    (shown : string) (limit : Num) :
  NearbyHawkers.destructure args = Returned q ->
  (exists text, to_string ToString (NearbyHawkers.latitude q) = Returned text) ->
  (exists text, to_string ToString (NearbyHawkers.longitude q) = Returned text) ->
  to_string ToString (NearbyHawkers.radius q) = Returned shown ->
  to_number ToNumber (NearbyHawkers.limit q) = Returned limit ->
  Forall
    (fun h => exists d radius,
       calculateDistance (NearbyHawkers.latitude q) (NearbyHawkers.longitude q)
         (Hawker.latitude h) (Hawker.longitude h) = Returned d /\
       to_number ToNumber (NearbyHawkers.radius q) = Returned radius /\
       num_le d radius = false)
    allHawkers ->
  NearbyHawkers.getNearbyHawkersTool calculateDistance ToNumber ToString numToString
    args allHawkers
  = Returned (text_result (NearbyHawkers.none_text shown)) /\
  (get args "radius" = Returned JUndefined -> NearbyHawkers.radius q = JNumber 2000).
Proof.
  intros Hq [lat Hlat] [lon Hlon] Hshown Hlimit Hall. split.
  - unfold NearbyHawkers.getNearbyHawkersTool. rewrite Hq. simpl.
    rewrite Hlat. simpl. rewrite Hlon. simpl. rewrite Hshown. simpl.
    destruct (proj2 (sortByDistance_returns_iff calculateDistance
                (NearbyHawkers.latitude q) (NearbyHawkers.longitude q) allHawkers))
      as [ranked Hranked].
    { eapply Forall_impl; [exact Hall|]. intros h (d & _ & Hd & _). eauto. }
    unfold NearbyHawkers.nearby. rewrite Hranked. simpl.
    rewrite filterM_none.
    + simpl. rewrite Hlimit. simpl.
      destruct (slice0_take (@nil HawkerWithDistance.t) limit) as [k ->].
      by rewrite take_nil.
    + apply List.Forall_forall. intros r Hr.
      destruct (ranked_distance _ _ _ _ _ Hranked Hr) as [Hin Hd].
      eapply List.Forall_forall in Hall; [|exact Hin].
      destruct Hall as (d & radius & Hd' & Hradius & Hle).
      rewrite Hd in Hd'. injection Hd' as <-.
      unfold NearbyHawkers.within_radius. rewrite Hradius. simpl. by rewrite Hle.
  - intros Hradius. unfold NearbyHawkers.destructure in Hq.
    apply bind_returned in Hq as (latitude & _ & Hq).
    apply bind_returned in Hq as (longitude & _ & Hq).
    apply bind_returned in Hq as (radius & Hr & Hq).
    apply bind_returned in Hq as (lim & _ & Hq).
    rewrite Hradius in Hr. injection Hr as <-. by injection Hq as <-.
Qed.

(** X13. When the distance of every entry can be computed and none is NaN,
    ties keep the order of the collection: among the ranked candidates
    that lie at one and the same distance, the order is the one their
    entries have in the input. *)
Theorem sortByDistance_ties
    (userLat userLon : JsValue) (d : Num) (hawkers : list Hawker.t)
    (ranked : list HawkerWithDistance.t) :
  Forall
    (fun h =>
       calculateDistance userLat userLon (Hawker.latitude h) (Hawker.longitude h)
       <> Returned NaN)
    hawkers ->
  Distance.sortByDistance calculateDistance userLat userLon hawkers = Returned ranked ->
  map Distance.source_of
    (List.filter
       (fun r => num_le (HawkerWithDistance.distance r) d &&
                 num_le d (HawkerWithDistance.distance r))
       ranked)
  = List.filter
      (fun h =>
         match calculateDistance userLat userLon
                 (Hawker.latitude h) (Hawker.longitude h) with
         | Returned x => num_le x d && num_le d x
         | Threw _ => false
         end)
      hawkers.
Proof.
  intros Hreal Hranked.
  apply sortByDistance_returned in Hranked as (unsorted & _ & Hsrc & Hall & ->).
  rewrite (sort_stable HawkerWithDistance.distance).
  - subst hawkers. clear Hreal.
    induction Hall as [|r l [Hd Hspread] Hl IH]; simpl; [done|].
    change (Hawker.latitude (Distance.source_of r)) with (HawkerWithDistance.latitude r).
    change (Hawker.longitude (Distance.source_of r)) with (HawkerWithDistance.longitude r).
    rewrite Hd.
    destruct (num_le (HawkerWithDistance.distance r) d &&
              num_le d (HawkerWithDistance.distance r)); simpl; by rewrite IH.
  - apply List.Forall_forall. intros y Hy Hnan.
    eapply List.Forall_forall in Hall; [|exact Hy]. destruct Hall as [Hd _].
    apply (proj1 (List.Forall_forall _ _) Hreal (Distance.source_of y)).
    + rewrite <- Hsrc. by apply in_map.
    + rewrite <- Hnan. exact Hd.
Qed.

End RankingMore.

(** ** The sentences for no match *)

Section Sentinels.
Import Js.

Variable toLowerCase : string -> string.
Variable ToString : JsValue -> completion string.

Lemma append_empty (s : string) : s +:+ "" = s.
Proof.
  induction s as [|c s IH]; [done|].
  change (String c (s +:+ "") = String c s). by rewrite IH.
Qed.

Lemma includes_empty (s : string) : includes s "" = true.
Proof. apply includes_spec. by exists "", s. Qed.

Lemma same_within (subject : string) (v : JsValue) :
  Lookup.same toLowerCase subject v -> Lookup.within toLowerCase subject v.
Proof.
  intros (name & -> & Heq). exists name. split; [done|].
  rewrite Heq. exists "", "". by rewrite append_empty.
Qed.

(** A description never reads like the sentence for no match. *)
Lemma details_not_missing (h : Hawker.t) (subject : string) :
  (text ← Details.details_text ToString h; Returned (text_result text))
  <> Returned (text_result (Details.not_found_text subject)).
Proof.
  intros H. apply bind_returned in H as (text & Ht & H).
  unfold Details.details_text in Ht.
  do 8 (apply bind_returned in Ht as (? & _ & Ht)).
  injection Ht as <-. by injection H.
Qed.

(** X14. For a subject that is a string whose lower-case form is empty,
    every entry with a string name matches: on a non-empty collection of
    entries with string names the details tool never answers "Could not
    find"; it describes an entry of the collection, and the first one when
    no entry has an empty lower-case name. *)
Theorem getHawkerDetailsTool_empty_subject
    (args : JsValue) (subject : string) (h0 : Hawker.t) (rest : list Hawker.t) :
  get args "hawkerName" = Returned (JString subject) ->
  Forall (fun h => Lookup.is_string (Hawker.name h)) (h0 :: rest) ->
  toLowerCase subject = "" ->
  exists h,
    In h (h0 :: rest) /\
    Details.getHawkerDetailsTool toLowerCase ToString args (h0 :: rest)
    = (text ← Details.details_text ToString h; Returned (text_result text)) /\
    Details.getHawkerDetailsTool toLowerCase ToString args (h0 :: rest)
    <> Returned (text_result (Details.not_found_text subject)) /\
    (Forall (fun x => forall name, Hawker.name x = JString name -> toLowerCase name <> "")
       (h0 :: rest) -> h = h0).
Proof.
  intros Hargs Hnames Hempty.
  assert (Lookup.within toLowerCase subject (Hawker.name h0)) as Hfirst.
  { apply Forall_cons in Hnames as [[name Hname] _]. exists name. split; [done|].
    rewrite Hempty. apply includes_spec, includes_empty. }
  destruct (select_cases toLowerCase subject (h0 :: rest) Hnames)
    as [(before & h & after & Hl & Hh & Hb & Hsel)
       |[(Hnone & before & h & after & Hl & Hh & Hb & Hsel)
        |(_ & Hnone & _)]].
  - exists h.
    pose proof (getHawkerDetailsTool_found toLowerCase ToString _ _ _ _ Hargs Hsel
                  (same_is_string toLowerCase _ _ Hh)) as Hanswer.
    split; [rewrite Hl; apply in_elt|]. split; [done|].
    split; [rewrite Hanswer; apply details_not_missing|].
    intros Hall. exfalso.
    rewrite Hl in Hall. apply Forall_app in Hall as [_ Hall].
    apply Forall_cons in Hall as [Hne _].
    destruct Hh as (name & Hname & Heq). apply (Hne name Hname). congruence.
  - exists h.
    pose proof (getHawkerDetailsTool_found toLowerCase ToString _ _ _ _ Hargs Hsel
                  (within_is_string toLowerCase _ _ Hh)) as Hanswer.
    split; [rewrite Hl; apply in_elt|]. split; [done|].
    split; [rewrite Hanswer; apply details_not_missing|].
    intros _. destruct before as [|b before]; [by injection Hl|].
    exfalso. injection Hl as <- _. apply Forall_cons in Hb as [Hb _]. done.
  - exfalso. apply Forall_cons in Hnone as [Hnone _]. done.
Qed.

(** X15. For a subject that is a string and entries with string names, the
    details tool answers "Could not find details for ..." exactly when no
    entry's lower-cased name contains the lower-cased subject. *)
Theorem getHawkerDetailsTool_not_found_iff
    (args : JsValue) (subject : string) (allHawkers : list Hawker.t) :
  get args "hawkerName" = Returned (JString subject) ->
  Forall (fun h => Lookup.is_string (Hawker.name h)) allHawkers ->
  Details.getHawkerDetailsTool toLowerCase ToString args allHawkers
  = Returned (text_result (Details.not_found_text subject))
  <->
  Forall (fun h => ~ Lookup.within toLowerCase subject (Hawker.name h)) allHawkers.
Proof.
  intros Hargs Hnames.
  destruct (select_cases toLowerCase subject allHawkers Hnames)
    as [(before & h & after & Hl & Hh & Hb & Hsel)
       |[(Hnone & before & h & after & Hl & Hh & Hb & Hsel)
        |(_ & Hnone & Hsel)]].
  - rewrite (getHawkerDetailsTool_found toLowerCase ToString _ _ _ _ Hargs Hsel
               (same_is_string toLowerCase _ _ Hh)).
    split; [intros H; by apply details_not_missing in H|].
    intros Hall. exfalso. rewrite Hl in Hall.
    apply Forall_app in Hall as [_ Hall]. apply Forall_cons in Hall as [Hne _].
    by apply Hne, same_within.
  - rewrite (getHawkerDetailsTool_found toLowerCase ToString _ _ _ _ Hargs Hsel
               (within_is_string toLowerCase _ _ Hh)).
    split; [intros H; by apply details_not_missing in H|].
    intros Hall. exfalso. rewrite Hl in Hall.
    apply Forall_app in Hall as [_ Hall]. by apply Forall_cons in Hall as [Hne _].
  - by rewrite (getHawkerDetailsTool_missing toLowerCase ToString _ _ _ Hargs Hsel).
Qed.

(** X16. For a subject that is a string and records with string names, the
    closures tool answers "No scheduled closures found for ..." exactly
    when no record's lower-cased name contains the lower-cased subject. *)
Theorem getClosuresTool_none_iff
    (args : JsValue) (subject : string) (allClosures : list ClosureRecord.t) :
  get args "hawkerName" = Returned (JString subject) ->
  Forall (fun c => Lookup.is_string (ClosureRecord.name c)) allClosures ->
  Closures.getClosuresTool toLowerCase ToString args allClosures
  = Returned (text_result (Closures.no_closures_text subject))
  <->
  Forall
    (fun c => ~ Lookup.within toLowerCase subject (ClosureRecord.name c))
    allClosures.
Proof.
  intros Hargs Hnames. unfold Closures.getClosuresTool.
  rewrite Hargs. simpl. rewrite (filter_strings toLowerCase _ _ Hnames). simpl.
  destruct (Lookup.matching toLowerCase subject allClosures) as [|c l] eqn:Hm.
  - split; [|done]. intros _. apply List.Forall_forall. intros c Hc Hin.
    assert (In c (Lookup.matching toLowerCase subject allClosures)) as H.
    { by apply matching_spec. }
    by rewrite Hm in H.
  - split.
    + intros H. exfalso. change (length (c :: l) =? 0)%nat with false in H.
      apply bind_returned in H as (entries & _ & H). by injection H.
    + intros Hnone. exfalso.
      assert (In c (Lookup.matching toLowerCase subject allClosures)) as H.
      { rewrite Hm. by left. }
      apply matching_spec in H as [Hin Hc].
      eapply List.Forall_forall in Hnone; [|exact Hin]. done.
Qed.

End Sentinels.

(** ** Dispatch beyond unknown names *)

Section Dispatch.
Import Js.

Variable Args : Type.

(** X17. Whatever the handlers do, a [tools/call] request ends in a result
    or in a protocol error, never in another thrown value; a handler that
    throws an [Error] ends in InternalError with the original message after
    "Tool execution failed: ", and a result or a protocol error of a handler
    is passed on unchanged. *)
Theorem callTool_protocol_errors_only
    (nearby closures details : Args -> completion ToolResult)
    (name : string) (args : Args) :
  let answer := Server.callTool Args nearby closures details name args in
  let routed := Server.route Args nearby closures details name args in
  ((exists r, answer = Returned r) \/
   (exists code message, answer = Threw (McpError code message))) /\
  (forall message, routed = Threw (Error message) ->
     answer = Threw (McpError InternalError ("Tool execution failed: " +:+ message))) /\
  (forall r, routed = Returned r -> answer = Returned r) /\
  (forall code message, routed = Threw (McpError code message) ->
     answer = Threw (McpError code message)).
Proof.
  intros answer routed. unfold answer, Server.callTool. fold routed.
  destruct routed as [r|[code message|message|repr]]; split; eauto;
    repeat split; congruence.
Qed.

(** X18. The tools that [tools/list] declares are exactly the names that
    [tools/call] serves: with handlers that return, a call ends in a result
    if and only if its name is declared. *)
Theorem declared_tools_are_served
    (nearby closures details : Args -> ToolResult) (name : string) (args : Args) :
  name ∈ map Registry.name Registry.listTools <->
  exists r,
    Server.callTool Args
      (fun a => Returned (nearby a)) (fun a => Returned (closures a))
      (fun a => Returned (details a)) name args
    = Returned r.
Proof.
  unfold Server.callTool, Server.route. simpl.
  destruct (String.eqb_spec name "get_nearby_hawkers") as [->|H1].
  { split; [eauto|]. intros _. set_solver. }
  destruct (String.eqb_spec name "check_hawker_closures") as [->|H2].
  { split; [eauto|]. intros _. set_solver. }
  destruct (String.eqb_spec name "get_hawker_details") as [->|H3].
  { split; [eauto|]. intros _. set_solver. }
  split; [|by intros [r H]].
  intros H. repeat (apply elem_of_cons in H as [H|H]; [done|]).
  by apply elem_of_nil in H.
Qed.

End Dispatch.

(** ** The client bridge beyond timeouts and exits *)

Section BridgeMore.
Import Js MCPClient ClientSpec.

Variable ToString : JsValue -> string.

Lemma handleMessage_target (message : JsValue) (st : Client) :
  handleMessage ToString message st =
  match target message st with
  | None => st
  | Some (k, h) =>
      {| process := process st; messageId := messageId st;
         pendingRequests := delete k (pendingRequests st);
         promises := settle (promise h) (outcome ToString message) (promises st);
         written := written st; writes := writes st; timers := timers st;
         clock := clock st |}
  end.
Proof.
  unfold handleMessage, target, outcome, Gateway.prop.
  destruct (get message "id") as [idv|e] eqn:Hid; [|done].
  destruct (key_of idv) as [k|] eqn:Hk; simpl; [|by destruct idv].
  destruct (pendingRequests st !! k) as [h|] eqn:Hp; simpl; [|by destruct idv].
  by destruct idv.
Qed.

Lemma target_answers (message : JsValue) (st : Client) (k : Z) (h : Handle) :
  target message st = Some (k, h) <->
  answers k message /\ pendingRequests st !! k = Some h.
Proof.
  unfold target, answers. split.
  - destruct (get message "id") as [idv|e]; [|done].
    destruct (key_of idv) as [k'|] eqn:Hk; simpl; [|done].
    destruct (pendingRequests st !! k') as [h'|] eqn:Hp; simpl; [|done].
    intros [= <- <-]. eauto.
  - intros [(idv & -> & Hk) Hp]. rewrite Hk. simpl. by rewrite Hp.
Qed.


Lemma settle_comm (p1 p2 : Z) (o1 o2 : Settled) (ps : gmap Z Settled) :
  p1 <> p2 ->
  settle p1 o1 (settle p2 o2 ps) = settle p2 o2 (settle p1 o1 ps).
Proof.
  intros Hne. apply map_eq. intros k. rewrite !settle_lookup.
  destruct (ps !! k); [done|].
  repeat case_decide; congruence.
Qed.

(** X20. Responses to different requests may arrive in either order: from
    any state the client can reach, handling two messages that do not
    answer the same id gives the same state whichever comes first. *)
Theorem handleMessage_commute (events : list Event) (m1 m2 : JsValue) :
  let st := run ToString events initial in
  (forall k, answers k m1 -> answers k m2 -> False) ->
  handleMessage ToString m1 (handleMessage ToString m2 st)
  = handleMessage ToString m2 (handleMessage ToString m1 st).
Proof.
  intros st Hdiff.
  pose proof (wf_run ToString events initial wf_initial) as Hwf. fold st in Hwf.
  rewrite (handleMessage_target m2 st), (handleMessage_target m1 st).
  destruct (target m1 st) as [[k1 h1]|] eqn:H1;
    destruct (target m2 st) as [[k2 h2]|] eqn:H2.
  - apply target_answers in H1 as [Ha1 Hp1].
    apply target_answers in H2 as [Ha2 Hp2].
    assert (k1 <> k2) as Hne by (intros ->; eauto).
    rewrite !handleMessage_target.
    assert (target m1
              {| process := process st; messageId := messageId st;
                 pendingRequests := delete k2 (pendingRequests st);
                 promises := settle (promise h2) (outcome ToString m2) (promises st);
                 written := written st; writes := writes st; timers := timers st;
                 clock := clock st |} = Some (k1, h1)) as ->.
    { apply target_answers. split; [done|]. simpl. by rewrite lookup_delete_ne. }
    assert (target m2
              {| process := process st; messageId := messageId st;
                 pendingRequests := delete k1 (pendingRequests st);
                 promises := settle (promise h1) (outcome ToString m1) (promises st);
                 written := written st; writes := writes st; timers := timers st;
                 clock := clock st |} = Some (k2, h2)) as ->.
    { apply target_answers. split; [done|]. simpl. by rewrite lookup_delete_ne. }
    simpl. f_equal.
    + apply delete_delete.
    + apply settle_comm.
      rewrite (wf_handle _ Hwf _ _ Hp1), (wf_handle _ Hwf _ _ Hp2). done.
  - rewrite !handleMessage_target. rewrite H1.
    assert (target m2
              {| process := process st; messageId := messageId st;
                 pendingRequests := delete k1 (pendingRequests st);
                 promises := settle (promise h1) (outcome ToString m1) (promises st);
                 written := written st; writes := writes st; timers := timers st;
                 clock := clock st |} = None) as ->; [|reflexivity].
    match goal with |- ?t = None => destruct t as [[k2 h2]|] eqn:H2'; [|done] end.
    apply target_answers in H2' as [Ha2 Hp2]. simpl in Hp2.
    apply lookup_delete_Some in Hp2 as [_ Hp2].
    assert (target m2 st = Some (k2, h2)) as H by (by apply target_answers).
    congruence.
  - rewrite !handleMessage_target. rewrite H2.
    assert (target m1
              {| process := process st; messageId := messageId st;
                 pendingRequests := delete k2 (pendingRequests st);
                 promises := settle (promise h2) (outcome ToString m2) (promises st);
                 written := written st; writes := writes st; timers := timers st;
                 clock := clock st |} = None) as ->; [|reflexivity].
    match goal with |- ?t = None => destruct t as [[k1 h1]|] eqn:H1'; [|done] end.
    apply target_answers in H1' as [Ha1 Hp1]. simpl in Hp1.
    apply lookup_delete_Some in Hp1 as [_ Hp1].
    assert (target m1 st = Some (k1, h1)) as H by (by apply target_answers).
    congruence.
  - by rewrite !handleMessage_target, H1, H2.
Qed.

End BridgeMore.

Section BridgeRuns.
Import Js MCPClient ClientSpec.

Variable ToString : JsValue -> string.

Lemma timeouts_written ids st :
  written (foldl on_timeout st ids) = written st.
Proof.
  revert st. induction ids as [|k ids IH]; intros st; simpl; [done|].
  rewrite IH. unfold on_timeout. by destruct (pendingRequests st !! k).
Qed.

Lemma ids_step st e :
  0 <= messageId st ->
  map id (written st) = ids_down_from (messageId st) ->
  0 <= messageId (step ToString st e) /\
  map id (written (step ToString st e)) = ids_down_from (messageId (step ToString st e)).
Proof.
  intros Hpos Hids. destruct e as [child|method params|message|k error|ms| |]; simpl.
  - unfold start. destruct (process st); [done|].
    by destruct (negb (stdout child) || negb (stdin child)).
  - destruct (sendRequest_cases method params st) as [[e ->]| ->]; [done|].
    simpl. split; [lia|]. rewrite Hids. unfold ids_down_from.
    rewrite (seqZ_app 1 (messageId st) 1) by lia.
    rewrite rev_app_distr. simpl. f_equal. lia.
  - rewrite handleMessage_target. by destruct (target message st) as [[k h]|].
  - unfold on_write_done. case_bool_decide; [|done]. by destruct error.
  - unfold tick. rewrite timeouts_written.
    destruct (timeouts_fields
      (map snd (List.filter (fun t => fst t <=? clock st + Z.max 0 ms) (timers st)))
      {| process := process st; messageId := messageId st;
         pendingRequests := pendingRequests st; promises := promises st;
         written := written st; writes := writes st;
         timers := List.filter (fun t => negb (fst t <=? clock st + Z.max 0 ms)) (timers st);
         clock := clock st + Z.max 0 ms |}) as (-> & _ & _).
    done.
  - done.
  - unfold stop. by destruct (process st).
Qed.

Lemma ids_run events st :
  0 <= messageId st ->
  map id (written st) = ids_down_from (messageId st) ->
  0 <= messageId (run ToString events st) /\
  map id (written (run ToString events st))
  = ids_down_from (messageId (run ToString events st)).
Proof.
  revert st. induction events as [|e events IH]; intros st H1 H2; simpl; [done|].
  destruct (ids_step st e H1 H2) as [H1' H2']. by apply IH.
Qed.

(** X21. In every state the client can reach, the requests written to the
    child carry the ids 1, 2, 3, ... in the order they were sent, without
    a gap or a repetition, and [messageId] is the id of the last one. *)
Theorem request_ids_count_up (events : list Event) :
  let st := run ToString events initial in
  map id (rev (written st)) = seqZ 1 (messageId st) /\
  NoDup (map id (written st)) /\
  Z.of_nat (length (written st)) = messageId st.
Proof.
  intros st.
  assert (0 <= messageId st /\ map id (written st) = ids_down_from (messageId st))
    as [Hpos Hids].
  { by apply ids_run. }
  split; [|split].
  - rewrite map_rev, Hids. unfold ids_down_from. apply rev_involutive.
  - rewrite Hids. unfold ids_down_from.
    rewrite <- (Permutation_rev (seqZ 1 (messageId st))). apply NoDup_seqZ.
  - rewrite <- (length_map id), Hids. unfold ids_down_from.
    rewrite length_rev, length_seqZ. lia.
Qed.

Lemma timeouts_keep ids st k o :
  promises st !! k = Some o -> promises (foldl on_timeout st ids) !! k = Some o.
Proof.
  revert st. induction ids as [|x ids IH]; intros st H; simpl; [done|].
  apply IH. unfold on_timeout. destruct (pendingRequests st !! x); [|done].
  simpl. by apply settle_keeps.
Qed.

Lemma settled_step st e k o :
  promises st !! k = Some o -> promises (step ToString st e) !! k = Some o.
Proof.
  intros H. destruct e as [child|method params|message|x error|ms| |]; simpl.
  - unfold start. destruct (process st); [done|].
    by destruct (negb (stdout child) || negb (stdin child)).
  - by destruct (sendRequest_cases method params st) as [[e ->]| ->].
  - rewrite handleMessage_target. destruct (target message st) as [[x h]|]; [|done].
    simpl. by apply settle_keeps.
  - unfold on_write_done. case_bool_decide; [|done].
    destruct error; simpl; [|done]. by apply settle_keeps.
  - unfold tick. by apply timeouts_keep.
  - simpl. by apply reject_all_keeps.
  - unfold stop. by destruct (process st).
Qed.

(** X22. A promise settles once: after it is resolved or rejected, no
    later response, timer, failed write, exit or restart changes its
    outcome, from whatever state the events start. *)
Theorem settled_for_good (events : list Event) (st : Client) (k : Z) (o : Settled) :
  promises st !! k = Some o ->
  promises (run ToString events st) !! k = Some o.
Proof.
  revert st. induction events as [|e events IH]; intros st H; simpl; [done|].
  by apply IH, settled_step.
Qed.

Lemma timeouts_pending_inv ids st k h :
  pendingRequests (foldl on_timeout st ids) !! k = Some h ->
  pendingRequests st !! k = Some h /\ k ∉ ids.
Proof.
  revert st. induction ids as [|x ids IH]; intros st H; simpl in *.
  - split; [done|]. apply not_elem_of_nil.
  - apply IH in H as [H Hnot]. unfold on_timeout in H.
    destruct (pendingRequests st !! x) as [hx|] eqn:Hx; simpl in H.
    + apply lookup_delete_Some in H as [Hne H]. split; [done|].
      apply not_elem_of_cons. done.
    + split; [done|]. apply not_elem_of_cons. split; [|done].
      intros ->. congruence.
Qed.

Lemma timed_step st e : timed st -> timed (step ToString st e).
Proof.
  intros Ht. destruct e as [child|method params|message|x error|ms| |]; simpl.
  - unfold start. destruct (process st); [done|].
    by destruct (negb (stdout child) || negb (stdin child)).
  - destruct (sendRequest_cases method params st) as [[e ->]| ->]; [done|].
    intros k h. simpl. rewrite lookup_insert. case_decide as Hk.
    + intros _. subst k. exists (clock st + TIMEOUT).
      split; [apply elem_of_app; right; by apply list_elem_of_singleton|].
      unfold TIMEOUT. lia.
    + intros Hp. destruct (Ht k h Hp) as (d & Hd & Hlt & Hle).
      exists d. split; [apply elem_of_app; by left|done].
  - rewrite handleMessage_target. destruct (target message st) as [[x h]|]; [|done].
    intros k h'. simpl. intros Hp. apply lookup_delete_Some in Hp as [_ Hp].
    by apply (Ht k h').
  - unfold on_write_done. case_bool_decide; [|done].
    destruct error; [|done]. intros k h. simpl. intros Hp.
    apply lookup_delete_Some in Hp as [_ Hp]. by apply (Ht k h).
  - unfold tick.
    set (now := clock st + Z.max 0 ms).
    set (due := List.filter (fun t => fst t <=? now) (timers st)).
    set (st0 := {| process := process st; messageId := messageId st;
                   pendingRequests := pendingRequests st; promises := promises st;
                   written := written st; writes := writes st;
                   timers := List.filter (fun t => negb (fst t <=? now)) (timers st);
                   clock := now |}).
    destruct (timeouts_fields (map snd due) st0) as (_ & Hc & Htm).
    intros k h Hp. rewrite Hc, Htm.
    apply timeouts_pending_inv in Hp as [Hp Hnot]. simpl in Hp.
    destruct (Ht k h Hp) as (d & Hd & Hlt & Hle).
    assert (now < d) as Hnow.
    { destruct (Z.leb_spec d now) as [Hdue|]; [|done].
      exfalso. apply Hnot. apply list_elem_of_fmap. exists (d, k). split; [done|].
      apply list_elem_of_In, List.filter_In.
      split; [by apply list_elem_of_In|]. simpl. by apply Z.leb_le. }
    exists d. simpl. split; [|unfold now in *; lia].
    apply list_elem_of_In, List.filter_In.
    split; [by apply list_elem_of_In|]. simpl. apply negb_true_iff, Z.leb_gt. done.
  - intros k h. simpl. by rewrite lookup_empty.
  - unfold stop. by destruct (process st).
Qed.

Lemma timed_run events st : timed st -> timed (run ToString events st).
Proof.
  revert st. induction events as [|e events IH]; intros st H; simpl; [done|].
  by apply IH, timed_step.
Qed.

(** X23. No request stays outstanding for more than 30 seconds: from any
    state the client can reach, once 30 seconds or more pass, the pending
    map is empty and every request that was in it has been rejected with
    "MCP request timeout". *)
Theorem pending_cleared_after_timeout (events : list Event) (ms : Z) :
  let st := run ToString events initial in
  TIMEOUT <= ms ->
  pendingRequests (tick ms st) = ∅ /\
  forall k h, pendingRequests st !! k = Some h ->
    promises (tick ms st) !! k = Some (Rejected "MCP request timeout").
Proof.
  intros st Hms.
  pose proof (wf_run ToString events initial wf_initial) as Hwf. fold st in Hwf.
  assert (timed st) as Ht.
  { apply timed_run. intros k h. unfold initial. simpl. by rewrite lookup_empty. }
  unfold tick.
  set (now := clock st + Z.max 0 ms).
  set (due := List.filter (fun t => fst t <=? now) (timers st)).
  set (st0 := {| process := process st; messageId := messageId st;
                 pendingRequests := pendingRequests st; promises := promises st;
                 written := written st; writes := writes st;
                 timers := List.filter (fun t => negb (fst t <=? now)) (timers st);
                 clock := now |}).
  assert (forall k h, pendingRequests st !! k = Some h -> k ∈ map snd due) as Hdue.
  { intros k h Hp. destruct (Ht k h Hp) as (d & Hd & Hlt & Hle).
    apply list_elem_of_fmap. exists (d, k). split; [done|].
    apply list_elem_of_In, List.filter_In.
    split; [by apply list_elem_of_In|]. simpl. apply Z.leb_le. unfold now. lia. }
  split.
  - apply map_empty. intros k.
    destruct (pendingRequests (foldl on_timeout st0 (map snd due)) !! k) as [h|] eqn:E;
      [|done].
    apply timeouts_pending_inv in E as [Hp Hnot]. simpl in Hp.
    exfalso. apply Hnot. by eapply Hdue.
  - intros k h Hp.
    assert (waiting k st0) as Hw.
    { split; simpl.
      - rewrite Hp. f_equal. destruct h as [p]. f_equal.
        by apply (wf_handle _ Hwf _ _ Hp).
      - by eapply wf_unsettled. }
    destruct (timeouts_waiting k (map snd due) st0 Hw) as [Hfire _].
    by apply Hfire, (Hdue k h).
Qed.

(** X24. When the write of a request fails, its promise is rejected with
    the write's error and its entry leaves the pending map at once; the
    timer that runs later, and anything else, leaves that outcome alone. *)
Theorem failed_write_rejects
    (before : list Event) (method : string) (params : JsValue)
    (id : Z) (st1 : Client) (e : string) (later : list Event) :
  sendRequest method params (run ToString before initial) = (Returned id, st1) ->
  let st2 := on_write_done id (Some e) st1 in
  promises st2 !! id = Some (Rejected e) /\
  pendingRequests st2 !! id = None /\
  promises (run ToString later st2) !! id = Some (Rejected e).
Proof.
  intros Hsend st2.
  pose proof (wf_run ToString before initial wf_initial) as Hwf.
  destruct (sendRequest_cases method params (run ToString before initial))
    as [[e' He]|Hok]; [congruence|].
  rewrite Hok in Hsend. injection Hsend as <- <-.
  assert (promises st2 !! (messageId (run ToString before initial) + 1)
          = Some (Rejected e) /\
          pendingRequests st2 !! (messageId (run ToString before initial) + 1) = None)
    as [Hs Hp].
  { unfold st2, on_write_done. simpl.
    rewrite bool_decide_eq_true_2
      by (apply elem_of_app; right; by apply list_elem_of_singleton).
    simpl. split; [|apply lookup_delete_eq].
    apply settle_fresh.
    destruct (promises (run ToString before initial)
                !! (messageId (run ToString before initial) + 1)) as [o|] eqn:E; [|done].
    apply (wf_promises _ Hwf) in E. lia. }
  split; [done|]. split; [done|]. by apply settled_for_good.
Qed.

(** X25. A child that comes without a pipe for its input is never used and
    never replaced: the first [callTool] throws "Failed to create stdio
    streams" but keeps the child as the client's process, so every later
    [callTool] throws "MCP server not started" without spawning again and
    without changing anything. *)
Theorem callTool_without_stdin
    (st : Client) (child next : ChildProcess) (name name' : string)
    (args args' : JsValue) :
  process st = None ->
  stdin child = false ->
  exists st1,
    callTool child name args st
    = (Threw (Error "Failed to create stdio streams"), st1) /\
    process st1 = Some child /\
    pendingRequests st1 = pendingRequests st /\
    callTool next name' args' st1 = (Threw (Error "MCP server not started"), st1).
Proof.
  intros Hnone Hstdin. unfold callTool, start. rewrite Hnone, Hstdin.
  rewrite orb_true_r. eexists. split; [reflexivity|]. simpl.
  split; [done|]. split; [done|].
  unfold sendRequest. simpl. by rewrite Hstdin.
Qed.

End BridgeRuns.


(** ** Reading the child's output *)

Section Reader.
Import Js StdoutReader.

Variable decode : list Byte.byte -> string.
Variable parse : string -> option JsValue.
Variable trim : string -> string.
Variable ToString : JsValue -> string.

Lemma append_cons (c : Ascii.ascii) (a b : string) :
  String c a +:+ b = String c (a +:+ b).
Proof. reflexivity. Qed.

Lemma append_assoc (a b c : string) : (a +:+ b) +:+ c = a +:+ (b +:+ c).
Proof.
  induction a as [|x a IH]; [done|]. rewrite !append_cons. by rewrite IH.
Qed.

Lemma split_lines_nonempty (s : string) : split_lines s <> [].
Proof.
  induction s as [|c s IH]; simpl; [done|].
  destruct (Ascii.eqb c _); [done|]. by destruct (split_lines s).
Qed.

Lemma removelast_cons {A} (x : A) (l : list A) :
  l <> [] -> removelast (x :: l) = x :: removelast l.
Proof. by destruct l. Qed.

Lemma last_cons {A} (x d : A) (l : list A) :
  l <> [] -> List.last (x :: l) d = List.last l d.
Proof. by destruct l. Qed.

Lemma last_app_nonempty {A} (d : A) (l1 l2 : list A) :
  l2 <> [] -> List.last (l1 ++ l2) d = List.last l2 d.
Proof.
  intros H. induction l1 as [|x l1 IH]; [done|].
  rewrite <- app_comm_cons, last_cons; [done|]. by destruct l1, l2.
Qed.

Lemma split_lines_app (a b : string) :
  split_lines (a +:+ b)
  = removelast (split_lines a) ++ split_lines (List.last (split_lines a) "" +:+ b).
Proof.
  induction a as [|c a IH]; [done|].
  rewrite append_cons. cbn [split_lines].
  pose proof (split_lines_nonempty a) as Ha.
  destruct (Ascii.eqb c (Ascii.ascii_of_nat 10)) eqn:Hc.
  - rewrite removelast_cons, last_cons by done. by rewrite IH.
  - rewrite IH. destruct (split_lines a) as [|f r]; [done|].
    destruct r as [|g r].
    + cbn [removelast List.last app]. rewrite append_cons. cbn [split_lines].
      by rewrite Hc.
    + rewrite (removelast_cons f), (last_cons f) by done.
      rewrite (removelast_cons (String c f)), (last_cons (String c f)) by done.
      reflexivity.
Qed.

Lemma texts_app (chunks : list (list Byte.byte)) (data : list Byte.byte) :
  foldr String.append "" (map decode (chunks ++ [data]))
  = foldr String.append "" (map decode chunks) +:+ decode data.
Proof.
  induction chunks as [|x chunks IH]; simpl.
  - by rewrite append_empty.
  - by rewrite IH, append_assoc.
Qed.

(** After any sequence of chunks, the state is the one that the lines of
    the texts of the chunks, put together, lead to. *)
Lemma on_data_texts (chunks : list (list Byte.byte)) (st : MCPClient.Client) :
  foldl (fun s data => on_data decode parse trim ToString data s) ("", st) chunks
  = (List.last (split_lines (foldr String.append "" (map decode chunks))) "",
     foldl (handle_line parse trim ToString) st
       (removelast (split_lines (foldr String.append "" (map decode chunks))))).
Proof.
  induction chunks as [|d chunks IH] using rev_ind; [done|].
  rewrite foldl_app. cbn [foldl]. rewrite IH, texts_app.
  unfold on_data. cbn [fst snd].
  rewrite (split_lines_app (foldr String.append "" (map decode chunks)) (decode d)).
  pose proof (split_lines_nonempty
                (List.last (split_lines (foldr String.append "" (map decode chunks))) ""
                 +:+ decode d)) as Hne.
  rewrite last_app_nonempty by done.
  rewrite List.removelast_app by done.
  by rewrite foldl_app.
Qed.

(** X26. How the child's output is cut into chunks does not matter as long
    as the chunks decode to the parts of the text that the whole output
    decodes to (no character is cut in two): after the chunks, the kept
    text and the state of the client are the same as if the whole output
    had arrived as one chunk. *)
Theorem on_data_chunks
    (chunks : list (list Byte.byte)) (whole : list Byte.byte) (st : MCPClient.Client) :
  decode whole = foldr String.append "" (map decode chunks) ->
  foldl (fun s data => on_data decode parse trim ToString data s) ("", st) chunks
  = on_data decode parse trim ToString whole ("", st).
Proof.
  intros Hwhole. rewrite on_data_texts. unfold on_data. cbn [fst snd].
  change ("" +:+ decode whole) with (decode whole). by rewrite Hwhole.
Qed.

Lemma split_lines_no_newline (s : string) :
  ~ Js.contains s Js.nl -> split_lines s = [s].
Proof.
  induction s as [|c s IH]; [done|]. intros Hno. cbn [split_lines].
  destruct (Ascii.eqb_spec c (Ascii.ascii_of_nat 10)) as [->|Hc].
  - exfalso. apply Hno. by exists "", s.
  - rewrite IH; [done|]. intros (pre & post & ->). apply Hno.
    by exists (String c pre), post.
Qed.

(** X27. Output without a line feed is only kept: as long as the text
    received since the last line feed contains none, no message is handled
    and the client stays as it is, however much text arrives. *)
Theorem on_data_incomplete
    (data : list Byte.byte) (buffer : string) (st : MCPClient.Client) :
  ~ Js.contains (buffer +:+ decode data) Js.nl ->
  on_data decode parse trim ToString data (buffer, st) = (buffer +:+ decode data, st).
Proof.
  intros Hno. unfold on_data. simpl.
  by rewrite (split_lines_no_newline _ Hno).
Qed.

Lemma split_lines_line (line rest : string) :
  ~ Js.contains line Js.nl ->
  split_lines (line +:+ Js.nl +:+ rest) = line :: split_lines rest.
Proof.
  induction line as [|c line IH]; [done|]. intros Hno.
  rewrite append_cons. cbn [split_lines].
  destruct (Ascii.eqb_spec c (Ascii.ascii_of_nat 10)) as [->|Hc].
  - exfalso. apply Hno. by exists "", line.
  - rewrite IH; [done|]. intros (pre & post & ->). apply Hno.
    by exists (String c pre), post.
Qed.

(** X28. A complete line is handled as soon as its line feed arrives: its
    parsed message goes to [handleMessage], while a blank line, or a line
    that does not parse, changes nothing; the text after the line feed is
    kept for later when it has no line feed itself. *)
Theorem on_data_line
    (data : list Byte.byte) (line rest : string) (st : MCPClient.Client) :
  decode data = line +:+ Js.nl +:+ rest ->
  ~ Js.contains line Js.nl ->
  ~ Js.contains rest Js.nl ->
  on_data decode parse trim ToString data ("", st)
  = (rest,
     if String.eqb (trim line) "" then st
     else match parse line with
          | Some message => MCPClient.handleMessage ToString message st
          | None => st
          end).
Proof.
  intros Hdata Hline Hrest. unfold on_data. cbn [fst snd].
  change ("" +:+ decode data) with (decode data). rewrite Hdata.
  rewrite (split_lines_line _ _ Hline), (split_lines_no_newline _ Hrest).
  reflexivity.
Qed.

End Reader.

(** ** From the tool's result to the helper's string *)

Section Helpers.
Import Js ClientHelpers.

Lemma first_text_single (s : string) :
  first_text (result_json (text_result s)) = Returned (JString s).
Proof. reflexivity. Qed.

Lemma returned_text (c : completion string) (r : ToolResult) :
  (text ← c; Returned (text_result text)) = Returned r ->
  exists s, r = text_result s.
Proof. intros H. apply bind_returned in H as (s & _ & H). injection H as <-. eauto. Qed.

(** X29. Whenever one of the three tools returns, it returns exactly one
    text block; so when its result resolves the promise of the call, the
    helper's [response.content[0].text] does not throw and yields that
    block's text, while a rejected promise makes the helper throw the
    rejection's message, and a result without a block would make it
    throw. *)
Theorem tools_answer_one_text
    (calculateDistance : JsValue -> JsValue -> JsValue -> JsValue -> completion Num)
    (ToNumber : JsValue -> completion Num) (ToString : JsValue -> completion string)
    (numToString : Num -> string) (toLowerCase : string -> string)
    (args : JsValue) (allHawkers : list Hawker.t) (allClosures : list ClosureRecord.t) :
  let one (answer : completion ToolResult) :=
    forall r, answer = Returned r ->
    exists s,
      r = text_result s /\
      helper_result (MCPClient.Resolved (result_json r)) = Returned (JString s) in
  one (NearbyHawkers.getNearbyHawkersTool calculateDistance ToNumber ToString numToString
         args allHawkers) /\
  one (Closures.getClosuresTool toLowerCase ToString args allClosures) /\
  one (Details.getHawkerDetailsTool toLowerCase ToString args allHawkers) /\
  (forall message, helper_result (MCPClient.Rejected message) = Threw (Error message)) /\
  (exists e, first_text (result_json {| content := [] |}) = Threw e).
Proof.
  intros one.
  assert (forall answer,
            (forall r, answer = Returned r -> exists s, r = text_result s) ->
            one answer) as Hone.
  { intros answer H r Hr. destruct (H r Hr) as [s ->]. exists s. by split. }
  split; [|split; [|split; [|split; [done|by eexists]]]]; apply Hone; intros r H.
  - unfold NearbyHawkers.getNearbyHawkersTool in H.
    apply bind_returned in H as (q & _ & H).
    apply bind_returned in H as (logged & _ & H).
    apply bind_returned in H as (found & _ & H).
    destruct (0 <? length found)%nat.
    + apply bind_returned in H as (radius & _ & H).
      apply bind_returned in H as (entries & _ & H). injection H as <-. eauto.
    + apply bind_returned in H as (radius & _ & H). injection H as <-. eauto.
  - unfold Closures.getClosuresTool in H.
    apply bind_returned in H as (hawkerName & _ & H).
    apply bind_returned in H as (logged & _ & H).
    apply bind_returned in H as (closures & _ & H).
    apply bind_returned in H as (subject & _ & H).
    destruct (length closures =? 0)%nat.
    + injection H as <-. eauto.
    + apply bind_returned in H as (entries & _ & H). injection H as <-. eauto.
  - unfold Details.getHawkerDetailsTool in H.
    apply bind_returned in H as (hawkerName & _ & H).
    apply bind_returned in H as (logged & _ & H).
    apply bind_returned in H as (selected & _ & H).
    destruct selected as [hawker|].
    + apply bind_returned in H as (logged' & _ & H). by apply returned_text in H.
    + apply bind_returned in H as (subject & _ & H). injection H as <-. eauto.
Qed.

End Helpers.

(** ** The further properties on the example data *)

Lemma good_day_delivers : Gateway.delivers Examples.good_day [Examples.bare_feature].
Proof.
  eexists "OK", _, "OK", _.
  split; [reflexivity|]. split; [by split|]. split; [by split|].
  split; reflexivity.
Qed.

Lemma initial_expired (now : Z) : Gateway.expired now DataGovSg.initial.
Proof. intros cached H. discriminate H. Qed.

Lemma fetchHawkerCentres_refresh_witness :
  exists hawkers,
    DataGovSg.fetchHawkerCentres Examples.convert Examples.good_day DataGovSg.initial
    = (Js.Returned hawkers,
       {| DataGovSg.cachedHawkers := Some hawkers; DataGovSg.cacheTimestamp := 1200 |}) /\
    Forall2 (fun item h => DataGovSg.parseFeature Examples.convert item = Js.Returned h)
      [Examples.bare_feature] hawkers /\
    length hawkers = 1%nat.
Proof.
  apply (fetchHawkerCentres_refresh Examples.convert Examples.good_day
           DataGovSg.initial [Examples.bare_feature]).
  - apply initial_expired.
  - apply good_day_delivers.
  - constructor; [|constructor]. exists Examples.bare_entry. reflexivity.
Defined.

Lemma fetchHawkerCentres_cache_hit_witness :
  DataGovSg.fetchHawkerCentres Examples.convert Examples.same_day Examples.filled_cache
  = (Js.Returned [Examples.bare_entry], Examples.filled_cache).
Proof.
  apply (fetchHawkerCentres_cache_hit Examples.convert
           Examples.good_day Examples.same_day DataGovSg.initial [Examples.bare_entry]).
  - apply initial_expired.
  - reflexivity.
  - reflexivity.
Defined.

Lemma fetchHawkerCentres_bad_feature_witness :
  DataGovSg.fetchHawkerCentres Examples.convert Examples.broken_day Examples.filled_cache
  = (Js.Returned [Examples.bare_entry], Examples.filled_cache).
Proof.
  apply (fetchHawkerCentres_bad_feature Examples.convert Examples.broken_day
           Examples.filled_cache "OK"
           (Js.JObject [("features", Js.JArray [Examples.bare_feature; Js.JNull])])
           [Examples.bare_feature; Js.JNull] Js.JNull
           (Js.Error "Cannot read properties of undefined or null (reading 'properties')")).
  - reflexivity.
  - reflexivity.
  - right. by left.
  - reflexivity.
Defined.

Lemma fetchHawkerClosures_failure_witness :
  DataGovSgClosures.fetchHawkerClosures
    (Examples.bad_hour (1200 + DataGovSgClosures.CLOSURE_CACHE_DURATION))
    Examples.filled_closures
  = (Js.Returned [], Examples.filled_closures).
Proof.
  apply fetchHawkerClosures_failure.
  - intros cached _. vm_compute. discriminate.
  - reflexivity.
Defined.

Lemma fetchHawkerClosures_cache_hit_witness :
  DataGovSgClosures.fetchHawkerClosures (Examples.bad_hour 5000) Examples.filled_closures
  = (Js.Returned [Examples.closure_entry], Examples.filled_closures).
Proof.
  apply (fetchHawkerClosures_cache_hit Examples.good_hour (Examples.bad_hour 5000)
           DataGovSgClosures.initial [Examples.closure_entry]).
  - intros cached H. discriminate H.
  - reflexivity.
  - reflexivity.
Defined.

Lemma nearby_returns_all_witness :
  exists found,
    NearbyHawkers.nearby Examples.grid_distance Examples.to_number
      (Examples.query 10000 10) Examples.places = Js.Returned found /\
    length found = 3%nat /\
    Permutation (map Distance.source_of found) Examples.places.
Proof.
  apply (nearby_returns_all Examples.grid_distance Examples.to_number
           (Examples.query 10000 10) Examples.places (Js.Fin 10000) (Js.Fin 10)).
  - reflexivity.
  - reflexivity.
  - repeat constructor; eexists; (split; [reflexivity|]); vm_compute; reflexivity.
  - reflexivity.
Defined.

Lemma nearby_keeps_nearest_witness :
  Js.num_le (HawkerWithDistance.distance Examples.ranked_b)
    (HawkerWithDistance.distance Examples.ranked_c) = true.
Proof.
  apply (nearby_keeps_nearest Examples.grid_distance Examples.to_number
           (Examples.query 10000 2) Examples.places
           [Examples.ranked_a; Examples.ranked_b; Examples.ranked_c]
           [Examples.ranked_a; Examples.ranked_b]
           (Js.Fin 10000) Examples.ranked_c Examples.ranked_b).
  - repeat constructor; discriminate.
  - reflexivity.
  - reflexivity.
  - reflexivity.
  - right. right. by left.
  - reflexivity.
  - intros [H|[H|H]]; [discriminate H|discriminate H|done].
  - right. by left.
Defined.

Lemma getNearbyHawkersTool_none_witness :
  NearbyHawkers.getNearbyHawkersTool Examples.grid_distance Examples.to_number
    Examples.convert Examples.show_num
    (Examples.here [("radius", Js.JNumber 100)]) [Examples.place_c]
  = Js.Returned
      (text_result "No Hawker centres found within 100m of your location.").
Proof.
  apply (getNearbyHawkersTool_none Examples.grid_distance Examples.to_number
           Examples.convert Examples.show_num
           (Examples.here [("radius", Js.JNumber 100)]) (Examples.query 100 10)
           [Examples.place_c] "100" (Js.Fin 10)).
  - reflexivity.
  - by eexists.
  - by eexists.
  - reflexivity.
  - reflexivity.
  - repeat constructor. eexists _, (Js.Fin 100).
    split; [reflexivity|]. split; reflexivity.
Defined.

Lemma sortByDistance_ties_witness :
  exists ranked,
    Distance.sortByDistance Examples.grid_distance
      (Js.JNumber (12834 # 10000)) (Js.JNumber (1038607 # 10000)) Examples.twins
    = Js.Returned ranked /\
    map Distance.source_of
      (List.filter
         (fun r => Js.num_le (HawkerWithDistance.distance r) (Js.Fin 1110) &&
                   Js.num_le (Js.Fin 1110) (HawkerWithDistance.distance r))
         ranked)
    = [Examples.east; Examples.west].
Proof.
  destruct (Distance.sortByDistance Examples.grid_distance
              (Js.JNumber (12834 # 10000)) (Js.JNumber (1038607 # 10000)) Examples.twins)
    as [ranked|e] eqn:H; [|by vm_compute in H].
  exists ranked. split; [done|].
  rewrite (sortByDistance_ties Examples.grid_distance
             (Js.JNumber (12834 # 10000)) (Js.JNumber (1038607 # 10000)) (Js.Fin 1110)
             Examples.twins ranked); [reflexivity| |exact H].
  repeat constructor; discriminate.
Defined.

Lemma getHawkerDetailsTool_empty_subject_witness :
  exists h,
    In h Examples.places /\
    Details.getHawkerDetailsTool Js.ascii_lower Examples.convert
      (Examples.named "") Examples.places
    = Js.bind (Details.details_text Examples.convert h)
        (fun text => Js.Returned (text_result text)) /\
    Details.getHawkerDetailsTool Js.ascii_lower Examples.convert
      (Examples.named "") Examples.places
    <> Js.Returned (text_result (Details.not_found_text "")) /\
    (Forall (fun x => forall name,
               Hawker.name x = Js.JString name -> Js.ascii_lower name <> "")
       Examples.places ->
     h = Examples.place_b).
Proof.
  apply (getHawkerDetailsTool_empty_subject Js.ascii_lower Examples.convert
           (Examples.named "") "" Examples.place_b
           [Examples.place_a; Examples.place_c]).
  - reflexivity.
  - repeat constructor; unfold Lookup.is_string; simpl; eauto.
  - reflexivity.
Defined.

Lemma places_named : Forall (fun h => Lookup.is_string (Hawker.name h)) Examples.places.
Proof. repeat constructor; unfold Lookup.is_string; simpl; eauto. Qed.

Lemma getHawkerDetailsTool_not_found_iff_witness :
  Details.getHawkerDetailsTool Js.ascii_lower Examples.convert
    (Examples.named "Maxwell") Examples.places
  = Js.Returned (text_result (Details.not_found_text "Maxwell")).
Proof.
  apply (getHawkerDetailsTool_not_found_iff Js.ascii_lower Examples.convert
           (Examples.named "Maxwell") "Maxwell" Examples.places).
  - reflexivity.
  - apply places_named.
  - repeat constructor; intros (name & [= <-] & Hc);
      apply includes_spec in Hc; discriminate Hc.
Defined.

Lemma getClosuresTool_none_iff_witness :
  Closures.getClosuresTool Js.ascii_lower Examples.convert
    (Examples.named "Maxwell") Examples.closures
  = Js.Returned (text_result (Closures.no_closures_text "Maxwell")).
Proof.
  apply (getClosuresTool_none_iff Js.ascii_lower Examples.convert
           (Examples.named "Maxwell") "Maxwell" Examples.closures).
  - reflexivity.
  - repeat constructor; unfold Lookup.is_string; simpl; eauto.
  - repeat constructor; intros (name & [= <-] & Hc);
      apply includes_spec in Hc; discriminate Hc.
Defined.


Lemma handleMessage_commute_witness :
  MCPClient.handleMessage Examples.to_string (Examples.response 1 "first")
    (MCPClient.handleMessage Examples.to_string (Examples.response 2 "second")
       (MCPClient.run Examples.to_string Examples.two_requests MCPClient.initial))
  = MCPClient.handleMessage Examples.to_string (Examples.response 2 "second")
      (MCPClient.handleMessage Examples.to_string (Examples.response 1 "first")
         (MCPClient.run Examples.to_string Examples.two_requests MCPClient.initial)).
Proof.
  apply (handleMessage_commute Examples.to_string Examples.two_requests).
  intros k H1 H2.
  destruct (decide (k = 1)) as [->|Hne].
  - by apply (response_other 1 2 "second").
  - by apply (response_other k 1 "first").
Defined.

Lemma settled_for_good_witness :
  MCPClient.promises
    (MCPClient.run Examples.to_string
       [ MCPClient.Message (Examples.response 1 "again"); MCPClient.Tick 60000;
         MCPClient.Exit ]
       (MCPClient.handleMessage Examples.to_string (Examples.response 1 "tools")
          (MCPClient.run Examples.to_string Examples.two_requests MCPClient.initial))) !! 1
  = Some (MCPClient.Resolved (Js.JString "tools")).
Proof.
  apply (settled_for_good Examples.to_string). vm_compute. reflexivity.
Defined.

Lemma pending_cleared_after_timeout_witness :
  MCPClient.pendingRequests
    (MCPClient.tick 30000
       (MCPClient.run Examples.to_string Examples.two_requests MCPClient.initial))
  = ∅.
Proof.
  apply (pending_cleared_after_timeout Examples.to_string Examples.two_requests 30000).
  unfold MCPClient.TIMEOUT. lia.
Defined.

Lemma failed_write_rejects_witness :
  let st1 :=
    snd (MCPClient.sendRequest "tools/list" (Js.JObject [])
           (MCPClient.run Examples.to_string [MCPClient.Start Examples.child]
              MCPClient.initial)) in
  MCPClient.promises
    (MCPClient.run Examples.to_string [MCPClient.Tick 30000]
       (MCPClient.on_write_done 1 (Some "write EPIPE") st1)) !! 1
  = Some (MCPClient.Rejected "write EPIPE").
Proof.
  intros st1.
  apply (failed_write_rejects Examples.to_string [MCPClient.Start Examples.child]
           "tools/list" (Js.JObject []) 1 st1 "write EPIPE" [MCPClient.Tick 30000]).
  reflexivity.
Defined.

Lemma callTool_without_stdin_witness :
  exists st1,
    MCPClient.callTool Examples.deaf_child "get_hawker_details" (Js.JObject [])
      MCPClient.initial
    = (Js.Threw (Js.Error "Failed to create stdio streams"), st1) /\
    MCPClient.process st1 = Some Examples.deaf_child /\
    MCPClient.pendingRequests st1 = ∅ /\
    MCPClient.callTool Examples.child "get_hawker_details" (Js.JObject []) st1
    = (Js.Threw (Js.Error "MCP server not started"), st1).
Proof.
  apply (callTool_without_stdin MCPClient.initial Examples.deaf_child Examples.child);
    reflexivity.
Defined.

Lemma not_contains_nl (s : string) :
  Js.includes s Js.nl = false -> ~ Js.contains s Js.nl.
Proof. apply includes_false. Qed.

Lemma on_data_chunks_witness :
  let st := MCPClient.run Examples.to_string Examples.two_requests MCPClient.initial in
  foldl (fun s data =>
           StdoutReader.on_data Examples.one_per_byte Examples.parse_line
             Examples.no_trim Examples.to_string data s)
    ("", st)
    [Examples.bytes "{i"; Examples.bytes "d:1"; Examples.bytes ("}" +:+ Js.nl +:+ "{")]
  = StdoutReader.on_data Examples.one_per_byte Examples.parse_line
      Examples.no_trim Examples.to_string
      (Examples.bytes ("{id:1}" +:+ Js.nl +:+ "{")) ("", st).
Proof.
  intros st.
  apply (on_data_chunks Examples.one_per_byte Examples.parse_line Examples.no_trim
           Examples.to_string
           [Examples.bytes "{i"; Examples.bytes "d:1";
            Examples.bytes ("}" +:+ Js.nl +:+ "{")]
           (Examples.bytes ("{id:1}" +:+ Js.nl +:+ "{")) st).
  reflexivity.
Defined.

Lemma on_data_incomplete_witness :
  StdoutReader.on_data Examples.one_per_byte Examples.parse_line Examples.no_trim
    Examples.to_string (Examples.bytes ":1}") ("{id", MCPClient.initial)
  = ("{id:1}", MCPClient.initial).
Proof.
  apply (on_data_incomplete Examples.one_per_byte Examples.parse_line Examples.no_trim
           Examples.to_string (Examples.bytes ":1}") "{id" MCPClient.initial).
  by apply not_contains_nl.
Defined.

Lemma on_data_line_witness :
  let st := MCPClient.run Examples.to_string Examples.two_requests MCPClient.initial in
  StdoutReader.on_data Examples.one_per_byte Examples.parse_line Examples.no_trim
    Examples.to_string (Examples.bytes ("{id:1}" +:+ Js.nl +:+ "{id")) ("", st)
  = ("{id", MCPClient.handleMessage Examples.to_string (Examples.response 1 "tools") st).
Proof.
  intros st.
  apply (on_data_line Examples.one_per_byte Examples.parse_line Examples.no_trim
           Examples.to_string (Examples.bytes ("{id:1}" +:+ Js.nl +:+ "{id"))
           "{id:1}" "{id" st); [reflexivity| |]; by apply not_contains_nl.
Defined.

Example on_data_in_chunks :
  let st := MCPClient.run Examples.to_string Examples.two_requests MCPClient.initial in
  MCPClient.promises
    (snd (foldl (fun s data =>
                   StdoutReader.on_data Examples.one_per_byte Examples.parse_line
                     Examples.no_trim Examples.to_string data s)
            ("", st)
            [Examples.bytes "{i"; Examples.bytes "d:1";
             Examples.bytes ("}" +:+ Js.nl +:+ "{")])) !! 1
  = Some (MCPClient.Resolved (Js.JString "tools")).
Proof. vm_compute. reflexivity. Qed.
